(** * The tracer core of apm-agent-go (tracer.go): loop, queues and sender.

    The event loop [Tracer.loop] owns two queues and a handful of local
    variables.  One iteration of its [for { select { ... } ... }] body is
    embedded as a function of the loop variables, of the select case that
    fired (with the value received) and of what the outside world answers
    during that iteration (the Transport results, the content of the
    buffered errors channel).  Calls that leave the loop (pool returns,
    Transport calls, processor and context-setter calls, timer resets, the
    flush completion signal) are recorded, in program order, in a list of
    effects. *)

From Stdlib Require Import ZArith List Bool String Lia.
Import ListNotations.
Local Open Scope Z_scope.

(** ** Machine integers *)

(** [uint64] counters wrap around modulo 2^64. *)
Definition uint64_mod : Z := 2 ^ 64.
Definition uint64 (z : Z) : Z := z mod uint64_mod.
Definition uint64_add (a b : Z) : Z := uint64 (a + b).

(** Go's [int] is a 64-bit two's complement integer on the supported
    platforms. *)
Definition int_min : Z := - 2 ^ 63.
Definition int_max : Z := 2 ^ 63 - 1.
Definition int_wrap (z : Z) : Z := (z - int_min) mod uint64_mod + int_min.
Definition int_sub (a b : Z) : Z := int_wrap (a - b).
Definition int_ok (z : Z) : Prop := int_min <= z <= int_max.

(** [len] of a slice, as an integer. *)
Definition len {A : Type} (l : list A) : Z := Z.of_nat (List.length l).

(** ** Records handed to the loop *)

(** A [*Transaction] is a pointer; the loop and the sender only look at
    its identity and at [Sampled()]. *)
Record Transaction : Type := mkTransaction {
  tx_ptr : nat;
  tx_Sampled : bool
}.

(** A [*Error]; [e.Transaction] may be nil. *)
Record Error : Type := mkError {
  e_ptr : nat;
  e_Transaction : option Transaction
}.

(** ** Statistics *)

Record TracerStatsErrors : Type := mkTracerStatsErrors {
  SetContext : Z;
  SendTransactions : Z;
  SendErrors : Z
}.

Record TracerStats : Type := mkTracerStats {
  Errors : TracerStatsErrors;
  ErrorsSent : Z;
  ErrorsDropped : Z;
  TransactionsSent : Z;
  TransactionsDropped : Z
}.

(** [TracerStats{}] *)
Definition zeroStats : TracerStats :=
  mkTracerStats (mkTracerStatsErrors 0 0 0) 0 0 0 0.

(** Modelled from the spec: [TracerStats.isZero] is declared outside
    tracer.go; the delta of an iteration is committed "only when
    non-zero", so it tests every counter against zero. *)
Definition isZero (s : TracerStats) : bool :=
  (SetContext (Errors s) =? 0) && (SendTransactions (Errors s) =? 0)
  && (SendErrors (Errors s) =? 0) && (ErrorsSent s =? 0)
  && (ErrorsDropped s =? 0) && (TransactionsSent s =? 0)
  && (TransactionsDropped s =? 0).

(** Modelled from the spec: [TracerStats.accumulate] is declared outside
    tracer.go; "accumulation is additive", counter by counter. *)
Definition accumulate (s rhs : TracerStats) : TracerStats :=
  mkTracerStats
    (mkTracerStatsErrors
       (uint64_add (SetContext (Errors s)) (SetContext (Errors rhs)))
       (uint64_add (SendTransactions (Errors s)) (SendTransactions (Errors rhs)))
       (uint64_add (SendErrors (Errors s)) (SendErrors (Errors rhs))))
    (uint64_add (ErrorsSent s) (ErrorsSent rhs))
    (uint64_add (ErrorsDropped s) (ErrorsDropped rhs))
    (uint64_add (TransactionsSent s) (TransactionsSent rhs))
    (uint64_add (TransactionsDropped s) (TransactionsDropped rhs)).

(** The single-counter updates the loop and the sender perform. *)
Definition add_TransactionsDropped (n : Z) (s : TracerStats) : TracerStats :=
  mkTracerStats (Errors s) (ErrorsSent s) (ErrorsDropped s)
    (TransactionsSent s) (uint64_add (TransactionsDropped s) n).

Definition add_TransactionsSent (n : Z) (s : TracerStats) : TracerStats :=
  mkTracerStats (Errors s) (ErrorsSent s) (ErrorsDropped s)
    (uint64_add (TransactionsSent s) n) (TransactionsDropped s).

Definition add_ErrorsSent (n : Z) (s : TracerStats) : TracerStats :=
  mkTracerStats (Errors s) (uint64_add (ErrorsSent s) n) (ErrorsDropped s)
    (TransactionsSent s) (TransactionsDropped s).

Definition with_Errors (e : TracerStatsErrors) (s : TracerStats) : TracerStats :=
  mkTracerStats e (ErrorsSent s) (ErrorsDropped s)
    (TransactionsSent s) (TransactionsDropped s).

Definition incr_SetContext (s : TracerStats) : TracerStats :=
  with_Errors (mkTracerStatsErrors (uint64_add (SetContext (Errors s)) 1)
                 (SendTransactions (Errors s)) (SendErrors (Errors s))) s.

Definition incr_SendTransactions (s : TracerStats) : TracerStats :=
  with_Errors (mkTracerStatsErrors (SetContext (Errors s))
                 (uint64_add (SendTransactions (Errors s)) 1)
                 (SendErrors (Errors s))) s.

Definition incr_SendErrors (s : TracerStats) : TracerStats :=
  with_Errors (mkTracerStatsErrors (SetContext (Errors s))
                 (SendTransactions (Errors s))
                 (uint64_add (SendErrors (Errors s)) 1)) s.

(** ** Collaborators of the loop *)

(** An [error] value, by its message. *)
Definition error : Type := string.

(** [transport.Transport]: what each call answers ([None] is a nil error).
    The payload carries the records of the batch, in order. *)
Module transport.
Record Transport : Type := mkTransport {
  SendTransactions : list Transaction -> option error;
  SendErrors : list Error -> option error
}.
End transport.

(** [stacktrace.ContextSetter] as the sender uses it, through
    [tx.setContext(setter, pre, post)] and [e.setContext(setter, pre, post)]
    (both declared outside tracer.go): the answer for a record. *)
Record ContextSetter : Type := mkContextSetter {
  tx_setContext : Transaction -> Z -> Z -> option error;
  e_setContext : Error -> Z -> Z -> option error
}.

(** A [Logger], by identity. *)
Definition Logger : Type := nat.

(** A [Processor] is either a user's processor (by identity) or the
    composite [Processors] that [SetProcessor] builds from its arguments. *)
#[warnings="-register-all"]
Inductive Processor : Type :=
| UserProcessor (id : nat)
| Processors (ps : list Processor).

(** ** Effects *)

Inductive Effect : Type :=
| TxReset (tx : Transaction)                 (* tx.reset() *)
| TransactionPoolPut (tx : Transaction)      (* t.transactionPool.Put(tx) *)
| ErrReset (e : Error)                       (* e.reset() *)
| ErrorPoolPut (e : Error)                   (* t.errorPool.Put(e) *)
| TxSetContext (tx : Transaction) (pre post : Z)
| ErrSetContext (e : Error) (pre post : Z)
| TxSetID (tx : Transaction)                 (* tx.setID() *)
| TxBuildContext (tx : Transaction)          (* tx.model.Context = tx.Context.build() *)
| ErrBuildModel (e : Error)                  (* setStacktrace, setCulprit, model fields *)
| CallProcessTransaction (id : nat) (tx : Transaction)
| CallProcessError (id : nat) (e : Error)
| TransportSendTransactions (payload : list Transaction) (res : option error)
| TransportSendErrors (payload : list Error) (res : option error)
| Debugf (l : Logger) (format : string) (err : error)
| TimerReset (d : Z)                         (* flushTimer.Reset(flushInterval) *)
| SignalFlushed (ch : nat).                  (* flushed <- struct{}{} *)

(** ** receivedTransaction *)

(** The closure [receivedTransaction(tx, stats)]; it reads
    [maxTransactionQueueSize], updates [transactions] and [*stats], and
    returns the evicted records to the pool. *)
Definition receivedTransaction (maxTransactionQueueSize : Z)
    (transactions : list Transaction) (tx : Transaction) (stats : TracerStats)
  : list Transaction * TracerStats * list Effect :=
  if (0 <? maxTransactionQueueSize)
     && (maxTransactionQueueSize <=? len transactions)
  then
    let n := uint64 (len transactions - maxTransactionQueueSize + 1) in
    let evicted := firstn (Z.to_nat n) transactions in
    (skipn (Z.to_nat n) transactions ++ [tx],
     add_TransactionsDropped n stats,
     flat_map (fun tx => [TxReset tx; TransactionPoolPut tx]) evicted)
  else (transactions ++ [tx], stats, []).

(** The records a trace returns to the transaction pool, in order. *)
Definition pooledTransactions (tr : list Effect) : list Transaction :=
  flat_map (fun ef => match ef with TransactionPoolPut tx => [tx] | _ => [] end) tr.

(** The records a trace resets, in order. *)
Definition resetTransactions (tr : list Effect) : list Transaction :=
  flat_map (fun ef => match ef with TxReset tx => [tx] | _ => [] end) tr.

(** ** The sender *)

(** [type sender struct]; the [tracer] (its Transport) and the [stats]
    pointer are passed to the send functions explicitly. *)
Record sender : Type := mkSender {
  logger : option Logger;
  processor : option Processor;
  contextSetter : option ContextSetter;
  preContext : Z;
  postContext : Z
}.

(** [if s.logger != nil { s.logger.Debugf(format, err) }] *)
Definition logDebugf (l : option Logger) (format : string) (err : error)
  : list Effect :=
  match l with
  | Some l => [Debugf l format err]
  | None => []
  end.

(** The enrichment loop
    [for _, r := range records { if err = r.setContext(...); err != nil { break } }]:
    the last [err] and the calls made. *)
Fixpoint setContextLoop {A : Type} (set : A -> option error)
    (call : A -> Effect) (records : list A) : option error * list Effect :=
  match records with
  | [] => (None, [])
  | r :: rest =>
      match set r with
      | Some err => (Some err, [call r])
      | None =>
          let '(err, calls) := setContextLoop set call rest in
          (err, call r :: calls)
      end
  end.

(** Modelled from the spec: the [Processors] composite is declared outside
    tracer.go; a processor is "invoked once per record", and registered
    processors are each called with the record, in registration order. *)
Fixpoint ProcessTransaction (p : Processor) (tx : Transaction) : list Effect :=
  match p with
  | UserProcessor id => [CallProcessTransaction id tx]
  | Processors ps => flat_map (fun q => ProcessTransaction q tx) ps
  end.

(** Modelled from the spec: as [ProcessTransaction], for errors. *)
Fixpoint ProcessError (p : Processor) (e : Error) : list Effect :=
  match p with
  | UserProcessor id => [CallProcessError id e]
  | Processors ps => flat_map (fun q => ProcessError q e) ps
  end.

(** The [if s.contextSetter != nil { ... }] block of [sendTransactions]. *)
Definition enrichTransactions (s : sender) (stats : TracerStats)
    (transactions : list Transaction) : TracerStats * list Effect :=
  match contextSetter s with
  | Some setter =>
      match setContextLoop
              (fun tx => tx_setContext setter tx (preContext s) (postContext s))
              (fun tx => TxSetContext tx (preContext s) (postContext s))
              transactions with
      | (Some err, calls) =>
          (incr_SetContext stats,
           calls ++ logDebugf (logger s) "setting context failed: %s" err)
      | (None, calls) => (stats, calls)
      end
  | None => (stats, [])
  end.

(** The payload loop of [sendTransactions], for one record. *)
Definition prepareTransaction (s : sender) (tx : Transaction) : list Effect :=
  [TxSetID tx]
  ++ (if tx_Sampled tx then [TxBuildContext tx] else [])
  ++ match processor s with
     | Some p => ProcessTransaction p tx
     | None => []
     end.

(** [sender.sendTransactions]: the result, [*s.stats] afterwards and the
    calls made. *)
Definition sendTransactions (s : sender) (tr : transport.Transport)
    (stats : TracerStats) (transactions : list Transaction)
  : bool * TracerStats * list Effect :=
  if len transactions =? 0 then (false, stats, [])
  else
    let '(stats1, enrich) := enrichTransactions s stats transactions in
    let prepare := flat_map (prepareTransaction s) transactions in
    match transport.SendTransactions tr transactions with
    | Some err =>
        (false, incr_SendTransactions stats1,
         enrich ++ prepare
         ++ [TransportSendTransactions transactions (Some err)]
         ++ logDebugf (logger s) "sending transactions failed: %s" err)
    | None =>
        (true, add_TransactionsSent (uint64 (len transactions)) stats1,
         enrich ++ prepare ++ [TransportSendTransactions transactions None])
    end.

(** The [if s.contextSetter != nil { ... }] block of [sendErrors]. *)
Definition enrichErrors (s : sender) (stats : TracerStats)
    (errors : list Error) : TracerStats * list Effect :=
  match contextSetter s with
  | Some setter =>
      match setContextLoop
              (fun e => e_setContext setter e (preContext s) (postContext s))
              (fun e => ErrSetContext e (preContext s) (postContext s))
              errors with
      | (Some err, calls) =>
          (incr_SetContext stats,
           calls ++ logDebugf (logger s) "setting context failed: %s" err)
      | (None, calls) => (stats, calls)
      end
  | None => (stats, [])
  end.

(** The payload loop of [sendErrors], for one record. *)
Definition prepareError (s : sender) (e : Error) : list Effect :=
  match e_Transaction e with
  | Some tx => [TxSetID tx]
  | None => []
  end
  ++ [ErrBuildModel e]
  ++ match processor s with
     | Some p => ProcessError p e
     | None => []
     end.

(** [sender.sendErrors] *)
Definition sendErrors (s : sender) (tr : transport.Transport)
    (stats : TracerStats) (errors : list Error)
  : bool * TracerStats * list Effect :=
  if len errors =? 0 then (false, stats, [])
  else
    let '(stats1, enrich) := enrichErrors s stats errors in
    let prepare := flat_map (prepareError s) errors in
    match transport.SendErrors tr errors with
    | Some err =>
        (false, incr_SendErrors stats1,
         enrich ++ prepare
         ++ [TransportSendErrors errors (Some err)]
         ++ logDebugf (logger s) "sending errors failed: %s" err)
    | None =>
        (true, add_ErrorsSent (uint64 (len errors)) stats1,
         enrich ++ prepare ++ [TransportSendErrors errors None])
    end.

(** [Tracer.SetProcessor(p ...Processor)]: the value it sends to the loop
    ([None] is the nil interface). *)
Definition SetProcessor (p : list Processor) : option Processor :=
  if 0 <? len p then Some (Processors p) else None.

(** ** The loop *)

(** The local variables of [Tracer.loop], the sender's configuration and
    the tracer's shared [t.stats].  A channel variable that is either a
    channel of the tracer or nil is a boolean ([true]: selectable);
    [flushed] holds the completion channel of the pending Flush. *)
Record Loop : Type := mkLoop {
  flushInterval : Z;
  flushed : option nat;
  maxTransactionQueueSize : Z;
  maxErrorQueueSize : Z;
  flushC : bool;
  transactions : list Transaction;
  errors : list Error;
  errorsC : bool;
  forceFlush : bool;
  loop_sender : sender;
  t_stats : TracerStats
}.

Definition set_flushInterval (v : Z) (l : Loop) : Loop :=
  mkLoop v (flushed l) (maxTransactionQueueSize l) (maxErrorQueueSize l)
    (flushC l) (transactions l) (errors l) (errorsC l) (forceFlush l)
    (loop_sender l) (t_stats l).
Definition set_flushed (v : option nat) (l : Loop) : Loop :=
  mkLoop (flushInterval l) v (maxTransactionQueueSize l) (maxErrorQueueSize l)
    (flushC l) (transactions l) (errors l) (errorsC l) (forceFlush l)
    (loop_sender l) (t_stats l).
Definition set_maxTransactionQueueSize (v : Z) (l : Loop) : Loop :=
  mkLoop (flushInterval l) (flushed l) v (maxErrorQueueSize l)
    (flushC l) (transactions l) (errors l) (errorsC l) (forceFlush l)
    (loop_sender l) (t_stats l).
Definition set_maxErrorQueueSize (v : Z) (l : Loop) : Loop :=
  mkLoop (flushInterval l) (flushed l) (maxTransactionQueueSize l) v
    (flushC l) (transactions l) (errors l) (errorsC l) (forceFlush l)
    (loop_sender l) (t_stats l).
Definition set_flushC (v : bool) (l : Loop) : Loop :=
  mkLoop (flushInterval l) (flushed l) (maxTransactionQueueSize l)
    (maxErrorQueueSize l) v (transactions l) (errors l) (errorsC l)
    (forceFlush l) (loop_sender l) (t_stats l).
Definition set_transactions (v : list Transaction) (l : Loop) : Loop :=
  mkLoop (flushInterval l) (flushed l) (maxTransactionQueueSize l)
    (maxErrorQueueSize l) (flushC l) v (errors l) (errorsC l)
    (forceFlush l) (loop_sender l) (t_stats l).
Definition set_errors (v : list Error) (l : Loop) : Loop :=
  mkLoop (flushInterval l) (flushed l) (maxTransactionQueueSize l)
    (maxErrorQueueSize l) (flushC l) (transactions l) v (errorsC l)
    (forceFlush l) (loop_sender l) (t_stats l).
Definition set_errorsC (v : bool) (l : Loop) : Loop :=
  mkLoop (flushInterval l) (flushed l) (maxTransactionQueueSize l)
    (maxErrorQueueSize l) (flushC l) (transactions l) (errors l) v
    (forceFlush l) (loop_sender l) (t_stats l).
Definition set_forceFlush (v : bool) (l : Loop) : Loop :=
  mkLoop (flushInterval l) (flushed l) (maxTransactionQueueSize l)
    (maxErrorQueueSize l) (flushC l) (transactions l) (errors l) (errorsC l)
    v (loop_sender l) (t_stats l).
Definition set_sender (v : sender) (l : Loop) : Loop :=
  mkLoop (flushInterval l) (flushed l) (maxTransactionQueueSize l)
    (maxErrorQueueSize l) (flushC l) (transactions l) (errors l) (errorsC l)
    (forceFlush l) v (t_stats l).
Definition set_stats (v : TracerStats) (l : Loop) : Loop :=
  mkLoop (flushInterval l) (flushed l) (maxTransactionQueueSize l)
    (maxErrorQueueSize l) (flushC l) (transactions l) (errors l) (errorsC l)
    (forceFlush l) (loop_sender l) v.

Definition set_preContext (v : Z) (s : sender) : sender :=
  mkSender (logger s) (processor s) (contextSetter s) v (postContext s).
Definition set_postContext (v : Z) (s : sender) : sender :=
  mkSender (logger s) (processor s) (contextSetter s) (preContext s) v.
Definition set_contextSetter (v : option ContextSetter) (s : sender) : sender :=
  mkSender (logger s) (processor s) v (preContext s) (postContext s).
Definition set_logger (v : option Logger) (s : sender) : sender :=
  mkSender v (processor s) (contextSetter s) (preContext s) (postContext s).
Definition set_processor (v : option Processor) (s : sender) : sender :=
  mkSender (logger s) v (contextSetter s) (preContext s) (postContext s).

(** The variables when the [for] loop is entered: Go zero values, with
    [errorsC := t.errors] and [forceFlush := t.forceFlush]. *)
Definition loop_init : Loop :=
  mkLoop 0 None 0 0 false [] [] true true
    (mkSender None None None 0 0) zeroStats.

(** The select case that fires, with the value it receives.  A forced
    flush also finds [len(t.transactions)] records buffered in the
    transactions channel. *)
Inductive Event : Type :=
| Closing
| RecvFlushInterval (d : Z)
| RecvMaxTransactionQueueSize (n : Z)
| RecvMaxErrorQueueSize (n : Z)
| RecvPreContext (n : Z)
| RecvPostContext (n : Z)
| RecvContextSetter (setter : option ContextSetter)
| RecvLogger (l : option Logger)
| RecvProcessor (p : option Processor)
| RecvError (e : Error)
| RecvTransaction (tx : Transaction)
| FlushTimer
| RecvForceFlush (ch : nat) (buffered : list Transaction).

(** What the world answers during one iteration: the Transport, and the
    errors buffered in [t.errors] when the loop reads [len(t.errors)]. *)
Record World : Type := mkWorld {
  w_Transport : transport.Transport;
  w_errors : list Error
}.

(** The closure [startTimer]. *)
Definition startTimer (l : Loop) : Loop * list Effect :=
  if flushC l then (l, [])
  else (set_flushC true l, [TimerReset (flushInterval l)]).

(** [for n := len(t.transactions); n > 0; n-- { receivedTransaction(<-t.transactions, &statsUpdates) }] *)
Fixpoint drainTransactions (max : Z) (queue : list Transaction)
    (stats : TracerStats) (buffered : list Transaction)
  : list Transaction * TracerStats * list Effect :=
  match buffered with
  | [] => (queue, stats, [])
  | tx :: rest =>
      let '(queue1, stats1, tr1) := receivedTransaction max queue tx stats in
      let '(queue2, stats2, tr2) := drainTransactions max queue1 stats1 rest in
      (queue2, stats2, tr1 ++ tr2)
  end.

(** [for n := len(t.errors); n > 0 && remainder > 0; n-- { errors = append(errors, <-t.errors); remainder-- }] *)
Fixpoint drainLoop (buffered : list Error) (remainder : Z)
    (queue : list Error) : list Error :=
  match buffered with
  | [] => queue
  | e :: rest =>
      if 0 <? remainder then drainLoop rest (remainder - 1) (queue ++ [e])
      else queue
  end.

(** [if remainder := maxErrorQueueSize - len(errors); remainder > 0 { ... }] *)
Definition drainErrors (max : Z) (queue buffered : list Error) : list Error :=
  let remainder := int_sub max (len queue) in
  if 0 <? remainder then drainLoop buffered remainder queue else queue.

(** How the select statement leaves the iteration. *)
Inductive Selected : Type :=
| Return                                      (* [return] *)
| Continue (l : Loop) (statsUpdates : TracerStats) (tr : list Effect)
| SendPhase (l : Loop) (statsUpdates : TracerStats)
    (sendTransactions : bool) (tr : list Effect).

(** The select statement; [None] when the chosen case cannot fire (its
    channel variable is nil). *)
Definition select (ev : Event) (l : Loop) : option Selected :=
  let statsUpdates := zeroStats in
  match ev with
  | Closing => Some Return
  | RecvFlushInterval d =>
      Some (Continue (set_flushInterval d l) statsUpdates [])
  | RecvMaxTransactionQueueSize n =>
      let l := set_maxTransactionQueueSize n l in
      if (n <=? 0) || (len (transactions l) <? n)
      then Some (Continue l statsUpdates [])
      else Some (SendPhase l statsUpdates false [])
  | RecvMaxErrorQueueSize n =>
      let l := set_maxErrorQueueSize n l in
      if (n <=? 0) || (len (errors l) <? n)
      then Some (Continue (set_errorsC true l) statsUpdates [])
      else Some (Continue l statsUpdates [])
  | RecvPreContext n =>
      Some (Continue (set_sender (set_preContext n (loop_sender l)) l)
              statsUpdates [])
  | RecvPostContext n =>
      Some (Continue (set_sender (set_postContext n (loop_sender l)) l)
              statsUpdates [])
  | RecvContextSetter cs =>
      Some (Continue (set_sender (set_contextSetter cs (loop_sender l)) l)
              statsUpdates [])
  | RecvLogger lg =>
      Some (Continue (set_sender (set_logger lg (loop_sender l)) l)
              statsUpdates [])
  | RecvProcessor p =>
      Some (Continue (set_sender (set_processor p (loop_sender l)) l)
              statsUpdates [])
  | RecvError e =>
      if errorsC l
      then Some (SendPhase (set_errors (errors l ++ [e]) l) statsUpdates false [])
      else None
  | RecvTransaction tx =>
      let beforeLen := len (transactions l) in
      let '(queue, statsUpdates, tr) :=
        receivedTransaction (maxTransactionQueueSize l) (transactions l) tx
          statsUpdates in
      let l := set_transactions queue l in
      if (len (transactions l) =? beforeLen) && flushC l
      then Some (Continue (set_stats (accumulate (t_stats l) statsUpdates) l)
                   statsUpdates tr)
      else if (maxTransactionQueueSize l <=? 0)
              || (len (transactions l) <? maxTransactionQueueSize l)
      then let '(l, timer) := startTimer l in
           Some (Continue l statsUpdates (tr ++ timer))
      else Some (SendPhase l statsUpdates true tr)
  | FlushTimer =>
      if flushC l
      then Some (SendPhase (set_flushC false l) statsUpdates true [])
      else None
  | RecvForceFlush ch buffered =>
      if forceFlush l
      then
        let '(queue, statsUpdates, tr) :=
          drainTransactions (maxTransactionQueueSize l) (transactions l)
            statsUpdates buffered in
        Some (SendPhase
                (set_flushC false
                   (set_forceFlush false
                      (set_transactions queue (set_flushed (Some ch) l))))
                statsUpdates true tr)
      else None
  end.

(** The loop variables, the per-iteration [statsUpdates] and the calls
    made so far in the iteration. *)
Record Frame : Type := mkFrame {
  fr_loop : Loop;
  fr_statsUpdates : TracerStats;
  fr_trace : list Effect
}.

(** [if remainder := ...; remainder > 0 { drain }] *)
Definition stageDrainErrors (w : World) (f : Frame) : Frame :=
  let l := fr_loop f in
  mkFrame
    (set_errors (drainErrors (maxErrorQueueSize l) (errors l) (w_errors w)) l)
    (fr_statsUpdates f) (fr_trace f).

(** [if sender.sendErrors(ctx, errors) { ... } else if len(errors) == maxErrorQueueSize { errorsC = nil }] *)
Definition stageSendErrors (w : World) (f : Frame) : Frame :=
  let l := fr_loop f in
  let '(ok, stats, tr) :=
    sendErrors (loop_sender l) (w_Transport w) (fr_statsUpdates f) (errors l) in
  if ok then
    mkFrame (set_errorsC true (set_errors [] l)) stats
      (fr_trace f ++ tr
       ++ flat_map (fun e => [ErrReset e; ErrorPoolPut e]) (errors l))
  else if len (errors l) =? maxErrorQueueSize l then
    mkFrame (set_errorsC false l) stats (fr_trace f ++ tr)
  else mkFrame l stats (fr_trace f ++ tr).

(** [if sendTransactions { if sender.sendTransactions(ctx, transactions) { ... } }] *)
Definition stageSendTransactions (w : World) (sendTx : bool) (f : Frame)
  : Frame :=
  let l := fr_loop f in
  if sendTx then
    let '(ok, stats, tr) :=
      sendTransactions (loop_sender l) (w_Transport w) (fr_statsUpdates f)
        (transactions l) in
    if ok then
      mkFrame (set_transactions [] l) stats
        (fr_trace f ++ tr
         ++ flat_map (fun tx => [TxReset tx; TransactionPoolPut tx])
              (transactions l))
    else mkFrame l stats (fr_trace f ++ tr)
  else f.

(** [if sendTransactions && flushed != nil { forceFlush = t.forceFlush; flushed <- struct{}{}; flushed = nil }] *)
Definition signalFlushed (sendTx : bool) (f : Frame) : Frame :=
  let l := fr_loop f in
  match flushed l with
  | Some ch =>
      if sendTx then
        mkFrame (set_flushed None (set_forceFlush true l))
          (fr_statsUpdates f) (fr_trace f ++ [SignalFlushed ch])
      else f
  | None => f
  end.

(** The end of the loop body, from [if !statsUpdates.isZero()]. *)
Definition stageFinish (sendTx : bool) (f : Frame) : Frame :=
  let stats := fr_statsUpdates f in
  if negb (isZero stats) then
    let l := set_stats (accumulate (t_stats (fr_loop f)) stats) (fr_loop f) in
    if negb (SendTransactions (Errors stats) =? 0)
       || negb (SendErrors (Errors stats) =? 0)
    then
      let '(l, timer) := startTimer l in
      mkFrame l stats (fr_trace f ++ timer)
    else signalFlushed sendTx (mkFrame l stats (fr_trace f))
  else signalFlushed sendTx f.

(** Everything after the select statement. *)
Definition sendPhase (w : World) (sendTx : bool) (f : Frame) : Frame :=
  stageFinish sendTx
    (stageSendTransactions w sendTx
       (stageSendErrors w (stageDrainErrors w f))).

(** One iteration of the [for] loop: [None] when the chosen select case
    cannot fire, [Some None] when the loop returns, and otherwise the
    variables, the iteration's [statsUpdates] and its calls. *)
Definition iteration (w : World) (ev : Event) (l : Loop)
  : option (option Frame) :=
  match select ev l with
  | None => None
  | Some Return => Some None
  | Some (Continue l1 stats tr) => Some (Some (mkFrame l1 stats tr))
  | Some (SendPhase l1 stats sendTx tr) =>
      Some (Some (sendPhase w sendTx (mkFrame l1 stats tr)))
  end.

(** The loop variables at the points of one iteration: after the select
    statement, after the errors drain, after each send and at the end of
    the body. *)
Definition programPoints (w : World) (ev : Event) (l : Loop) : list Loop :=
  match select ev l with
  | Some (Continue l1 _ _) => [l1]
  | Some (SendPhase l1 stats sendTx tr) =>
      let f0 := mkFrame l1 stats tr in
      let f1 := stageDrainErrors w f0 in
      let f2 := stageSendErrors w f1 in
      let f3 := stageSendTransactions w sendTx f2 in
      let f4 := stageFinish sendTx f3 in
      map fr_loop [f0; f1; f2; f3; f4]
  | _ => []
  end.

(** Several iterations in a row, each with its world and select case; the
    calls are concatenated.  Nothing is handled after the loop returned. *)
Fixpoint run (sched : list (World * Event)) (l : Loop)
  : option (Loop * list Effect) :=
  match sched with
  | [] => Some (l, [])
  | (w, ev) :: rest =>
      match iteration w ev l with
      | None => None
      | Some None => Some (l, [])
      | Some (Some f) =>
          match run rest (fr_loop f) with
          | Some (l', tr) => Some (l', fr_trace f ++ tr)
          | None => None
          end
      end
  end.

Definition transactionsChannelCap : Z := 1000.
Definition errorsChannelCap : Z := 1000.

(** Values a select case can really receive: [int]s are in range, and a
    buffered channel holds no more than its capacity. *)
Definition wf_event (ev : Event) : Prop :=
  match ev with
  | RecvFlushInterval n | RecvMaxTransactionQueueSize n
  | RecvMaxErrorQueueSize n | RecvPreContext n | RecvPostContext n =>
      int_ok n
  | RecvForceFlush _ buffered => len buffered <= transactionsChannelCap
  | _ => True
  end.

Definition wf_world (w : World) : Prop :=
  len (w_errors w) <= errorsChannelCap.

(** The states of the loop variables between iterations. *)
Inductive reachable : Loop -> Prop :=
| reachable_init : reachable loop_init
| reachable_step (w : World) (ev : Event) (l : Loop) (f : Frame) :
    reachable l -> wf_world w -> wf_event ev ->
    iteration w ev l = Some (Some f) ->
    reachable (fr_loop f).

(** ** Sample collaborators and records *)

(** [transporttest.ErrorTransport{Error: errors.New("nope")}] *)
Definition ErrorTransport : transport.Transport :=
  transport.mkTransport (fun _ => Some "nope"%string)
    (fun _ => Some "nope"%string).

(** [transporttest.Discard] *)
Definition Discard : transport.Transport :=
  transport.mkTransport (fun _ => None) (fun _ => None).

Definition sampleTx (n : nat) : Transaction := mkTransaction n true.
Definition sampleErr (n : nat) : Error := mkError n None.

(** A world whose Transport always fails, resp. always succeeds, with an
    empty errors channel. *)
Definition failingWorld : World := mkWorld ErrorTransport [].
Definition discardWorld : World := mkWorld Discard [].

(** A context setter that fails on the record with pointer [k]. *)
Definition failingSetter (k : nat) : ContextSetter :=
  mkContextSetter
    (fun tx _ _ => if Nat.eqb (tx_ptr tx) k then Some "no source"%string else None)
    (fun e _ _ => if Nat.eqb (e_ptr e) k then Some "no source"%string else None).

(** ** Classifying effects *)

Definition isTransportCall (ef : Effect) : bool :=
  match ef with
  | TransportSendTransactions _ _ | TransportSendErrors _ _ => true
  | _ => false
  end.

Definition isTimerReset (ef : Effect) : bool :=
  match ef with TimerReset _ => true | _ => false end.

Definition isProcessorCall (ef : Effect) : bool :=
  match ef with
  | CallProcessTransaction _ _ | CallProcessError _ _ => true
  | _ => false
  end.

Definition isSetContextCall (ef : Effect) : bool :=
  match ef with
  | TxSetContext _ _ _ | ErrSetContext _ _ _ => true
  | _ => false
  end.

(** The records a trace returns to the error pool, in order. *)
Definition pooledErrors (tr : list Effect) : list Error :=
  flat_map (fun ef => match ef with ErrorPoolPut e => [e] | _ => [] end) tr.

(** The transactions a trace hands to the Transport, over all calls. *)
Definition sentTransactions (tr : list Effect) : list Transaction :=
  flat_map (fun ef => match ef with
                      | TransportSendTransactions payload _ => payload
                      | _ => []
                      end) tr.

(** The transactions a trace hands to a Transport call that succeeds. *)
Definition deliveredTransactions (tr : list Effect) : list Transaction :=
  flat_map (fun ef => match ef with
                      | TransportSendTransactions payload None => payload
                      | _ => []
                      end) tr.

(** The errors a trace hands to a Transport call that succeeds. *)
Definition deliveredErrors (tr : list Effect) : list Error :=
  flat_map (fun ef => match ef with
                      | TransportSendErrors payload None => payload
                      | _ => []
                      end) tr.

Definition isRecycle (ef : Effect) : bool :=
  match ef with
  | TxReset _ | TransactionPoolPut _ | ErrReset _ | ErrorPoolPut _ => true
  | _ => false
  end.

(** What the sender does to prepare a batch: enrichment, identifiers,
    context, processors, logging. *)
Definition isPreparation (ef : Effect) : bool :=
  match ef with
  | TxSetContext _ _ _ | ErrSetContext _ _ _ | TxSetID _ | TxBuildContext _
  | ErrBuildModel _ | CallProcessTransaction _ _ | CallProcessError _ _
  | Debugf _ _ _ => true
  | _ => false
  end.

(** Induction over processors, through the composite. *)
Fixpoint Processor_nested_ind (P : Processor -> Prop)
    (Huser : forall id, P (UserProcessor id))
    (Hcomp : forall ps, Forall P ps -> P (Processors ps))
    (p : Processor) : P p :=
  match p with
  | UserProcessor id => Huser id
  | Processors ps =>
      Hcomp ps
        ((fix all (l : list Processor) : Forall P l :=
            match l with
            | [] => Forall_nil P
            | q :: r =>
                Forall_cons q (Processor_nested_ind P Huser Hcomp q) (all r)
            end) ps)
  end.

(** The three components of what a send function returns. *)
Definition outcome (r : bool * TracerStats * list Effect) : bool := fst (fst r).
Definition statsAfter (r : bool * TracerStats * list Effect) : TracerStats :=
  snd (fst r).
Definition calls (r : bool * TracerStats * list Effect) : list Effect := snd r.

(** What the drop-oldest append does to an evicted record. *)
Definition isEviction (ef : Effect) : bool :=
  match ef with
  | TxReset _ | TransactionPoolPut _ => true
  | _ => false
  end.

(** A loop configured as [newTracer] leaves it, with the given caps. *)
Definition configuredLoop (maxTx maxErr : Z) : Loop :=
  set_maxErrorQueueSize maxErr (set_maxTransactionQueueSize maxTx loop_init).

(** A world whose Transport fails and whose errors channel holds three
    errors. *)
Definition busyWorld : World :=
  mkWorld ErrorTransport [sampleErr 7; sampleErr 8; sampleErr 9].

(** The completion channels a trace signals, and the intervals it resets
    the timer to. *)
Definition signals (tr : list Effect) : list nat :=
  flat_map (fun ef => match ef with SignalFlushed ch => [ch] | _ => [] end) tr.

Definition timerResets (tr : list Effect) : list Z :=
  flat_map (fun ef => match ef with TimerReset d => [d] | _ => [] end) tr.

(** A send function reports a failure: it returned false on a non-empty
    batch. *)
Definition sendFailed {A : Type} (r : bool * TracerStats * list Effect)
    (batch : list A) : bool :=
  negb (outcome r) && negb (len batch =? 0).

Definition recycleErrors (errs : list Error) : list Effect :=
  flat_map (fun e => [ErrReset e; ErrorPoolPut e]) errs.

Definition recycleTransactions (txs : list Transaction) : list Effect :=
  flat_map (fun tx => [TxReset tx; TransactionPoolPut tx]) txs.

(** The send phase in closed form, from the frame [f0] the select
    statement leaves: the two send results, whether one of them failed, and
    the frame at the end of the loop body. *)
Definition sendPhaseErrors (w : World) (f0 : Frame) : list Error :=
  drainErrors (maxErrorQueueSize (fr_loop f0)) (errors (fr_loop f0))
    (w_errors w).

Definition sendPhaseErrorsResult (w : World) (f0 : Frame)
  : bool * TracerStats * list Effect :=
  sendErrors (loop_sender (fr_loop f0)) (w_Transport w) (fr_statsUpdates f0)
    (sendPhaseErrors w f0).

Definition sendPhaseTransactionsResult (w : World) (f0 : Frame)
  : bool * TracerStats * list Effect :=
  sendTransactions (loop_sender (fr_loop f0)) (w_Transport w)
    (statsAfter (sendPhaseErrorsResult w f0)) (transactions (fr_loop f0)).

Definition sendPhaseFailed (w : World) (b : bool) (f0 : Frame) : bool :=
  sendFailed (sendPhaseErrorsResult w f0) (sendPhaseErrors w f0)
  || (b && sendFailed (sendPhaseTransactionsResult w f0)
            (transactions (fr_loop f0))).

(** What the end of the body does: re-arm the timer after a failure,
    signal the pending Flush after a send of the transactions. *)
Definition sendPhaseEnding (w : World) (b : bool) (f0 : Frame) : list Effect :=
  let l0 := fr_loop f0 in
  if sendPhaseFailed w b f0
  then if flushC l0 then [] else [TimerReset (flushInterval l0)]
  else if b
       then match flushed l0 with
            | Some ch => [SignalFlushed ch]
            | None => []
            end
       else [].

Definition sendPhaseClosedForm (w : World) (b : bool) (f0 : Frame) : Frame :=
  let l0 := fr_loop f0 in
  let queue := sendPhaseErrors w f0 in
  let rE := sendPhaseErrorsResult w f0 in
  let rT := sendPhaseTransactionsResult w f0 in
  let fail := sendPhaseFailed w b f0 in
  let stats := if b then statsAfter rT else statsAfter rE in
  let signal := negb fail && b in
  mkFrame
    (set_flushed (if signal then None else flushed l0)
       (set_forceFlush
          (if signal
           then match flushed l0 with Some _ => true | None => forceFlush l0 end
           else forceFlush l0)
          (set_flushC (if fail then true else flushC l0)
             (set_stats
                (if isZero stats then t_stats l0
                 else accumulate (t_stats l0) stats)
                (set_transactions
                   (if b && outcome rT then [] else transactions l0)
                   (set_errorsC
                      (if outcome rE then true
                       else if len queue =? maxErrorQueueSize l0 then false
                            else errorsC l0)
                      (set_errors (if outcome rE then [] else queue) l0)))))))
    stats
    (fr_trace f0
     ++ calls rE ++ (if outcome rE then recycleErrors queue else [])
     ++ (if b
         then calls rT
              ++ (if outcome rT then recycleTransactions (transactions l0)
                  else [])
         else [])
     ++ sendPhaseEnding w b f0).

(** The calls a send function makes: preparation and Transport calls. *)
Definition isSenderCall (ef : Effect) : bool :=
  isPreparation ef || isTransportCall ef.

(** The force-flush select case is disabled exactly while a completion
    signal is pending. *)
Definition flushGate (l : Loop) : Prop :=
  match flushed l with
  | Some _ => forceFlush l = false
  | None => forceFlush l = true
  end.

(** [Some x] as a one-element list, [None] as the empty list. *)
Definition optionList {A : Type} (o : option A) : list A :=
  match o with Some x => [x] | None => [] end.

(** The bound on the errors queue. *)
Definition capRespected (l : Loop) : Prop :=
  0 < maxErrorQueueSize l -> len (errors l) <= maxErrorQueueSize l.

(** The bound together with the ingress gate: with a positive cap, the
    errors case of the select statement is enabled only below the cap. *)
Definition errorsGate (l : Loop) : Prop :=
  int_ok (maxErrorQueueSize l)
  /\ (0 < maxErrorQueueSize l ->
      len (errors l) <= maxErrorQueueSize l
      /\ (errorsC l = true -> len (errors l) < maxErrorQueueSize l)).

(** A [SetMaxErrorQueueSize(n)] that does not cut into the queue: a
    positive [n] is above the current queue length, or equal to it with
    the errors case already disabled. *)
Definition capKept (ev : Event) (l : Loop) : Prop :=
  match ev with
  | RecvMaxErrorQueueSize n =>
      0 < n ->
      len (errors l) < n \/ (len (errors l) = n /\ errorsC l = false)
  | _ => True
  end.

(** The states between iterations of a loop whose error cap is never set
    into the queue. *)
Inductive reachableKeepingCap : Loop -> Prop :=
| keepingCap_init : reachableKeepingCap loop_init
| keepingCap_step (w : World) (ev : Event) (l : Loop) (f : Frame) :
    reachableKeepingCap l -> wf_world w -> wf_event ev -> capKept ev l ->
    iteration w ev l = Some (Some f) ->
    reachableKeepingCap (fr_loop f).

(** What the error side of the loop consists of. *)
Definition errView (l : Loop) : Z * list Error * bool :=
  (maxErrorQueueSize l, errors l, errorsC l).

(** [newTracer]: after [go t.loop()] the first five values the loop
    receives are the initial configuration. *)
Definition defaultPreContext : Z := 3.
Definition defaultPostContext : Z := 3.
Definition defaultMaxErrorQueueSize : Z := 1000.

Definition newTracer (w : World) (flushInterval maxTransactionQueueSize : Z)
  : list (World * Event) :=
  [(w, RecvFlushInterval flushInterval);
   (w, RecvMaxTransactionQueueSize maxTransactionQueueSize);
   (w, RecvMaxErrorQueueSize defaultMaxErrorQueueSize);
   (w, RecvPreContext defaultPreContext);
   (w, RecvPostContext defaultPostContext)].

(** Ten seconds, as a [time.Duration]. *)
Definition tenSeconds : Z := 10000000000.

(** A new tracer with a failing Transport queues three errors, then the
    cap is lowered to two. *)
Definition loweredCapSchedule : list (World * Event) :=
  newTracer failingWorld tenSeconds 500
  ++ [(failingWorld, RecvError (sampleErr 1));
      (failingWorld, RecvError (sampleErr 2));
      (failingWorld, RecvError (sampleErr 3));
      (failingWorld, RecvMaxErrorQueueSize 2)].

(** Every iteration of a schedule receives well-formed values. *)
Definition wf_schedule (sched : list (World * Event)) : Prop :=
  Forall (fun we => wf_world (fst we) /\ wf_event (snd we)) sched.

(** The records the select statement evicts from the transactions queue
    through [receivedTransaction], for the case that fires. *)
Definition evictedBySelect (ev : Event) (l : Loop) : list Transaction :=
  match ev with
  | RecvTransaction tx =>
      pooledTransactions
        (snd (receivedTransaction (maxTransactionQueueSize l)
                (transactions l) tx zeroStats))
  | RecvForceFlush _ buffered =>
      if forceFlush l
      then pooledTransactions
             (snd (drainTransactions (maxTransactionQueueSize l)
                     (transactions l) zeroStats buffered))
      else []
  | _ => []
  end.

(** The records a trace resets, for errors. *)
Definition resetErrors (tr : list Effect) : list Error :=
  flat_map (fun ef => match ef with ErrReset e => [e] | _ => [] end) tr.

(** A new tracer without a transactions cap queues two transactions, the
    cap is set to one, and a third transaction arrives. *)
Definition evictionSchedule : list (World * Event) :=
  newTracer discardWorld tenSeconds 0
  ++ [(discardWorld, RecvTransaction (sampleTx 1));
      (discardWorld, RecvTransaction (sampleTx 2));
      (discardWorld, RecvMaxTransactionQueueSize 1);
      (discardWorld, RecvTransaction (sampleTx 3))].

(** On a new tracer the error cap is set to zero (unlimited) and a Flush
    is requested with nothing queued. *)
Definition unlimitedCapSchedule : list (World * Event) :=
  newTracer discardWorld tenSeconds 500
  ++ [(discardWorld, RecvMaxErrorQueueSize 0);
      (discardWorld, RecvForceFlush 7 [])].

(** After the cap was lowered into the queue, one more error arrives. *)
Definition pastCapSchedule : list (World * Event) :=
  loweredCapSchedule ++ [(failingWorld, RecvError (sampleErr 4))].

(** The select case that replaces the processor. *)
Definition isRecvProcessor (ev : Event) : bool :=
  match ev with RecvProcessor _ => true | _ => false end.

(** A schedule in which the processor is not replaced. *)
Definition keepsProcessor (sched : list (World * Event)) : bool :=
  forallb (fun we => negb (isRecvProcessor (snd we))) sched.

(** ** What an iteration takes from the channels *)

(** The transactions an iteration receives from the transactions channel:
    the one a transactions case delivers, or those a forced flush finds
    buffered. *)
Definition transactionsTaken (ev : Event) : list Transaction :=
  match ev with
  | RecvTransaction tx => [tx]
  | RecvForceFlush _ buffered => buffered
  | _ => []
  end.

(** The errors an iteration receives from the errors channel: the one an
    errors case delivers, then those the drain of the send phase takes. *)
Definition errorsTaken (w : World) (ev : Event) (l : Loop) : list Error :=
  match select ev l with
  | Some (SendPhase l1 _ _ _) =>
      match ev with RecvError e => [e] | _ => [] end
      ++ firstn
           (Z.to_nat
              (Z.min (len (w_errors w))
                 (int_sub (maxErrorQueueSize l1) (len (errors l1)))))
           (w_errors w)
  | _ => []
  end.

(** The same over the iterations of a schedule, as [run] handles them. *)
Fixpoint transactionsReceived (sched : list (World * Event)) (l : Loop)
  : list Transaction :=
  match sched with
  | [] => []
  | (w, ev) :: rest =>
      match iteration w ev l with
      | Some (Some f) =>
          transactionsTaken ev ++ transactionsReceived rest (fr_loop f)
      | _ => []
      end
  end.

Fixpoint errorsReceived (sched : list (World * Event)) (l : Loop)
  : list Error :=
  match sched with
  | [] => []
  | (w, ev) :: rest =>
      match iteration w ev l with
      | Some (Some f) =>
          errorsTaken w ev l ++ errorsReceived rest (fr_loop f)
      | _ => []
      end
  end.

(** The configuration cases that always [continue]. *)
Definition isSilentConfig (ev : Event) : bool :=
  match ev with
  | RecvFlushInterval _ | RecvMaxErrorQueueSize _ | RecvPreContext _
  | RecvPostContext _ | RecvContextSetter _ | RecvLogger _
  | RecvProcessor _ => true
  | _ => false
  end.

(** The cases that set [flushC = nil] before the send phase. *)
Definition disarmsTimer (ev : Event) : bool :=
  match ev with
  | FlushTimer | RecvForceFlush _ _ => true
  | _ => false
  end.

(** The loop variables as [newTracer] leaves them. *)
Definition newTracerLoop (flushInterval maxTransactionQueueSize : Z) : Loop :=
  mkLoop flushInterval None maxTransactionQueueSize defaultMaxErrorQueueSize
    false [] [] true true
    (mkSender None None None defaultPreContext defaultPostContext) zeroStats.

(** A new tracer receives one transaction. *)
Definition oneTransactionSchedule : list (World * Event) :=
  newTracer discardWorld tenSeconds 500
  ++ [(discardWorld, RecvTransaction (sampleTx 1))].

(** ** Options and NewTracer *)

(** A [Sampler], by identity. *)
Definition Sampler : Type := nat.

(** [type options struct] *)
Record options : Type := mkOptions {
  opt_flushInterval : Z;
  opt_maxTransactionQueueSize : Z;
  opt_maxSpans : Z;
  opt_sampler : option Sampler
}.

(** A [*model.Service], by its name and version. *)
Record Service : Type := mkService {
  service_Name : string;
  service_Version : string
}.

(** What tracer.go uses of the rest of the package (declared outside
    tracer.go): the answers of the configuration readers, each a value and
    an error, the default constants, the service of the environment and
    [newService]. *)
Record Package : Type := mkPackage {
  initialFlushInterval : Z * option error;
  initialMaxTransactionQueueSize : Z * option error;
  initialMaxSpans : Z * option error;
  initialSampler : option Sampler * option error;
  defaultFlushInterval : Z;
  defaultMaxTransactionQueueSize : Z;
  defaultMaxSpans : Z;
  envService : Service;
  envServiceName : string;
  newService : string -> string -> Service
}.

(** [options.init(continueOnError)]: the error returned, [*opts]
    afterwards and the lines logged. *)
Definition options_init (p : Package) (continueOnError : bool)
    (opts : options) : option error * options * list string :=
  let errs : list error := [] in
  let '(flushInterval, errs) :=
    match initialFlushInterval p with
    | (_, Some err) => (defaultFlushInterval p, errs ++ [err])
    | (v, None) => (v, errs)
    end in
  let '(maxTransactionQueueSize, errs) :=
    match initialMaxTransactionQueueSize p with
    | (_, Some err) => (defaultMaxTransactionQueueSize p, errs ++ [err])
    | (v, None) => (v, errs)
    end in
  let '(maxSpans, errs) :=
    match initialMaxSpans p with
    | (_, Some err) => (defaultMaxSpans p, errs ++ [err])
    | (v, None) => (v, errs)
    end in
  let '(sampler, errs) :=
    match initialSampler p with
    | (_, Some err) => (None, errs ++ [err])
    | (v, None) => (v, errs)
    end in
  if negb (len errs =? 0) && negb continueOnError
  then (Some (hd ""%string errs), opts, [])
  else (None,
        mkOptions flushInterval maxTransactionQueueSize maxSpans sampler,
        map (fun err => ("[elasticapm]: " ++ err)%string) errs).

(** A [*Tracer] as [newTracer] builds it: its service pointer, the fields
    read by producers, and the values its loop receives first. *)
Record TracerHandle : Type := mkTracerHandle {
  tracer_Service : option Service;
  tracer_maxSpans : Z;
  tracer_sampler : option Sampler;
  tracer_setup : list Event
}.

(** [newTracer(service, opts)] *)
Definition newTracerHandle (service : option Service) (opts : options)
  : TracerHandle :=
  mkTracerHandle service (opt_maxSpans opts) (opt_sampler opts)
    [RecvFlushInterval (opt_flushInterval opts);
     RecvMaxTransactionQueueSize (opt_maxTransactionQueueSize opts);
     RecvMaxErrorQueueSize defaultMaxErrorQueueSize;
     RecvPreContext defaultPreContext;
     RecvPostContext defaultPostContext].

(** [NewTracer(serviceName, serviceVersion)]: the tracer or the error.
    [service] starts as [&envService], the address of a package
    variable. *)
Definition NewTracer (p : Package) (serviceName serviceVersion : string)
  : TracerHandle + error :=
  let service : option Service := Some (envService p) in
  let chosen : option Service + error :=
    if negb (String.eqb serviceName "")
    then inl (Some (newService p serviceName serviceVersion))
    else match service with
         | None =>
             inr ("no service name specified, and " ++ envServiceName p
                  ++ " not specified")%string
         | Some _ => inl service
         end in
  match chosen with
  | inr err => inr err
  | inl service =>
      let '(err, opts, _) := options_init p false (mkOptions 0 0 0 None) in
      match err with
      | Some err => inr err
      | None => inl (newTracerHandle service opts)
      end
  end.

(** The package's [init()]: [DefaultTracer]. *)
Definition DefaultTracer (p : Package) : TracerHandle :=
  let '(_, opts, _) := options_init p true (mkOptions 0 0 0 None) in
  newTracerHandle (Some (envService p)) opts.

(** The errors of the configuration readers, in the order [init] calls
    them. *)
Definition readerErrors (p : Package) : list error :=
  optionList (snd (initialFlushInterval p))
  ++ optionList (snd (initialMaxTransactionQueueSize p))
  ++ optionList (snd (initialMaxSpans p))
  ++ optionList (snd (initialSampler p)).

(** The options [init] stores when it returns nil: the reader's value, or
    the default where the reader failed. *)
Definition resolvedOptions (p : Package) : options :=
  mkOptions
    (match initialFlushInterval p with
     | (_, Some _) => defaultFlushInterval p
     | (v, None) => v
     end)
    (match initialMaxTransactionQueueSize p with
     | (_, Some _) => defaultMaxTransactionQueueSize p
     | (v, None) => v
     end)
    (match initialMaxSpans p with
     | (_, Some _) => defaultMaxSpans p
     | (v, None) => v
     end)
    (match initialSampler p with
     | (_, Some _) => None
     | (v, None) => v
     end).

(** ** contrib/apmsql: statements (stmt.go) *)

Module apmsql.

(** [driver.Value], [driver.Result], [driver.Rows], [*trace.Span] and
    [*model.SpanContext], by identity. *)
Definition Value : Type := nat.
Definition Result : Type := nat.
Definition Rows : Type := nat.
Definition Span : Type := nat.
Definition SpanContext : Type := nat.

(** [driver.NamedValue] *)
Record NamedValue : Type := mkNamedValue {
  nv_Name : string;
  nv_Ordinal : Z;
  nv_Value : Value
}.

(** A [context.Context] as a statement sees it: [ctx.Err()], which is
    non-nil exactly when [ctx.Done()] is closed. *)
Record Context : Type := mkContext {
  ctx_id : nat;
  ctx_Err : option error
}.

(** [driver.ValueConverter] *)
Inductive ValueConverter : Type :=
| DefaultParameterConverter
| DriverConverter (id : nat).

(** [driver.ErrSkip] *)
Definition ErrSkip : error :=
  "driver: skip fast-path; continue as if unimplemented"%string.

(** The wrapped [driver.Stmt]: [Exec] and [Query], and the optional
    interfaces it may implement ([None]: the type assertion fails). *)
Record DriverStmt : Type := mkDriverStmt {
  ds_Exec : list Value -> option Result * option error;
  ds_Query : list Value -> option Rows * option error;
  ds_ColumnConverter : option (Z -> ValueConverter);
  ds_CheckNamedValue : option (NamedValue -> option error);
  ds_ExecContext :
    option (Context -> list NamedValue -> option Result * option error);
  ds_QueryContext :
    option (Context -> list NamedValue -> option Rows * option error)
}.

(** What stmt.go uses of [conn] and its driver (declared outside
    stmt.go). *)
Record conn : Type := mkConn {
  querySignature : string -> string;
  conn_spanContext : string -> SpanContext;
  spanType : string -> string
}.

(** What stmt.go uses of the rest of the program: [trace.StartSpan], which
    returns a span (nil outside a transaction) and a context, and
    [namedValueToValue] (both declared outside stmt.go). *)
Record Outside : Type := mkOutside {
  StartSpan : Context -> string -> string -> option Span * Context;
  namedValueToValue : list NamedValue -> list Value * option error
}.

(** [type stmt struct] *)
Record stmt : Type := mkStmt {
  Stmt : DriverStmt;
  stmt_conn : conn;
  signature : string;
  spanContext : SpanContext;
  columnConverter : option (Z -> ValueConverter);
  namedValueChecker : option (NamedValue -> option error);
  stmtExecContext :
    option (Context -> list NamedValue -> option Result * option error);
  stmtQueryContext :
    option (Context -> list NamedValue -> option Rows * option error)
}.

(** [newStmt(in, conn, query)] *)
Definition newStmt (i : DriverStmt) (c : conn) (query : string) : stmt :=
  mkStmt i c (querySignature c query) (conn_spanContext c query)
    (ds_ColumnConverter i) (ds_CheckNamedValue i) (ds_ExecContext i)
    (ds_QueryContext i).

(** The calls a statement makes, in order. *)
Inductive Call : Type :=
| CallStartSpan (ctx : Context) (name type : string)
| CallExecContext (ctx : Context) (args : list NamedValue)
| CallQueryContext (ctx : Context) (args : list NamedValue)
| CallNamedValueToValue (args : list NamedValue)
| CallExec (dargs : list Value)
| CallQuery (dargs : list Value)
  (* s.finishSpan(ctx, span, resultError): span.Context = s.spanContext;
     s.conn.finishSpan(ctx, span, "", resultError) *)
| CallFinishSpan (ctx : Context) (span : Span) (sc : SpanContext)
    (resultError : option error).

(** [stmt.ColumnConverter(idx)] *)
Definition ColumnConverter (s : stmt) (idx : Z) : ValueConverter :=
  match columnConverter s with
  | Some cc => cc idx
  | None => DefaultParameterConverter
  end.

(** [stmt.CheckNamedValue(nv)] *)
Definition CheckNamedValue (s : stmt) (nv : NamedValue) : option error :=
  match namedValueChecker s with
  | Some check => check nv
  | None => Some ErrSkip
  end.

(** The deferred call of [ExecContext] and [QueryContext]:
    [if span != nil { defer s.finishSpan(ctx, span, resultError) }].  The
    arguments of a deferred call are evaluated when the [defer] statement
    runs; the named result [resultError] is still nil then. *)
Definition deferFinishSpan (s : stmt) (ctx : Context) (span : option Span)
  : list Call :=
  match span with
  | Some sp => [CallFinishSpan ctx sp (spanContext s) None]
  | None => []
  end.

(** [stmt.ExecContext(ctx, args)]: the results and the calls made, the
    deferred call last. *)
Definition ExecContext (o : Outside) (s : stmt) (ctx : Context)
    (args : list NamedValue)
  : (option Result * option error) * list Call :=
  let start :=
    [CallStartSpan ctx (signature s) (spanType (stmt_conn s) "exec")] in
  let '(span, ctx) :=
    StartSpan o ctx (signature s) (spanType (stmt_conn s) "exec") in
  let deferred := deferFinishSpan s ctx span in
  match stmtExecContext s with
  | Some execContext =>
      (execContext ctx args, start ++ [CallExecContext ctx args] ++ deferred)
  | None =>
      match namedValueToValue o args with
      | (_, Some err) =>
          ((None, Some err), start ++ [CallNamedValueToValue args] ++ deferred)
      | (dargs, None) =>
          match ctx_Err ctx with
          | Some err =>
              ((None, Some err),
               start ++ [CallNamedValueToValue args] ++ deferred)
          | None =>
              (ds_Exec (Stmt s) dargs,
               start ++ [CallNamedValueToValue args; CallExec dargs]
               ++ deferred)
          end
      end
  end.

(** [stmt.QueryContext(ctx, args)] *)
Definition QueryContext (o : Outside) (s : stmt) (ctx : Context)
    (args : list NamedValue)
  : (option Rows * option error) * list Call :=
  let start :=
    [CallStartSpan ctx (signature s) (spanType (stmt_conn s) "query")] in
  let '(span, ctx) :=
    StartSpan o ctx (signature s) (spanType (stmt_conn s) "query") in
  let deferred := deferFinishSpan s ctx span in
  match stmtQueryContext s with
  | Some queryContext =>
      (queryContext ctx args, start ++ [CallQueryContext ctx args] ++ deferred)
  | None =>
      match namedValueToValue o args with
      | (_, Some err) =>
          ((None, Some err), start ++ [CallNamedValueToValue args] ++ deferred)
      | (dargs, None) =>
          match ctx_Err ctx with
          | Some err =>
              ((None, Some err),
               start ++ [CallNamedValueToValue args] ++ deferred)
          | None =>
              (ds_Query (Stmt s) dargs,
               start ++ [CallNamedValueToValue args; CallQuery dargs]
               ++ deferred)
          end
      end
  end.

(** The spans a list of calls finishes, with the error reported. *)
Definition finished (cs : list Call) : list (Span * option error) :=
  flat_map (fun c => match c with
                     | CallFinishSpan _ sp _ err => [(sp, err)]
                     | _ => []
                     end) cs.

(** The calls into the wrapped statement. *)
Definition isDriverCall (c : Call) : bool :=
  match c with
  | CallExecContext _ _ | CallQueryContext _ _ | CallExec _ | CallQuery _ =>
      true
  | _ => false
  end.

(** A wrapped statement without optional interfaces whose [Exec] and
    [Query] fail. *)
Definition failingStmt : DriverStmt :=
  mkDriverStmt (fun _ => (None, Some "exec failed"%string))
    (fun _ => (None, Some "query failed"%string)) None None None None.

Definition sampleConn : conn :=
  mkConn (fun q => q) (fun _ => 9%nat) (fun t => ("db.sql." ++ t)%string).

(** Inside a transaction [StartSpan] returns a span and a derived context;
    positional arguments convert. *)
Definition sampleOutside : Outside :=
  mkOutside
    (fun ctx _ _ => (Some 1%nat, mkContext (S (ctx_id ctx)) (ctx_Err ctx)))
    (fun args => (map nv_Value args, None)).

End apmsql.

(** ** A run of arrivals *)

(** The loop variables of a tracer that [newTracer] configured and that
    has received nothing but transactions since: the queue, the timer and
    the statistics vary. *)
Definition arrivalsLoop (flushInterval maxTransactionQueueSize : Z)
    (flushC : bool) (transactions : list Transaction) (stats : TracerStats)
  : Loop :=
  mkLoop flushInterval None maxTransactionQueueSize defaultMaxErrorQueueSize
    flushC transactions [] true true
    (mkSender None None None defaultPreContext defaultPostContext) stats.

(** The transactions of [txs] arrive one after the other. *)
Definition arrivals (w : World) (txs : list Transaction)
  : list (World * Event) :=
  map (fun tx => (w, RecvTransaction tx)) txs.

(** The statistics after one failed send of the transactions and [k]
    evictions. *)
Definition oneFailureStats (k : Z) : TracerStats :=
  mkTracerStats (mkTracerStatsErrors 0 1 0) 0 0 0 (uint64 k).

(** ** The drop-oldest append in closed form *)

(** The number of records the drop-oldest append evicts while [buffered]
    is appended to [queue] record by record under the cap [max]: with a
    positive cap and something to append, what the queue and the arrivals
    hold beyond the cap. *)
Definition drainEvictions (max : Z) (queue buffered : list Transaction) : Z :=
  if (0 <? max) && negb (len buffered =? 0)
  then Z.max 0 (len queue + len buffered - max)
  else 0.

(** The number of records the select statement evicts for the case that
    fires: only a transaction arrival and a forced flush append. *)
Definition evictions (ev : Event) (l : Loop) : Z :=
  match ev with
  | RecvForceFlush _ _ =>
      if forceFlush l
      then drainEvictions (maxTransactionQueueSize l) (transactions l)
             (transactionsTaken ev)
      else 0
  | _ =>
      drainEvictions (maxTransactionQueueSize l) (transactions l)
        (transactionsTaken ev)
  end.

(** ** Executions that respect the error cap's design *)

(** A [SetMaxErrorQueueSize(n)] that does not set the cap below the
    queue: a positive [n] is at least the current queue length. *)
Definition capNotLowered (ev : Event) (l : Loop) : Prop :=
  match ev with
  | RecvMaxErrorQueueSize n => 0 < n -> len (errors l) <= n
  | _ => True
  end.

(** An error that the errors case of the select statement receives while
    the queue is shorter than a positive cap. *)
Definition receivedBelowCap (ev : Event) (l : Loop) : Prop :=
  match ev with
  | RecvError _ =>
      0 < maxErrorQueueSize l -> len (errors l) < maxErrorQueueSize l
  | _ => True
  end.

(** The states between iterations of a loop whose error cap is never set
    below the queue length and whose errors case never receives at a full
    queue. *)
Inductive reachableBelowCap : Loop -> Prop :=
| belowCap_init : reachableBelowCap loop_init
| belowCap_step (w : World) (ev : Event) (l : Loop) (f : Frame) :
    reachableBelowCap l -> wf_world w -> wf_event ev ->
    capNotLowered ev l -> receivedBelowCap ev l ->
    iteration w ev l = Some (Some f) ->
    reachableBelowCap (fr_loop f).

(** ** The processor calls of a run *)

(** [if s.processor != nil { s.processor.ProcessTransaction(tx) }] *)
Definition processTransactionWith (p : option Processor) (tx : Transaction)
  : list Effect :=
  match p with Some q => ProcessTransaction q tx | None => [] end.

(** [if s.processor != nil { s.processor.ProcessError(e) }] *)
Definition processErrorWith (p : option Processor) (e : Error)
  : list Effect :=
  match p with Some q => ProcessError q e | None => [] end.

(** The calls [onTx] and [onErr] make when they are applied, batch by
    batch in the order of the Transport calls of a trace, to every record
    of the batch in order. *)
Definition processedBatches (onTx : Transaction -> list Effect)
    (onErr : Error -> list Effect) (tr : list Effect) : list Effect :=
  flat_map (fun ef => match ef with
                      | TransportSendTransactions payload _ =>
                          flat_map onTx payload
                      | TransportSendErrors payload _ =>
                          flat_map onErr payload
                      | _ => []
                      end) tr.

(** A new tracer receives processors one and two, then an error, then a
    Flush request that finds two transactions buffered. *)
Definition processorsSchedule : list (World * Event) :=
  [(discardWorld,
    RecvProcessor (SetProcessor (map UserProcessor [1; 2]%nat)));
   (discardWorld, RecvError (sampleErr 1));
   (discardWorld, RecvForceFlush 7 [sampleTx 1; sampleTx 2])].

(** ** Basic facts *)

Lemma len_nonneg {A : Type} (l : list A) : 0 <= len l.
Proof. unfold len. lia. Qed.

Lemma len_app {A : Type} (l1 l2 : list A) : len (l1 ++ l2) = len l1 + len l2.
Proof. unfold len. rewrite length_app. lia. Qed.

Lemma len_nil_iff {A : Type} (l : list A) : len l = 0 <-> l = [].
Proof.
  unfold len. destruct l; simpl; split; intro H;
    try reflexivity; try discriminate; lia.
Qed.

Lemma uint64_small (z : Z) : 0 <= z < uint64_mod -> uint64 z = z.
Proof. intro H. unfold uint64. apply Z.mod_small. exact H. Qed.

Lemma int_max_lt_uint64_mod : int_max < uint64_mod.
Proof. unfold int_max, uint64_mod. lia. Qed.

Lemma int_wrap_small (z : Z) : int_min <= z <= int_max -> int_wrap z = z.
Proof.
  intro H. unfold int_wrap. unfold int_min, int_max, uint64_mod in *.
  rewrite Z.mod_small by lia. lia.
Qed.

(** ** Drop-oldest append *)

Lemma resetTransactions_evicted (l : list Transaction) :
  resetTransactions (flat_map (fun t => [TxReset t; TransactionPoolPut t]) l) = l.
Proof.
  unfold resetTransactions. induction l as [|a l IH]; simpl; [reflexivity|].
  f_equal. exact IH.
Qed.

Lemma pooledTransactions_evicted (l : list Transaction) :
  pooledTransactions (flat_map (fun t => [TxReset t; TransactionPoolPut t]) l) = l.
Proof.
  unfold pooledTransactions. induction l as [|a l IH]; simpl; [reflexivity|].
  f_equal. exact IH.
Qed.

(** C1. With a positive [maxTransactionQueueSize], the queue holds at most
    that many transactions right after [receivedTransaction] appended one.
    When it already held at least that many, exactly
    [len(transactions) - maxTransactionQueueSize + 1] oldest transactions
    are reset and returned to the pool, [TransactionsDropped] grows by that
    count (a [uint64] addition, exact when it does not wrap), the others
    stay in their order and the new transaction is the last one. *)
Theorem receivedTransaction_drop_oldest
    (max : Z) (queue : list Transaction) (tx : Transaction)
    (stats : TracerStats) :
  0 < max -> len queue <= int_max ->
  let r := receivedTransaction max queue tx stats in
  let queue' := fst (fst r) in
  let stats' := snd (fst r) in
  let tr := snd r in
  len queue' <= max
  /\ (max <= len queue ->
      let n := len queue - max + 1 in
      let evicted := firstn (Z.to_nat n) queue in
      len evicted = n
      /\ resetTransactions tr = evicted
      /\ pooledTransactions tr = evicted
      /\ tr = flat_map (fun t => [TxReset t; TransactionPoolPut t]) evicted
      /\ TransactionsDropped stats' = uint64 (TransactionsDropped stats + n)
      /\ (0 <= TransactionsDropped stats ->
          TransactionsDropped stats + n < uint64_mod ->
          TransactionsDropped stats' = TransactionsDropped stats + n)
      /\ TransactionsSent stats' = TransactionsSent stats
      /\ ErrorsSent stats' = ErrorsSent stats
      /\ ErrorsDropped stats' = ErrorsDropped stats
      /\ Errors stats' = Errors stats
      /\ queue' = skipn (Z.to_nat n) queue ++ [tx]
      /\ len queue' = max)
  /\ (len queue < max ->
      queue' = queue ++ [tx] /\ stats' = stats /\ tr = []).
Proof.
  intros Hmax Hlen r queue' stats' tr.
  subst r queue' stats' tr. unfold receivedTransaction.
  pose proof (len_nonneg queue) as Hq.
  pose proof int_max_lt_uint64_mod as Hm.
  destruct (0 <? max) eqn:E1; [|apply Z.ltb_ge in E1; lia].
  destruct (max <=? len queue) eqn:E2; simpl.
  - apply Z.leb_le in E2.
    assert (Hn : uint64 (len queue - max + 1) = len queue - max + 1)
      by (apply uint64_small; lia).
    rewrite Hn.
    set (n := len queue - max + 1).
    assert (Hlenf : len (firstn (Z.to_nat n) queue) = n).
    { unfold len. rewrite length_firstn. unfold len in *. subst n. lia. }
    assert (Hlens : len (skipn (Z.to_nat n) queue ++ [tx]) = max).
    { rewrite len_app. unfold len. rewrite length_skipn. simpl.
      unfold len in *. subst n. lia. }
    split; [lia|]. split; [|intro; lia].
    intros _. cbv zeta.
    repeat split; try assumption; try reflexivity.
    + apply resetTransactions_evicted.
    + apply pooledTransactions_evicted.
    + intros H0 H1. unfold uint64_add. apply uint64_small. lia.
  - apply Z.leb_gt in E2. rewrite len_app. unfold len at 2. simpl.
    split; [lia|]. split; [intro; lia|]. intros _. repeat split.
Qed.

(** The statement at a queue of three with a cap of two: two records are
    evicted. *)
Lemma receivedTransaction_drop_oldest_witness :
  0 < 2
  /\ len [sampleTx 1; sampleTx 2; sampleTx 3] <= int_max
  /\ len (fst (fst (receivedTransaction 2
                      [sampleTx 1; sampleTx 2; sampleTx 3] (sampleTx 4)
                      zeroStats))) <= 2.
Proof.
  assert (H1 : 0 < 2) by lia.
  assert (H2 : len [sampleTx 1; sampleTx 2; sampleTx 3] <= int_max)
    by (vm_compute; discriminate).
  split; [exact H1|]. split; [exact H2|].
  exact (proj1 (receivedTransaction_drop_oldest 2
                  [sampleTx 1; sampleTx 2; sampleTx 3] (sampleTx 4) zeroStats
                  H1 H2)).
Defined.

(** ** The sender's calls *)

Lemma filter_none {A : Type} (f : A -> bool) (l : list A) :
  Forall (fun x => f x = false) l -> filter f l = [].
Proof.
  induction 1 as [|x l Hx _ IH]; simpl; [reflexivity|]. rewrite Hx. exact IH.
Qed.

Lemma Forall_flat_map {A B : Type} (P : B -> Prop) (f : A -> list B)
    (l : list A) :
  (forall x, In x l -> Forall P (f x)) -> Forall P (flat_map f l).
Proof.
  induction l as [|a l IH]; simpl; intro H; [constructor|].
  apply Forall_app. split; [apply H; left; reflexivity|].
  apply IH. intros x Hx. apply H. right. exact Hx.
Qed.

Lemma preparation_not_transport (ef : Effect) :
  isPreparation ef = true -> isTransportCall ef = false.
Proof. destruct ef; simpl; congruence. Qed.

Lemma preparation_not_recycle (ef : Effect) :
  isPreparation ef = true -> isRecycle ef = false.
Proof. destruct ef; simpl; congruence. Qed.

Lemma logDebugf_preparation (l : option Logger) (fmt : string) (err : error) :
  Forall (fun ef => isPreparation ef = true) (logDebugf l fmt err).
Proof. destruct l; simpl; repeat constructor. Qed.

Lemma setContextLoop_preparation {A : Type} (set : A -> option error)
    (call : A -> Effect) (records : list A) :
  (forall r, isPreparation (call r) = true) ->
  Forall (fun ef => isPreparation ef = true)
    (snd (setContextLoop set call records)).
Proof.
  intro Hc. induction records as [|r rest IH]; simpl; [constructor|].
  destruct (set r); simpl; [repeat constructor; apply Hc|].
  destruct (setContextLoop set call rest) as [err calls]. simpl in *.
  constructor; [apply Hc | exact IH].
Qed.

Lemma ProcessTransaction_preparation (p : Processor) (tx : Transaction) :
  Forall (fun ef => isPreparation ef = true) (ProcessTransaction p tx).
Proof.
  induction p as [id|ps IH] using Processor_nested_ind; simpl.
  - repeat constructor.
  - apply Forall_flat_map. intros q Hq.
    rewrite Forall_forall in IH. apply IH. exact Hq.
Qed.

Lemma ProcessError_preparation (p : Processor) (e : Error) :
  Forall (fun ef => isPreparation ef = true) (ProcessError p e).
Proof.
  induction p as [id|ps IH] using Processor_nested_ind; simpl.
  - repeat constructor.
  - apply Forall_flat_map. intros q Hq.
    rewrite Forall_forall in IH. apply IH. exact Hq.
Qed.

Lemma enrichTransactions_preparation (s : sender) (stats : TracerStats)
    (txs : list Transaction) :
  Forall (fun ef => isPreparation ef = true)
    (snd (enrichTransactions s stats txs)).
Proof.
  unfold enrichTransactions. destruct (contextSetter s) as [setter|];
    [|constructor].
  match goal with
  | |- context [setContextLoop ?f ?c ?l] =>
      pose proof (setContextLoop_preparation f c l (fun _ => eq_refl)) as H;
      destruct (setContextLoop f c l) as [[err|] calls]
  end; simpl in *; [|exact H].
  apply Forall_app. split; [exact H | apply logDebugf_preparation].
Qed.

Lemma enrichErrors_preparation (s : sender) (stats : TracerStats)
    (errs : list Error) :
  Forall (fun ef => isPreparation ef = true)
    (snd (enrichErrors s stats errs)).
Proof.
  unfold enrichErrors. destruct (contextSetter s) as [setter|];
    [|constructor].
  match goal with
  | |- context [setContextLoop ?f ?c ?l] =>
      pose proof (setContextLoop_preparation f c l (fun _ => eq_refl)) as H;
      destruct (setContextLoop f c l) as [[err|] calls]
  end; simpl in *; [|exact H].
  apply Forall_app. split; [exact H | apply logDebugf_preparation].
Qed.

Lemma prepareTransaction_preparation (s : sender) (tx : Transaction) :
  Forall (fun ef => isPreparation ef = true) (prepareTransaction s tx).
Proof.
  unfold prepareTransaction. repeat (apply Forall_app; split).
  - repeat constructor.
  - destruct (tx_Sampled tx); repeat constructor.
  - destruct (processor s); [apply ProcessTransaction_preparation|constructor].
Qed.

Lemma prepareError_preparation (s : sender) (e : Error) :
  Forall (fun ef => isPreparation ef = true) (prepareError s e).
Proof.
  unfold prepareError. repeat (apply Forall_app; split).
  - destruct (e_Transaction e); repeat constructor.
  - repeat constructor.
  - destruct (processor s); [apply ProcessError_preparation|constructor].
Qed.

(** The stats fields the enrichment leaves alone. *)
Lemma enrichTransactions_stats (s : sender) (stats : TracerStats)
    (txs : list Transaction) :
  let stats1 := fst (enrichTransactions s stats txs) in
  TransactionsSent stats1 = TransactionsSent stats
  /\ ErrorsSent stats1 = ErrorsSent stats
  /\ TransactionsDropped stats1 = TransactionsDropped stats
  /\ ErrorsDropped stats1 = ErrorsDropped stats
  /\ SendTransactions (Errors stats1) = SendTransactions (Errors stats)
  /\ SendErrors (Errors stats1) = SendErrors (Errors stats).
Proof.
  unfold enrichTransactions. destruct (contextSetter s); simpl; [|tauto].
  match goal with
  | |- context [setContextLoop ?f ?c ?l] =>
      destruct (setContextLoop f c l) as [[err|] calls]
  end; simpl; tauto.
Qed.

Lemma enrichErrors_stats (s : sender) (stats : TracerStats)
    (errs : list Error) :
  let stats1 := fst (enrichErrors s stats errs) in
  TransactionsSent stats1 = TransactionsSent stats
  /\ ErrorsSent stats1 = ErrorsSent stats
  /\ TransactionsDropped stats1 = TransactionsDropped stats
  /\ ErrorsDropped stats1 = ErrorsDropped stats
  /\ SendTransactions (Errors stats1) = SendTransactions (Errors stats)
  /\ SendErrors (Errors stats1) = SendErrors (Errors stats).
Proof.
  unfold enrichErrors. destruct (contextSetter s); simpl; [|tauto].
  match goal with
  | |- context [setContextLoop ?f ?c ?l] =>
      destruct (setContextLoop f c l) as [[err|] calls]
  end; simpl; tauto.
Qed.

Lemma uint64_add_uint64_r (a b : Z) : uint64_add a (uint64 b) = uint64 (a + b).
Proof. unfold uint64_add, uint64. apply Zplus_mod_idemp_r. Qed.

Lemma len_zero_false {A : Type} (l : list A) : l <> [] -> (len l =? 0) = false.
Proof.
  intro H. apply Z.eqb_neq. intro E. apply H. apply len_nil_iff. exact E.
Qed.

Lemma filter_transport_preparation (l : list Effect) :
  Forall (fun ef => isPreparation ef = true) l -> filter isTransportCall l = [].
Proof.
  intro H. apply filter_none. eapply Forall_impl; [|exact H].
  intros ef. apply preparation_not_transport.
Qed.

Lemma filter_recycle_preparation (l : list Effect) :
  Forall (fun ef => isPreparation ef = true) l -> filter isRecycle l = [].
Proof.
  intro H. apply filter_none. eapply Forall_impl; [|exact H].
  intros ef. apply preparation_not_recycle.
Qed.

Lemma prepareTransactions_preparation (s : sender) (txs : list Transaction) :
  Forall (fun ef => isPreparation ef = true)
    (flat_map (prepareTransaction s) txs).
Proof.
  apply Forall_flat_map. intros. apply prepareTransaction_preparation.
Qed.

Lemma prepareErrors_preparation (s : sender) (errs : list Error) :
  Forall (fun ef => isPreparation ef = true) (flat_map (prepareError s) errs).
Proof.
  apply Forall_flat_map. intros. apply prepareError_preparation.
Qed.

(** The shape of a send of a non-empty batch: preparation, then one
    Transport call with the whole batch, then at most a debug log. *)
Lemma sendTransactions_shape (s : sender) (tr : transport.Transport)
    (stats : TracerStats) (txs : list Transaction) :
  txs <> [] ->
  exists pre,
    Forall (fun ef => isPreparation ef = true) pre
    /\ pre = snd (enrichTransactions s stats txs)
             ++ flat_map (prepareTransaction s) txs
    /\ sendTransactions s tr stats txs =
       match transport.SendTransactions tr txs with
       | Some err =>
           (false, incr_SendTransactions (fst (enrichTransactions s stats txs)),
            pre ++ TransportSendTransactions txs (Some err)
              :: logDebugf (logger s) "sending transactions failed: %s" err)
       | None =>
           (true,
            add_TransactionsSent (uint64 (len txs))
              (fst (enrichTransactions s stats txs)),
            pre ++ [TransportSendTransactions txs None])
       end.
Proof.
  intro Hne. eexists. split; [|split; [reflexivity|]].
  - apply Forall_app. split;
      [apply enrichTransactions_preparation|apply prepareTransactions_preparation].
  - unfold sendTransactions. rewrite (len_zero_false txs Hne).
    destruct (enrichTransactions s stats txs) as [stats1 enrich]. simpl.
    destruct (transport.SendTransactions tr txs); simpl;
      rewrite <- ?app_assoc; reflexivity.
Qed.

Lemma sendErrors_shape (s : sender) (tr : transport.Transport)
    (stats : TracerStats) (errs : list Error) :
  errs <> [] ->
  exists pre,
    Forall (fun ef => isPreparation ef = true) pre
    /\ pre = snd (enrichErrors s stats errs) ++ flat_map (prepareError s) errs
    /\ sendErrors s tr stats errs =
       match transport.SendErrors tr errs with
       | Some err =>
           (false, incr_SendErrors (fst (enrichErrors s stats errs)),
            pre ++ TransportSendErrors errs (Some err)
              :: logDebugf (logger s) "sending errors failed: %s" err)
       | None =>
           (true,
            add_ErrorsSent (uint64 (len errs)) (fst (enrichErrors s stats errs)),
            pre ++ [TransportSendErrors errs None])
       end.
Proof.
  intro Hne. eexists. split; [|split; [reflexivity|]].
  - apply Forall_app. split;
      [apply enrichErrors_preparation|apply prepareErrors_preparation].
  - unfold sendErrors. rewrite (len_zero_false errs Hne).
    destruct (enrichErrors s stats errs) as [stats1 enrich]. simpl.
    destruct (transport.SendErrors tr errs); simpl;
      rewrite <- ?app_assoc; reflexivity.
Qed.

Lemma filter_transport_log (l : option Logger) (fmt : string) (err : error) :
  filter isTransportCall (logDebugf l fmt err) = [].
Proof. destruct l; reflexivity. Qed.

Lemma filter_recycle_log (l : option Logger) (fmt : string) (err : error) :
  filter isRecycle (logDebugf l fmt err) = [].
Proof. destruct l; reflexivity. Qed.

(** C5. For a non-empty batch [sendTransactions] (resp. [sendErrors])
    makes exactly one Transport call, with the whole batch, and returns
    true exactly when that call returns nil.  On success [TransactionsSent]
    (resp. [ErrorsSent]) grows by the batch length (a [uint64] addition)
    and the failure counter is unchanged; on failure
    [Errors.SendTransactions] (resp. [Errors.SendErrors]) grows by one, the
    sent counters are unchanged, only the debug log follows the call, and
    no record is reset or pooled.  An empty batch returns false with no
    call at all and unchanged stats. *)
Theorem sender_send_outcome (s : sender) (tr : transport.Transport)
    (stats : TracerStats) :
  (forall txs : list Transaction, txs <> [] ->
     let r := sendTransactions s tr stats txs in
     (outcome r = true <-> transport.SendTransactions tr txs = None)
     /\ filter isTransportCall (calls r)
        = [TransportSendTransactions txs (transport.SendTransactions tr txs)]
     /\ filter isRecycle (calls r) = []
     /\ ErrorsSent (statsAfter r) = ErrorsSent stats
     /\ SendErrors (Errors (statsAfter r)) = SendErrors (Errors stats)
     /\ (outcome r = true ->
         TransactionsSent (statsAfter r)
         = uint64 (TransactionsSent stats + len txs)
         /\ SendTransactions (Errors (statsAfter r))
            = SendTransactions (Errors stats))
     /\ (outcome r = false ->
         SendTransactions (Errors (statsAfter r))
         = uint64 (SendTransactions (Errors stats) + 1)
         /\ TransactionsSent (statsAfter r) = TransactionsSent stats
         /\ exists pre err,
              calls r = pre ++ TransportSendTransactions txs (Some err)
                          :: logDebugf (logger s)
                               "sending transactions failed: %s" err
              /\ Forall (fun ef => isPreparation ef = true) pre))
  /\ (forall errs : list Error, errs <> [] ->
     let r := sendErrors s tr stats errs in
     (outcome r = true <-> transport.SendErrors tr errs = None)
     /\ filter isTransportCall (calls r)
        = [TransportSendErrors errs (transport.SendErrors tr errs)]
     /\ filter isRecycle (calls r) = []
     /\ TransactionsSent (statsAfter r) = TransactionsSent stats
     /\ SendTransactions (Errors (statsAfter r))
        = SendTransactions (Errors stats)
     /\ (outcome r = true ->
         ErrorsSent (statsAfter r) = uint64 (ErrorsSent stats + len errs)
         /\ SendErrors (Errors (statsAfter r)) = SendErrors (Errors stats))
     /\ (outcome r = false ->
         SendErrors (Errors (statsAfter r))
         = uint64 (SendErrors (Errors stats) + 1)
         /\ ErrorsSent (statsAfter r) = ErrorsSent stats
         /\ exists pre err,
              calls r = pre ++ TransportSendErrors errs (Some err)
                          :: logDebugf (logger s)
                               "sending errors failed: %s" err
              /\ Forall (fun ef => isPreparation ef = true) pre))
  /\ sendTransactions s tr stats [] = (false, stats, [])
  /\ sendErrors s tr stats [] = (false, stats, []).
Proof.
  split; [|split; [|split; reflexivity]].
  - intros txs Hne r. subst r.
    destruct (sendTransactions_shape s tr stats txs Hne) as (pre & Hpre & _ & Heq).
    pose proof (enrichTransactions_stats s stats txs) as Hst. cbv zeta in Hst.
    destruct Hst as (H1 & H2 & H3 & H4 & H5 & H6).
    rewrite Heq. unfold outcome, statsAfter, calls.
    destruct (transport.SendTransactions tr txs) as [err|]; simpl.
    + rewrite !filter_app. simpl.
      rewrite (filter_transport_preparation pre Hpre),
        (filter_recycle_preparation pre Hpre),
        filter_transport_log, filter_recycle_log. simpl.
      repeat split; try discriminate; try assumption.
      * rewrite H5. reflexivity.
      * exists pre, err. split; [reflexivity|exact Hpre].
    + rewrite !filter_app. simpl.
      rewrite (filter_transport_preparation pre Hpre),
        (filter_recycle_preparation pre Hpre). simpl.
      repeat split; try discriminate; try assumption.
      rewrite uint64_add_uint64_r, H1. reflexivity.
  - intros errs Hne r. subst r.
    destruct (sendErrors_shape s tr stats errs Hne) as (pre & Hpre & _ & Heq).
    pose proof (enrichErrors_stats s stats errs) as Hst. cbv zeta in Hst.
    destruct Hst as (H1 & H2 & H3 & H4 & H5 & H6).
    rewrite Heq. unfold outcome, statsAfter, calls.
    destruct (transport.SendErrors tr errs) as [err|]; simpl.
    + rewrite !filter_app. simpl.
      rewrite (filter_transport_preparation pre Hpre),
        (filter_recycle_preparation pre Hpre),
        filter_transport_log, filter_recycle_log. simpl.
      repeat split; try discriminate; try assumption.
      * rewrite H6. reflexivity.
      * exists pre, err. split; [reflexivity|exact Hpre].
    + rewrite !filter_app. simpl.
      rewrite (filter_transport_preparation pre Hpre),
        (filter_recycle_preparation pre Hpre). simpl.
      repeat split; try discriminate; try assumption.
      rewrite uint64_add_uint64_r, H2. reflexivity.
Qed.

(** The statement at a batch of one transaction and a failing Transport. *)
Lemma sender_send_outcome_witness :
  [sampleTx 1] <> []
  /\ (outcome (sendTransactions (mkSender None None None 0 0) ErrorTransport
                 zeroStats [sampleTx 1]) = true
      <-> transport.SendTransactions ErrorTransport [sampleTx 1] = None).
Proof.
  assert (H : [sampleTx 1] <> []) by discriminate.
  split; [exact H|].
  exact (proj1 (proj1 (sender_send_outcome (mkSender None None None 0 0)
                         ErrorTransport zeroStats) [sampleTx 1] H)).
Defined.

(** ** Enrichment *)

Lemma setContextLoop_first_failure {A : Type} (set : A -> option error)
    (call : A -> Effect) (before after : list A) (r : A) (err : error) :
  Forall (fun x => set x = None) before ->
  set r = Some err ->
  setContextLoop set call (before ++ r :: after)
  = (Some err, map call (before ++ [r])).
Proof.
  intros Hb Hr. induction Hb as [|x l Hx _ IH]; simpl.
  - rewrite Hr. reflexivity.
  - rewrite Hx, IH. reflexivity.
Qed.

Lemma ProcessTransaction_no_setContext (p : Processor) (tx : Transaction) :
  Forall (fun ef => isSetContextCall ef = false) (ProcessTransaction p tx).
Proof.
  induction p as [id|ps IH] using Processor_nested_ind; simpl.
  - repeat constructor.
  - apply Forall_flat_map. intros q Hq.
    rewrite Forall_forall in IH. apply IH. exact Hq.
Qed.

Lemma ProcessError_no_setContext (p : Processor) (e : Error) :
  Forall (fun ef => isSetContextCall ef = false) (ProcessError p e).
Proof.
  induction p as [id|ps IH] using Processor_nested_ind; simpl.
  - repeat constructor.
  - apply Forall_flat_map. intros q Hq.
    rewrite Forall_forall in IH. apply IH. exact Hq.
Qed.

Lemma prepareTransactions_no_setContext (s : sender) (txs : list Transaction) :
  filter isSetContextCall (flat_map (prepareTransaction s) txs) = [].
Proof.
  apply filter_none, Forall_flat_map. intros tx _. unfold prepareTransaction.
  repeat (apply Forall_app; split).
  - repeat constructor.
  - destruct (tx_Sampled tx); repeat constructor.
  - destruct (processor s); [apply ProcessTransaction_no_setContext|constructor].
Qed.

Lemma prepareErrors_no_setContext (s : sender) (errs : list Error) :
  filter isSetContextCall (flat_map (prepareError s) errs) = [].
Proof.
  apply filter_none, Forall_flat_map. intros e _. unfold prepareError.
  repeat (apply Forall_app; split).
  - destruct (e_Transaction e); repeat constructor.
  - repeat constructor.
  - destruct (processor s); [apply ProcessError_no_setContext|constructor].
Qed.

Lemma filter_setContext_log (l : option Logger) (fmt : string) (err : error) :
  filter isSetContextCall (logDebugf l fmt err) = [].
Proof. destruct l; reflexivity. Qed.

Lemma filter_all {A : Type} (f : A -> bool) (l : list A) :
  Forall (fun x => f x = true) l -> filter f l = l.
Proof.
  induction 1 as [|x l Hx _ IH]; simpl; [reflexivity|]. rewrite Hx, IH.
  reflexivity.
Qed.

Lemma filter_setContext_map {A : Type} (call : A -> Effect) (l : list A) :
  (forall x, isSetContextCall (call x) = true) ->
  filter isSetContextCall (map call l) = map call l.
Proof.
  intro H. apply filter_all. apply Forall_map, Forall_forall. intros. apply H.
Qed.

Lemma sendTransactions_one_call (s : sender) (tr : transport.Transport)
    (stats : TracerStats) (txs : list Transaction) :
  txs <> [] ->
  filter isTransportCall (calls (sendTransactions s tr stats txs))
  = [TransportSendTransactions txs (transport.SendTransactions tr txs)].
Proof.
  intro Hne.
  destruct (sendTransactions_shape s tr stats txs Hne) as (pre & Hpre & _ & Heq).
  rewrite Heq. unfold calls.
  destruct (transport.SendTransactions tr txs); simpl; rewrite !filter_app;
    simpl; rewrite (filter_transport_preparation pre Hpre),
             ?filter_transport_log; reflexivity.
Qed.

Lemma sendErrors_one_call (s : sender) (tr : transport.Transport)
    (stats : TracerStats) (errs : list Error) :
  errs <> [] ->
  filter isTransportCall (calls (sendErrors s tr stats errs))
  = [TransportSendErrors errs (transport.SendErrors tr errs)].
Proof.
  intro Hne.
  destruct (sendErrors_shape s tr stats errs Hne) as (pre & Hpre & _ & Heq).
  rewrite Heq. unfold calls.
  destruct (transport.SendErrors tr errs); simpl; rewrite !filter_app;
    simpl; rewrite (filter_transport_preparation pre Hpre),
             ?filter_transport_log; reflexivity.
Qed.

(** C8. With a context setter configured, when enriching a record of the
    batch fails, the records before it and the failing one are the only
    ones [setContext] is called on, [Errors.SetContext] grows by exactly
    one for the batch, and the Transport is still called, once, with the
    whole batch.  For [sendTransactions] and for [sendErrors]. *)
Theorem enrichment_stops_at_first_failure (s : sender)
    (setter : ContextSetter) (tr : transport.Transport) (stats : TracerStats) :
  contextSetter s = Some setter ->
  (forall (before after : list Transaction) (tx : Transaction) (err : error),
     Forall (fun t => tx_setContext setter t (preContext s) (postContext s)
                      = None) before ->
     tx_setContext setter tx (preContext s) (postContext s) = Some err ->
     let batch := before ++ tx :: after in
     let r := sendTransactions s tr stats batch in
     filter isSetContextCall (calls r)
     = map (fun t => TxSetContext t (preContext s) (postContext s))
         (before ++ [tx])
     /\ SetContext (Errors (statsAfter r))
        = uint64 (SetContext (Errors stats) + 1)
     /\ filter isTransportCall (calls r)
        = [TransportSendTransactions batch
             (transport.SendTransactions tr batch)])
  /\
  (forall (before after : list Error) (e : Error) (err : error),
     Forall (fun x => e_setContext setter x (preContext s) (postContext s)
                      = None) before ->
     e_setContext setter e (preContext s) (postContext s) = Some err ->
     let batch := before ++ e :: after in
     let r := sendErrors s tr stats batch in
     filter isSetContextCall (calls r)
     = map (fun x => ErrSetContext x (preContext s) (postContext s))
         (before ++ [e])
     /\ SetContext (Errors (statsAfter r))
        = uint64 (SetContext (Errors stats) + 1)
     /\ filter isTransportCall (calls r)
        = [TransportSendErrors batch (transport.SendErrors tr batch)]).
Proof.
  intro Hcs. split.
  - intros before after tx err Hb Hf batch r. subst r.
    assert (Hne : batch <> []) by (subst batch; destruct before; discriminate).
    split; [|split];
      [| |exact (sendTransactions_one_call s tr stats batch Hne)].
    all: destruct (sendTransactions_shape s tr stats batch Hne)
        as (pre & _ & Hpre & Heq); rewrite Heq; clear Heq; subst pre;
      unfold enrichTransactions; rewrite Hcs; subst batch;
      rewrite (setContextLoop_first_failure _ _ before after tx err Hb Hf);
      unfold calls, statsAfter;
      destruct (transport.SendTransactions tr (before ++ tx :: after)); simpl;
      try reflexivity;
      rewrite !filter_app; simpl;
      rewrite ?filter_setContext_log, ?prepareTransactions_no_setContext,
        ?app_nil_r;
      apply filter_setContext_map; reflexivity.
  - intros before after e err Hb Hf batch r. subst r.
    assert (Hne : batch <> []) by (subst batch; destruct before; discriminate).
    split; [|split];
      [| |exact (sendErrors_one_call s tr stats batch Hne)].
    all: destruct (sendErrors_shape s tr stats batch Hne)
        as (pre & _ & Hpre & Heq); rewrite Heq; clear Heq; subst pre;
      unfold enrichErrors; rewrite Hcs; subst batch;
      rewrite (setContextLoop_first_failure _ _ before after e err Hb Hf);
      unfold calls, statsAfter;
      destruct (transport.SendErrors tr (before ++ e :: after)); simpl;
      try reflexivity;
      rewrite !filter_app; simpl;
      rewrite ?filter_setContext_log, ?prepareErrors_no_setContext,
        ?app_nil_r;
      apply filter_setContext_map; reflexivity.
Qed.

(** The statement at a batch of three whose second record cannot be
    enriched. *)
Lemma enrichment_stops_at_first_failure_witness :
  filter isSetContextCall
    (calls (sendTransactions (mkSender None None (Some (failingSetter 2)) 3 3)
              Discard zeroStats ([sampleTx 1] ++ sampleTx 2 :: [sampleTx 3])))
  = map (fun t => TxSetContext t 3 3) ([sampleTx 1] ++ [sampleTx 2]).
Proof.
  refine (proj1 (proj1 (enrichment_stops_at_first_failure
                          (mkSender None None (Some (failingSetter 2)) 3 3)
                          (failingSetter 2) Discard zeroStats eq_refl)
                   [sampleTx 1] [sampleTx 3] (sampleTx 2) "no source"%string
                   _ _)).
  - repeat constructor.
  - reflexivity.
Defined.

(** ** The stages of the send phase, as equations *)

Lemma set_errors_id (l : Loop) : set_errors (errors l) l = l.
Proof. destruct l; reflexivity. Qed.

Lemma set_errorsC_id (l : Loop) : set_errorsC (errorsC l) l = l.
Proof. destruct l; reflexivity. Qed.

Lemma set_transactions_id (l : Loop) : set_transactions (transactions l) l = l.
Proof. destruct l; reflexivity. Qed.

Lemma stageSendErrors_eq (w : World) (f : Frame) :
  let l := fr_loop f in
  let r := sendErrors (loop_sender l) (w_Transport w) (fr_statsUpdates f)
             (errors l) in
  stageSendErrors w f =
  mkFrame
    (set_errorsC
       (if outcome r then true
        else if len (errors l) =? maxErrorQueueSize l then false
             else errorsC l)
       (set_errors (if outcome r then [] else errors l) l))
    (statsAfter r)
    (fr_trace f ++ calls r
     ++ (if outcome r
         then flat_map (fun e => [ErrReset e; ErrorPoolPut e]) (errors l)
         else [])).
Proof.
  intros l r. subst r. unfold stageSendErrors. fold l.
  destruct (sendErrors (loop_sender l) (w_Transport w) (fr_statsUpdates f)
              (errors l)) as [[ok st] tr].
  unfold outcome, statsAfter, calls. simpl.
  destruct ok; [reflexivity|].
  rewrite app_nil_r, set_errors_id.
  destruct (len (errors l) =? maxErrorQueueSize l);
    [reflexivity|rewrite set_errorsC_id; reflexivity].
Qed.

Lemma stageSendTransactions_eq (w : World) (f : Frame) :
  let l := fr_loop f in
  let r := sendTransactions (loop_sender l) (w_Transport w)
             (fr_statsUpdates f) (transactions l) in
  stageSendTransactions w true f =
  mkFrame
    (set_transactions (if outcome r then [] else transactions l) l)
    (statsAfter r)
    (fr_trace f ++ calls r
     ++ (if outcome r
         then flat_map (fun tx => [TxReset tx; TransactionPoolPut tx])
                (transactions l)
         else [])).
Proof.
  intros l r. subst r. unfold stageSendTransactions. fold l.
  destruct (sendTransactions (loop_sender l) (w_Transport w)
              (fr_statsUpdates f) (transactions l)) as [[ok st] tr].
  unfold outcome, statsAfter, calls. simpl.
  destruct ok; [reflexivity|].
  rewrite app_nil_r, set_transactions_id. reflexivity.
Qed.

Lemma stageSendTransactions_skip (w : World) (f : Frame) :
  stageSendTransactions w false f = f.
Proof. reflexivity. Qed.

(** What a send function reports, by cases on the batch and on the
    Transport's answer. *)
Lemma sendErrors_cases (s : sender) (tr : transport.Transport)
    (stats : TracerStats) (errs : list Error) :
  let r := sendErrors s tr stats errs in
  (errs = [] /\ r = (false, stats, []))
  \/ (errs <> [] /\ transport.SendErrors tr errs = None
      /\ outcome r = true
      /\ SendErrors (Errors (statsAfter r)) = SendErrors (Errors stats)
      /\ SendTransactions (Errors (statsAfter r))
         = SendTransactions (Errors stats)
      /\ exists pre,
           Forall (fun ef => isPreparation ef = true) pre
           /\ calls r = pre ++ [TransportSendErrors errs None])
  \/ (errs <> [] /\ outcome r = false
      /\ SendErrors (Errors (statsAfter r))
         = uint64 (SendErrors (Errors stats) + 1)
      /\ SendTransactions (Errors (statsAfter r))
         = SendTransactions (Errors stats)
      /\ exists pre err,
           transport.SendErrors tr errs = Some err
           /\ Forall (fun ef => isPreparation ef = true) pre
           /\ calls r = pre ++ TransportSendErrors errs (Some err)
                          :: logDebugf (logger s) "sending errors failed: %s"
                               err).
Proof.
  intro r. subst r. destruct errs as [|e errs]; [left; split; reflexivity|].
  right. assert (Hne : e :: errs <> []) by discriminate.
  destruct (sendErrors_shape s tr stats (e :: errs) Hne)
    as (pre & Hpre & _ & Heq).
  pose proof (enrichErrors_stats s stats (e :: errs)) as Hst. cbv zeta in Hst.
  destruct Hst as (H1 & H2 & H3 & H4 & H5 & H6).
  rewrite Heq. unfold outcome, statsAfter, calls.
  destruct (transport.SendErrors tr (e :: errs)) as [err|]; simpl.
  - right. repeat split; try assumption. rewrite H6. reflexivity.
    exists pre, err. repeat split. exact Hpre.
  - left. repeat split; try assumption. exists pre. split; [exact Hpre|reflexivity].
Qed.

Lemma sendTransactions_cases (s : sender) (tr : transport.Transport)
    (stats : TracerStats) (txs : list Transaction) :
  let r := sendTransactions s tr stats txs in
  (txs = [] /\ r = (false, stats, []))
  \/ (txs <> [] /\ transport.SendTransactions tr txs = None
      /\ outcome r = true
      /\ SendErrors (Errors (statsAfter r)) = SendErrors (Errors stats)
      /\ SendTransactions (Errors (statsAfter r))
         = SendTransactions (Errors stats)
      /\ exists pre,
           Forall (fun ef => isPreparation ef = true) pre
           /\ calls r = pre ++ [TransportSendTransactions txs None])
  \/ (txs <> [] /\ outcome r = false
      /\ SendErrors (Errors (statsAfter r)) = SendErrors (Errors stats)
      /\ SendTransactions (Errors (statsAfter r))
         = uint64 (SendTransactions (Errors stats) + 1)
      /\ exists pre err,
           transport.SendTransactions tr txs = Some err
           /\ Forall (fun ef => isPreparation ef = true) pre
           /\ calls r = pre ++ TransportSendTransactions txs (Some err)
                          :: logDebugf (logger s)
                               "sending transactions failed: %s" err).
Proof.
  intro r. subst r. destruct txs as [|t txs]; [left; split; reflexivity|].
  right. assert (Hne : t :: txs <> []) by discriminate.
  destruct (sendTransactions_shape s tr stats (t :: txs) Hne)
    as (pre & Hpre & _ & Heq).
  pose proof (enrichTransactions_stats s stats (t :: txs)) as Hst.
  cbv zeta in Hst. destruct Hst as (H1 & H2 & H3 & H4 & H5 & H6).
  rewrite Heq. unfold outcome, statsAfter, calls.
  destruct (transport.SendTransactions tr (t :: txs)) as [err|]; simpl.
  - right. repeat split; try assumption. rewrite H5. reflexivity.
    exists pre, err. repeat split. exact Hpre.
  - left. repeat split; try assumption. exists pre. split; [exact Hpre|reflexivity].
Qed.

Lemma isZero_no_failure (st : TracerStats) :
  isZero st = true ->
  SendTransactions (Errors st) = 0 /\ SendErrors (Errors st) = 0.
Proof.
  unfold isZero. intro H. repeat (apply andb_prop in H; destruct H as [H ?]).
  split; apply Z.eqb_eq; assumption.
Qed.

Lemma stageFinish_failed (b : bool) (f : Frame) :
  SendTransactions (Errors (fr_statsUpdates f)) <> 0
  \/ SendErrors (Errors (fr_statsUpdates f)) <> 0 ->
  stageFinish b f =
  let l := set_stats (accumulate (t_stats (fr_loop f)) (fr_statsUpdates f))
             (fr_loop f) in
  mkFrame (fst (startTimer l)) (fr_statsUpdates f)
    (fr_trace f ++ snd (startTimer l)).
Proof.
  intro H. unfold stageFinish.
  destruct (isZero (fr_statsUpdates f)) eqn:Ez.
  - apply isZero_no_failure in Ez. destruct Ez, H; contradiction.
  - simpl negb. cbv iota.
    assert (E : negb (SendTransactions (Errors (fr_statsUpdates f)) =? 0)
                || negb (SendErrors (Errors (fr_statsUpdates f)) =? 0) = true).
    { apply orb_true_iff. destruct H as [H|H]; [left|right];
        apply negb_true_iff, Z.eqb_neq; exact H. }
    rewrite E. cbv zeta.
    destruct (startTimer _); reflexivity.
Qed.

Lemma stageFinish_ok (b : bool) (f : Frame) :
  SendTransactions (Errors (fr_statsUpdates f)) = 0 ->
  SendErrors (Errors (fr_statsUpdates f)) = 0 ->
  stageFinish b f =
  signalFlushed b
    (mkFrame
       (if isZero (fr_statsUpdates f) then fr_loop f
        else set_stats (accumulate (t_stats (fr_loop f)) (fr_statsUpdates f))
               (fr_loop f))
       (fr_statsUpdates f) (fr_trace f)).
Proof.
  intros H1 H2. unfold stageFinish. rewrite H1, H2. simpl.
  destruct (isZero (fr_statsUpdates f)); simpl; [destruct f|]; reflexivity.
Qed.

(** What the end of the body appends to the trace. *)
Lemma stageFinish_trace (b : bool) (f : Frame) :
  exists ext,
    fr_trace (stageFinish b f) = fr_trace f ++ ext
    /\ (ext = []
        \/ ext = [TimerReset (flushInterval (fr_loop f))]
        \/ exists ch, ext = [SignalFlushed ch]
                      /\ flushed (fr_loop f) = Some ch /\ b = true).
Proof.
  unfold stageFinish, signalFlushed, startTimer.
  destruct (isZero (fr_statsUpdates f)); simpl.
  - destruct (flushed (fr_loop f)) as [ch|] eqn:Ef;
      [destruct b|]; simpl.
    + exists [SignalFlushed ch]. split; [reflexivity|]. right; right.
      exists ch. repeat split.
    + exists []. rewrite app_nil_r. split; [reflexivity|left; reflexivity].
    + exists []. rewrite app_nil_r. split; [reflexivity|left; reflexivity].
  - destruct (negb (SendTransactions (Errors (fr_statsUpdates f)) =? 0)
              || negb (SendErrors (Errors (fr_statsUpdates f)) =? 0)); simpl.
    + destruct (flushC (fr_loop f)); simpl.
      * exists []. rewrite app_nil_r. split; [reflexivity|left; reflexivity].
      * exists [TimerReset (flushInterval (fr_loop f))].
        split; [reflexivity|right; left; reflexivity].
    + destruct (flushed (fr_loop f)) as [ch|] eqn:Ef;
        [destruct b|]; simpl.
      * exists [SignalFlushed ch]. split; [reflexivity|]. right; right.
        exists ch. repeat split.
      * exists []. rewrite app_nil_r. split; [reflexivity|left; reflexivity].
      * exists []. rewrite app_nil_r. split; [reflexivity|left; reflexivity].
Qed.

Lemma stageFinish_transport (b : bool) (f : Frame) :
  filter isTransportCall (fr_trace (stageFinish b f))
  = filter isTransportCall (fr_trace f).
Proof.
  destruct (stageFinish_trace b f) as (ext & -> & [->|[->|(ch & -> & _)]]);
    rewrite filter_app; simpl; rewrite app_nil_r; reflexivity.
Qed.

Lemma filter_transport_recycle_errors (l : list Error) :
  filter isTransportCall (flat_map (fun e => [ErrReset e; ErrorPoolPut e]) l)
  = [].
Proof. induction l; simpl; [reflexivity|assumption]. Qed.

Lemma filter_transport_recycle_transactions (l : list Transaction) :
  filter isTransportCall
    (flat_map (fun tx => [TxReset tx; TransactionPoolPut tx]) l) = [].
Proof. induction l; simpl; [reflexivity|assumption]. Qed.

Lemma sendErrors_transport_calls (s : sender) (tr : transport.Transport)
    (stats : TracerStats) (errs : list Error) :
  filter isTransportCall (calls (sendErrors s tr stats errs))
  = match errs with
    | [] => []
    | _ => [TransportSendErrors errs (transport.SendErrors tr errs)]
    end.
Proof.
  destruct errs as [|e errs]; [reflexivity|].
  apply sendErrors_one_call. discriminate.
Qed.

Lemma sendTransactions_transport_calls (s : sender) (tr : transport.Transport)
    (stats : TracerStats) (txs : list Transaction) :
  filter isTransportCall (calls (sendTransactions s tr stats txs))
  = match txs with
    | [] => []
    | _ => [TransportSendTransactions txs (transport.SendTransactions tr txs)]
    end.
Proof.
  destruct txs as [|t txs]; [reflexivity|].
  apply sendTransactions_one_call. discriminate.
Qed.

(** The Transport calls of the send phase: the errors queue as drained,
    then, when the iteration sends transactions, the transactions queue. *)
Lemma sendPhase_transport_calls (w : World) (b : bool) (f0 : Frame) :
  let l0 := fr_loop f0 in
  let queue := drainErrors (maxErrorQueueSize l0) (errors l0) (w_errors w) in
  filter isTransportCall (fr_trace (sendPhase w b f0))
  = filter isTransportCall (fr_trace f0)
    ++ match queue with
       | [] => []
       | _ => [TransportSendErrors queue
                 (transport.SendErrors (w_Transport w) queue)]
       end
    ++ (if b then
          match transactions l0 with
          | [] => []
          | _ => [TransportSendTransactions (transactions l0)
                    (transport.SendTransactions (w_Transport w)
                       (transactions l0))]
          end
        else []).
Proof.
  intros l0 queue. unfold sendPhase. rewrite stageFinish_transport.
  destruct b.
  - rewrite stageSendTransactions_eq. cbv zeta. simpl fr_trace.
    rewrite stageSendErrors_eq. cbv zeta. simpl.
    rewrite !filter_app.
    rewrite sendErrors_transport_calls, sendTransactions_transport_calls.
    fold l0. fold queue.
    rewrite <- !app_assoc. f_equal. f_equal.
    repeat match goal with
           | |- context [filter isTransportCall (if ?c then _ else _)] =>
               destruct c
           end;
      simpl filter;
      rewrite ?filter_transport_recycle_errors,
        ?filter_transport_recycle_transactions, ?app_nil_r; reflexivity.
  - rewrite stageSendTransactions_skip.
    rewrite stageSendErrors_eq. cbv zeta. simpl.
    rewrite !filter_app.
    rewrite sendErrors_transport_calls. fold l0. fold queue.
    rewrite <- ?app_assoc. f_equal. rewrite app_nil_r.
    match goal with
    | |- context [filter isTransportCall (if ?c then _ else _)] =>
        destruct c
    end;
      simpl filter; rewrite ?filter_transport_recycle_errors, ?app_nil_r;
      reflexivity.
Qed.

(** ** The select statement *)

Lemma receivedTransaction_eviction (max : Z) (queue : list Transaction)
    (tx : Transaction) (stats : TracerStats) :
  let r := receivedTransaction max queue tx stats in
  Forall (fun ef => isEviction ef = true) (snd r)
  /\ Errors (snd (fst r)) = Errors stats.
Proof.
  unfold receivedTransaction.
  destruct ((0 <? max) && (max <=? len queue)); simpl; split;
    try reflexivity; try constructor.
  apply Forall_flat_map. intros. repeat constructor.
Qed.

Lemma drainTransactions_eviction (max : Z) (buffered : list Transaction) :
  forall (queue : list Transaction) (stats : TracerStats),
    let r := drainTransactions max queue stats buffered in
    Forall (fun ef => isEviction ef = true) (snd r)
    /\ Errors (snd (fst r)) = Errors stats.
Proof.
  induction buffered as [|tx rest IH]; intros queue stats; simpl.
  - split; [constructor|reflexivity].
  - pose proof (receivedTransaction_eviction max queue tx stats) as H.
    destruct (receivedTransaction max queue tx stats) as [[q1 s1] t1].
    specialize (IH q1 s1).
    destruct (drainTransactions max q1 s1 rest) as [[q2 s2] t2].
    simpl in *. destruct H as [H1 H2], IH as [IH1 IH2]. split.
    + apply Forall_app. split; assumption.
    + congruence.
Qed.

Lemma eviction_not_transport (l : list Effect) :
  Forall (fun ef => isEviction ef = true) l -> filter isTransportCall l = [].
Proof.
  intro H. apply filter_none. eapply Forall_impl; [|exact H].
  intros ef. destruct ef; simpl; congruence.
Qed.

(** When the select statement leads to the send phase, the iteration's
    [statsUpdates] records no failure yet and its calls so far are
    evictions. *)
Lemma select_SendPhase (ev : Event) (l l1 : Loop) (stats : TracerStats)
    (b : bool) (tr : list Effect) :
  select ev l = Some (SendPhase l1 stats b tr) ->
  Errors stats = Errors zeroStats
  /\ Forall (fun ef => isEviction ef = true) tr.
Proof.
  destruct ev; simpl; intro H; try discriminate.
  - destruct ((n <=? 0) || _) in H; inversion H; subst.
    split; [reflexivity|constructor].
  - destruct ((n <=? 0) || _) in H; discriminate.
  - destruct (errorsC l); inversion H; subst. split; [reflexivity|constructor].
  - pose proof (receivedTransaction_eviction (maxTransactionQueueSize l)
                  (transactions l) tx zeroStats) as He.
    destruct (receivedTransaction (maxTransactionQueueSize l)
                (transactions l) tx zeroStats) as [[q1 s1] t1].
    simpl in He. simpl in H.
    destruct ((len q1 =? len (transactions l)) && flushC l); [discriminate|].
    destruct ((maxTransactionQueueSize l <=? 0)
              || (len q1 <? maxTransactionQueueSize l)).
    + unfold startTimer in H. simpl in H. destruct (flushC l); discriminate.
    + inversion H; subst. destruct He. split; assumption.
  - destruct (flushC l); inversion H; subst. split; [reflexivity|constructor].
  - destruct (forceFlush l); [|discriminate].
    pose proof (drainTransactions_eviction (maxTransactionQueueSize l)
                  buffered (transactions l) zeroStats) as He.
    destruct (drainTransactions (maxTransactionQueueSize l) (transactions l)
                zeroStats buffered) as [[q1 s1] t1].
    inversion H; subst. simpl in He. destruct He. split; assumption.
Qed.

(** ** The errors drain *)

Lemma drainLoop_spec (buffered : list Error) :
  forall (remainder : Z) (queue : list Error),
    drainLoop buffered remainder queue
    = queue ++ firstn (Z.to_nat remainder) buffered.
Proof.
  induction buffered as [|e rest IH]; intros remainder queue; simpl.
  - rewrite firstn_nil, app_nil_r. reflexivity.
  - destruct (0 <? remainder) eqn:E.
    + apply Z.ltb_lt in E. rewrite IH.
      replace (Z.to_nat remainder) with (S (Z.to_nat (remainder - 1))) by lia.
      simpl. rewrite <- app_assoc. reflexivity.
    + apply Z.ltb_ge in E.
      replace (Z.to_nat remainder) with 0%nat by lia.
      simpl. rewrite app_nil_r. reflexivity.
Qed.

Lemma firstn_min_len {A : Type} (l : list A) (z : Z) :
  firstn (Z.to_nat (Z.min (len l) z)) l = firstn (Z.to_nat z) l.
Proof.
  unfold len. destruct (Z_le_gt_dec z (Z.of_nat (List.length l))) as [H|H].
  - rewrite Z.min_r by lia. reflexivity.
  - rewrite Z.min_l by lia. rewrite Nat2Z.id.
    rewrite firstn_all. symmetry. apply firstn_all2. lia.
Qed.

Lemma drainErrors_spec (max : Z) (queue buffered : list Error) :
  drainErrors max queue buffered
  = queue
    ++ firstn (Z.to_nat (Z.min (len buffered) (int_sub max (len queue))))
         buffered.
Proof.
  unfold drainErrors. rewrite firstn_min_len.
  destruct (0 <? int_sub max (len queue)) eqn:E.
  - apply drainLoop_spec.
  - apply Z.ltb_ge in E.
    replace (Z.to_nat (int_sub max (len queue))) with 0%nat by lia.
    simpl. rewrite app_nil_r. reflexivity.
Qed.

(** What the send phase appends to the trace begins with the calls of
    [sendErrors] on the drained queue. *)
Lemma sendPhase_starts_with_sendErrors (w : World) (b : bool) (f0 : Frame) :
  let l0 := fr_loop f0 in
  let queue := drainErrors (maxErrorQueueSize l0) (errors l0) (w_errors w) in
  exists rest,
    fr_trace (sendPhase w b f0)
    = fr_trace f0
      ++ calls (sendErrors (loop_sender l0) (w_Transport w)
                  (fr_statsUpdates f0) queue)
      ++ rest.
Proof.
  intros l0 queue. unfold sendPhase.
  destruct (stageFinish_trace b
              (stageSendTransactions w b
                 (stageSendErrors w (stageDrainErrors w f0))))
    as (ext & -> & _).
  destruct b.
  - rewrite stageSendTransactions_eq. cbv zeta. simpl fr_trace.
    rewrite stageSendErrors_eq. cbv zeta. simpl.
    fold l0. fold queue. rewrite <- !app_assoc.
    eexists. reflexivity.
  - rewrite stageSendTransactions_skip.
    rewrite stageSendErrors_eq. cbv zeta. simpl.
    fold l0. fold queue. rewrite <- !app_assoc.
    eexists. reflexivity.
Qed.

(** ** Every send phase drains and sends the errors *)

(** C9. An iteration that reaches the send phase, whatever select case
    led there, first appends to the errors queue the errors buffered in the
    channel, up to the headroom [maxErrorQueueSize - len(errors)] (nothing
    when that is not positive), and then calls [sendErrors] on the whole
    queue: the first Transport call of the iteration carries the entire
    errors queue, and only then come the transactions, if the iteration
    sends them.  An error arrival, a flush-timer expiry and a forced flush
    always reach the send phase. *)
Theorem send_phase_drains_and_sends_errors (w : World) (l : Loop) :
  (forall (ev : Event) (l1 : Loop) (stats : TracerStats) (b : bool)
          (tr : list Effect),
     select ev l = Some (SendPhase l1 stats b tr) ->
     let headroom := int_sub (maxErrorQueueSize l1) (len (errors l1)) in
     let drained :=
       firstn (Z.to_nat (Z.min (len (w_errors w)) headroom)) (w_errors w) in
     let queue := errors l1 ++ drained in
     exists (f : Frame) (rest : list Effect) (p1 p2 p3 p4 : Loop),
       iteration w ev l = Some (Some f)
       /\ programPoints w ev l = [l1; p1; p2; p3; p4]
       /\ errors p1 = queue
       /\ fr_trace f
          = tr ++ calls (sendErrors (loop_sender l1) (w_Transport w) stats
                           queue) ++ rest
       /\ filter isTransportCall tr = []
       /\ filter isTransportCall (fr_trace f)
          = match queue with
            | [] => []
            | _ => [TransportSendErrors queue
                      (transport.SendErrors (w_Transport w) queue)]
            end
            ++ (if b then
                  match transactions l1 with
                  | [] => []
                  | _ => [TransportSendTransactions (transactions l1)
                            (transport.SendTransactions (w_Transport w)
                               (transactions l1))]
                  end
                else []))
  /\ (errorsC l = true ->
      forall e, select (RecvError e) l
                = Some (SendPhase (set_errors (errors l ++ [e]) l) zeroStats
                          false []))
  /\ (flushC l = true ->
      select FlushTimer l
      = Some (SendPhase (set_flushC false l) zeroStats true []))
  /\ (forceFlush l = true ->
      forall ch buffered,
      exists l1 stats tr,
        select (RecvForceFlush ch buffered) l
        = Some (SendPhase l1 stats true tr)).
Proof.
  split; [|split; [|split]].
  - intros ev l1 stats b tr Hsel headroom drained queue.
    destruct (select_SendPhase ev l l1 stats b tr Hsel) as [_ Hev].
    pose proof (sendPhase_starts_with_sendErrors w b (mkFrame l1 stats tr))
      as (rest & Hrest).
    pose proof (sendPhase_transport_calls w b (mkFrame l1 stats tr)) as Hcalls.
    cbv zeta in Hrest, Hcalls. simpl in Hrest, Hcalls.
    rewrite drainErrors_spec in Hrest, Hcalls.
    fold headroom in Hrest, Hcalls. fold drained in Hrest, Hcalls.
    fold queue in Hrest, Hcalls.
    rewrite (eviction_not_transport tr Hev) in Hcalls. simpl in Hcalls.
    eexists. exists rest. do 4 eexists.
    split; [unfold iteration; rewrite Hsel; reflexivity|].
    split; [unfold programPoints; rewrite Hsel; reflexivity|].
    split; [simpl; apply drainErrors_spec|].
    split; [exact Hrest|].
    split; [exact (eviction_not_transport tr Hev)|exact Hcalls].
  - intros H e. simpl. rewrite H. reflexivity.
  - intros H. simpl. rewrite H. reflexivity.
  - intros H ch buffered. simpl. rewrite H.
    destruct (drainTransactions (maxTransactionQueueSize l) (transactions l)
                zeroStats buffered) as [[q1 s1] t1].
    do 3 eexists. reflexivity.
Qed.

(** The statement at a flush-timer expiry with an empty queue, a cap of
    two and three errors buffered in the channel: two are drained and
    sent. *)
Lemma send_phase_drains_and_sends_errors_witness :
  exists (f : Frame) (rest : list Effect) (p1 p2 p3 p4 : Loop),
    iteration busyWorld FlushTimer (set_flushC true (configuredLoop 0 2))
    = Some (Some f)
    /\ programPoints busyWorld FlushTimer (set_flushC true (configuredLoop 0 2))
       = [configuredLoop 0 2; p1; p2; p3; p4]
    /\ errors p1 = [sampleErr 7; sampleErr 8]
    /\ fr_trace f
       = [] ++ calls (sendErrors (loop_sender (configuredLoop 0 2))
                        ErrorTransport zeroStats [sampleErr 7; sampleErr 8])
         ++ rest
    /\ filter isTransportCall (@nil Effect) = []
    /\ filter isTransportCall (fr_trace f)
       = [TransportSendErrors [sampleErr 7; sampleErr 8] (Some "nope"%string)]
         ++ [].
Proof.
  exact (proj1 (send_phase_drains_and_sends_errors busyWorld
                  (set_flushC true (configuredLoop 0 2)))
           FlushTimer (configuredLoop 0 2) zeroStats true [] eq_refl).
Defined.

(** ** A saturated queue under a pending retry timer *)

(** The append leaves the length unchanged exactly when the queue holds
    [maxTransactionQueueSize] records: one is evicted, one is added. *)
Lemma receivedTransaction_same_length (max : Z) (queue : list Transaction)
    (tx : Transaction) (stats : TracerStats) :
  len queue <= int_max ->
  len (fst (fst (receivedTransaction max queue tx stats))) = len queue ->
  exists oldest kept,
    queue = oldest :: kept
    /\ max = len queue
    /\ receivedTransaction max queue tx stats
       = (kept ++ [tx], add_TransactionsDropped 1 stats,
          [TxReset oldest; TransactionPoolPut oldest]).
Proof.
  intros Hlen Heq. unfold receivedTransaction in *.
  pose proof int_max_lt_uint64_mod as Hm.
  pose proof (len_nonneg queue) as Hq.
  destruct (0 <? max) eqn:E1; simpl in *;
    [|rewrite len_app in Heq; unfold len in Heq at 2; simpl in Heq; lia].
  destruct (max <=? len queue) eqn:E2; simpl in *;
    [|rewrite len_app in Heq; unfold len in Heq at 2; simpl in Heq; lia].
  apply Z.ltb_lt in E1. apply Z.leb_le in E2.
  assert (Hn : uint64 (len queue - max + 1) = len queue - max + 1)
    by (apply uint64_small; lia).
  rewrite Hn in *.
  assert (Hone : len queue - max + 1 = 1).
  { rewrite len_app in Heq. unfold len in Heq. rewrite length_skipn in Heq.
    simpl in Heq. unfold len in *. lia. }
  rewrite Hone. destruct queue as [|oldest kept].
  - unfold len in *. simpl in *. lia.
  - exists oldest, kept. repeat split. lia.
Qed.

(** C3. When a transaction arrives while a retry/flush timer is pending and
    the drop-oldest append leaves the queue length unchanged, the iteration
    evicts the oldest record, appends the new one, charges exactly one drop
    to [TransactionsDropped] (nothing else), commits it to the tracer's
    stats and continues with the next select: the send phase is not
    entered, no Transport call is made, the timer is not reset and stays
    pending with its interval. *)
Theorem saturated_arrival_keeps_retry_timer (w : World) (l : Loop)
    (tx : Transaction) :
  flushC l = true ->
  len (transactions l) <= int_max ->
  len (fst (fst (receivedTransaction (maxTransactionQueueSize l)
                   (transactions l) tx zeroStats)))
  = len (transactions l) ->
  exists oldest kept,
    let delta := add_TransactionsDropped 1 zeroStats in
    let l' := set_stats (accumulate (t_stats l) delta)
                (set_transactions (kept ++ [tx]) l) in
    let tr := [TxReset oldest; TransactionPoolPut oldest] in
    transactions l = oldest :: kept
    /\ select (RecvTransaction tx) l = Some (Continue l' delta tr)
    /\ iteration w (RecvTransaction tx) l = Some (Some (mkFrame l' delta tr))
    /\ programPoints w (RecvTransaction tx) l = [l']
    /\ filter isTransportCall tr = []
    /\ filter isTimerReset tr = []
    /\ flushC l' = true
    /\ flushInterval l' = flushInterval l
    /\ errors l' = errors l
    /\ delta = mkTracerStats (mkTracerStatsErrors 0 0 0) 0 0 0 1
    /\ TransactionsDropped (t_stats l')
       = uint64 (TransactionsDropped (t_stats l) + 1).
Proof.
  intros Hc Hlen Heq.
  destruct (receivedTransaction_same_length _ _ tx zeroStats Hlen Heq)
    as (oldest & kept & Hq & Hmax & Hrt).
  exists oldest, kept. cbv zeta.
  assert (Hsel : select (RecvTransaction tx) l
                 = Some (Continue
                           (set_stats
                              (accumulate (t_stats l)
                                 (add_TransactionsDropped 1 zeroStats))
                              (set_transactions (kept ++ [tx]) l))
                           (add_TransactionsDropped 1 zeroStats)
                           [TxReset oldest; TransactionPoolPut oldest])).
  { unfold select. rewrite Hrt. cbv zeta. simpl.
    rewrite Hc.
    assert (E : (len (kept ++ [tx]) =? len (transactions l)) = true).
    { apply Z.eqb_eq. rewrite Hq, len_app. unfold len. simpl. lia. }
    rewrite E. reflexivity. }
  split; [exact Hq|]. split; [exact Hsel|].
  split; [unfold iteration; rewrite Hsel; reflexivity|].
  split; [unfold programPoints; rewrite Hsel; reflexivity|].
  simpl. repeat split; try reflexivity; assumption.
Qed.

(** The statement at a queue of one with a cap of one, timer pending. *)
Lemma saturated_arrival_keeps_retry_timer_witness :
  exists oldest kept,
    transactions (set_flushC true
                    (set_transactions [sampleTx 1] (configuredLoop 1 1000)))
    = oldest :: kept
    /\ iteration failingWorld (RecvTransaction (sampleTx 2))
         (set_flushC true
            (set_transactions [sampleTx 1] (configuredLoop 1 1000)))
       = Some (Some
                 (mkFrame
                    (set_stats
                       (accumulate zeroStats
                          (add_TransactionsDropped 1 zeroStats))
                       (set_transactions (kept ++ [sampleTx 2])
                          (set_flushC true
                             (set_transactions [sampleTx 1]
                                (configuredLoop 1 1000)))))
                    (add_TransactionsDropped 1 zeroStats)
                    [TxReset oldest; TransactionPoolPut oldest])).
Proof.
  assert (H2 : len (transactions
                      (set_flushC true
                         (set_transactions [sampleTx 1]
                            (configuredLoop 1 1000)))) <= int_max)
    by (vm_compute; discriminate).
  destruct (saturated_arrival_keeps_retry_timer failingWorld
              (set_flushC true
                 (set_transactions [sampleTx 1] (configuredLoop 1 1000)))
              (sampleTx 2) eq_refl H2 eq_refl)
    as (oldest & kept & Hq & _ & Hit & _).
  exists oldest, kept. split; [exact Hq|exact Hit].
Defined.

(** ** The send phase in closed form *)

(** The failure counters of the iteration's [statsUpdates] after the two
    sends, when the select statement left them at zero. *)
Lemma send_results_failure_counters (w : World) (f0 : Frame) :
  Errors (fr_statsUpdates f0) = Errors zeroStats ->
  SendErrors (Errors (statsAfter (sendPhaseErrorsResult w f0)))
  = (if sendFailed (sendPhaseErrorsResult w f0) (sendPhaseErrors w f0)
     then 1 else 0)
  /\ SendTransactions (Errors (statsAfter (sendPhaseErrorsResult w f0))) = 0
  /\ SendTransactions (Errors (statsAfter (sendPhaseTransactionsResult w f0)))
     = (if sendFailed (sendPhaseTransactionsResult w f0)
             (transactions (fr_loop f0)) then 1 else 0)
  /\ SendErrors (Errors (statsAfter (sendPhaseTransactionsResult w f0)))
     = SendErrors (Errors (statsAfter (sendPhaseErrorsResult w f0))).
Proof.
  intro Hz.
  assert (HzE : SendErrors (Errors (fr_statsUpdates f0)) = 0)
    by (rewrite Hz; reflexivity).
  assert (HzT : SendTransactions (Errors (fr_statsUpdates f0)) = 0)
    by (rewrite Hz; reflexivity).
  pose proof (sendErrors_cases (loop_sender (fr_loop f0)) (w_Transport w)
                (fr_statsUpdates f0) (sendPhaseErrors w f0)) as HE.
  pose proof (sendTransactions_cases (loop_sender (fr_loop f0))
                (w_Transport w) (statsAfter (sendPhaseErrorsResult w f0))
                (transactions (fr_loop f0))) as HT.
  cbv zeta in HE, HT.
  fold (sendPhaseErrorsResult w f0) in HE.
  fold (sendPhaseTransactionsResult w f0) in HT.
  assert (HsE : SendErrors (Errors (statsAfter (sendPhaseErrorsResult w f0)))
                = if sendFailed (sendPhaseErrorsResult w f0)
                       (sendPhaseErrors w f0) then 1 else 0).
  { unfold sendFailed.
    destruct HE as [[Hn Hr]|[(Hn & _ & Ho & H1 & _)|(Hn & Ho & H1 & _)]].
    - rewrite Hr, Hn. simpl. exact HzE.
    - rewrite Ho. simpl. congruence.
    - rewrite Ho, (len_zero_false _ Hn). simpl. rewrite H1, HzE. reflexivity. }
  assert (HsE' : SendTransactions
                   (Errors (statsAfter (sendPhaseErrorsResult w f0))) = 0).
  { destruct HE as [[Hn Hr]|[(Hn & _ & Ho & _ & H1 & _)|(Hn & Ho & _ & H1 & _)]].
    - rewrite Hr. exact HzT.
    - congruence.
    - congruence. }
  assert (HsT : SendTransactions
                  (Errors (statsAfter (sendPhaseTransactionsResult w f0)))
                = if sendFailed (sendPhaseTransactionsResult w f0)
                       (transactions (fr_loop f0)) then 1 else 0).
  { unfold sendFailed.
    destruct HT as [[Hn Hr]|[(Hn & _ & Ho & _ & H1 & _)|(Hn & Ho & _ & H1 & _)]].
    - rewrite Hr, Hn. simpl. exact HsE'.
    - rewrite Ho. simpl. congruence.
    - rewrite Ho, (len_zero_false _ Hn). simpl. rewrite H1, HsE'. reflexivity. }
  assert (HsT' : SendErrors
                   (Errors (statsAfter (sendPhaseTransactionsResult w f0)))
                 = SendErrors
                     (Errors (statsAfter (sendPhaseErrorsResult w f0)))).
  { destruct HT as [[Hn Hr]|[(Hn & _ & Ho & H1 & _)|(Hn & Ho & H1 & _)]].
    - rewrite Hr. reflexivity.
    - exact H1.
    - exact H1. }
  repeat split; assumption.
Qed.

Ltac finish_cases :=
  unfold signalFlushed, startTimer, sendFailed in *; simpl in *;
  repeat match goal with
         | H : outcome ?r = _ |- _ => rewrite H in *
         end;
  simpl in *; try discriminate;
  repeat match goal with
         | |- context [match ?x with _ => _ end] => is_var x; destruct x
         end;
  simpl; rewrite ?app_nil_r, <- ?app_assoc; simpl; reflexivity.

Lemma sendPhase_closed_form (w : World) (b : bool) (f0 : Frame) :
  Errors (fr_statsUpdates f0) = Errors zeroStats ->
  sendPhase w b f0 = sendPhaseClosedForm w b f0.
Proof.
  intro Hz.
  unfold sendPhase, sendPhaseClosedForm, sendPhaseEnding, sendPhaseFailed.
  assert (HzE : SendErrors (Errors (fr_statsUpdates f0)) = 0)
    by (rewrite Hz; reflexivity).
  assert (HzT : SendTransactions (Errors (fr_statsUpdates f0)) = 0)
    by (rewrite Hz; reflexivity).
  destruct (send_results_failure_counters w f0 Hz)
    as (HsE & HsE' & HsT & HsT').
  destruct b.
  - rewrite stageSendTransactions_eq. cbv zeta. simpl fr_trace.
    rewrite stageSendErrors_eq. cbv zeta. simpl.
    fold (sendPhaseErrors w f0). fold (sendPhaseErrorsResult w f0).
    fold (sendPhaseTransactionsResult w f0).
    unfold recycleErrors, recycleTransactions.
    set (rE := sendPhaseErrorsResult w f0) in *.
    set (rT := sendPhaseTransactionsResult w f0) in *.
    set (queue := sendPhaseErrors w f0) in *.
    clearbody rE rT queue.
    destruct f0 as [l0 st0 tr0]. simpl in *.
    destruct (sendFailed rE queue) eqn:FE;
      [|destruct (sendFailed rT (transactions l0)) eqn:FT].
    + rewrite stageFinish_failed
        by (simpl; right; rewrite HsT', HsE; discriminate).
      simpl. destruct (isZero (statsAfter rT)) eqn:Ez.
      { apply isZero_no_failure in Ez. destruct Ez as [_ Ez].
        rewrite HsT', HsE in Ez. discriminate. }
      destruct l0; destruct (outcome rE) eqn:OE, (outcome rT) eqn:OT;
        finish_cases.
    + rewrite stageFinish_failed
        by (simpl; left; rewrite HsT; discriminate).
      simpl. destruct (isZero (statsAfter rT)) eqn:Ez.
      { apply isZero_no_failure in Ez. destruct Ez as [Ez _].
        rewrite HsT in Ez. discriminate. }
      destruct l0; destruct (outcome rE) eqn:OE, (outcome rT) eqn:OT;
        finish_cases.
    + rewrite stageFinish_ok by (simpl; congruence).
      simpl. destruct (isZero (statsAfter rT));
        destruct l0; destruct (outcome rE) eqn:OE, (outcome rT) eqn:OT;
        finish_cases.
  - rewrite stageSendTransactions_skip.
    rewrite stageSendErrors_eq. cbv zeta. simpl.
    fold (sendPhaseErrors w f0). fold (sendPhaseErrorsResult w f0).
    unfold recycleErrors.
    set (rE := sendPhaseErrorsResult w f0) in *.
    set (queue := sendPhaseErrors w f0) in *.
    clearbody rE queue. clear HsT HsT'.
    destruct f0 as [l0 st0 tr0]. simpl in *.
    rewrite orb_false_r.
    destruct (sendFailed rE queue) eqn:FE.
    + rewrite stageFinish_failed
        by (simpl; right; rewrite HsE; discriminate).
      simpl. destruct (isZero (statsAfter rE)) eqn:Ez.
      { apply isZero_no_failure in Ez. destruct Ez as [_ Ez].
        rewrite HsE in Ez. discriminate. }
      destruct l0; destruct (outcome rE) eqn:OE; finish_cases.
    + rewrite stageFinish_ok by (simpl; congruence).
      simpl. destruct (isZero (statsAfter rE));
        destruct l0; destruct (outcome rE) eqn:OE; finish_cases.
Qed.

(** ** Reading a trace *)

Lemma flat_map_none {A B : Type} (g : A -> list B) (l : list A) :
  Forall (fun x => g x = []) l -> flat_map g l = [].
Proof.
  induction 1 as [|x l Hx _ IH]; simpl; [reflexivity|]. rewrite Hx. exact IH.
Qed.

Lemma sendErrors_calls (s : sender) (tr : transport.Transport)
    (stats : TracerStats) (errs : list Error) :
  Forall (fun ef => isSenderCall ef = true) (calls (sendErrors s tr stats errs)).
Proof.
  assert (Hp : forall pre, Forall (fun ef => isPreparation ef = true) pre ->
                           Forall (fun ef => isSenderCall ef = true) pre).
  { intros pre H. eapply Forall_impl; [|exact H]. intros ef E.
    unfold isSenderCall. rewrite E. reflexivity. }
  destruct (sendErrors_cases s tr stats errs)
    as [[_ Hr]|[(_ & _ & _ & _ & _ & pre & Hpre & Hc)
               |(_ & _ & _ & _ & pre & err & _ & Hpre & Hc)]].
  - rewrite Hr. constructor.
  - rewrite Hc. apply Forall_app. split; [apply Hp, Hpre|repeat constructor].
  - rewrite Hc. apply Forall_app. split; [apply Hp, Hpre|].
    constructor; [reflexivity|]. apply Hp, logDebugf_preparation.
Qed.

Lemma sendTransactions_calls (s : sender) (tr : transport.Transport)
    (stats : TracerStats) (txs : list Transaction) :
  Forall (fun ef => isSenderCall ef = true)
    (calls (sendTransactions s tr stats txs)).
Proof.
  assert (Hp : forall pre, Forall (fun ef => isPreparation ef = true) pre ->
                           Forall (fun ef => isSenderCall ef = true) pre).
  { intros pre H. eapply Forall_impl; [|exact H]. intros ef E.
    unfold isSenderCall. rewrite E. reflexivity. }
  destruct (sendTransactions_cases s tr stats txs)
    as [[_ Hr]|[(_ & _ & _ & _ & _ & pre & Hpre & Hc)
               |(_ & _ & _ & _ & pre & err & _ & Hpre & Hc)]].
  - rewrite Hr. constructor.
  - rewrite Hc. apply Forall_app. split; [apply Hp, Hpre|repeat constructor].
  - rewrite Hc. apply Forall_app. split; [apply Hp, Hpre|].
    constructor; [reflexivity|]. apply Hp, logDebugf_preparation.
Qed.

(** A reading of the trace that ignores the sender's calls and the
    recycling of records sees nothing of them. *)
Lemma flat_map_sender_calls {B : Type} (g : Effect -> list B)
    (l : list Effect) :
  (forall ef, isSenderCall ef = true -> g ef = []) ->
  Forall (fun ef => isSenderCall ef = true) l -> flat_map g l = [].
Proof.
  intros Hg H. apply flat_map_none. eapply Forall_impl; [|exact H]. exact Hg.
Qed.

Lemma flat_map_recycle {B : Type} (g : Effect -> list B) (l : list Effect) :
  (forall ef, isRecycle ef = true -> g ef = []) ->
  Forall (fun ef => isRecycle ef = true) l -> flat_map g l = [].
Proof.
  intros Hg H. apply flat_map_none. eapply Forall_impl; [|exact H]. exact Hg.
Qed.

Lemma recycleErrors_recycle (errs : list Error) :
  Forall (fun ef => isRecycle ef = true) (recycleErrors errs).
Proof. apply Forall_flat_map. intros. repeat constructor. Qed.

Lemma recycleTransactions_recycle (txs : list Transaction) :
  Forall (fun ef => isRecycle ef = true) (recycleTransactions txs).
Proof. apply Forall_flat_map. intros. repeat constructor. Qed.

Lemma eviction_recycle (l : list Effect) :
  Forall (fun ef => isEviction ef = true) l ->
  Forall (fun ef => isRecycle ef = true) l.
Proof.
  intro H. eapply Forall_impl; [|exact H]. intros ef.
  destruct ef; simpl; congruence.
Qed.

Lemma signals_sender (ef : Effect) : isSenderCall ef = true -> 
  match ef with SignalFlushed ch => [ch] | _ => [] end = [].
Proof. destruct ef; simpl; try reflexivity; discriminate. Qed.

Lemma signals_recycle (ef : Effect) : isRecycle ef = true -> 
  match ef with SignalFlushed ch => [ch] | _ => [] end = [].
Proof. destruct ef; simpl; try reflexivity; discriminate. Qed.

Lemma timerResets_sender (ef : Effect) : isSenderCall ef = true -> 
  match ef with TimerReset d => [d] | _ => [] end = [].
Proof. destruct ef; simpl; try reflexivity; discriminate. Qed.

Lemma timerResets_recycle (ef : Effect) : isRecycle ef = true -> 
  match ef with TimerReset d => [d] | _ => [] end = [].
Proof. destruct ef; simpl; try reflexivity; discriminate. Qed.

(** ** What a send reports, in terms of the Transport's answer *)

Lemma sendErrors_outcome (s : sender) (tr : transport.Transport)
    (stats : TracerStats) (errs : list Error) :
  outcome (sendErrors s tr stats errs)
  = negb (len errs =? 0)
    && match transport.SendErrors tr errs with None => true | Some _ => false end.
Proof.
  destruct (sendErrors_cases s tr stats errs)
    as [[Hn Hr]|[(Hn & Ht & Ho & _)|(Hn & Ho & _ & _ & pre & err & Ht & _)]].
  - rewrite Hr, Hn. reflexivity.
  - rewrite Ho, Ht, (len_zero_false _ Hn). reflexivity.
  - rewrite Ho, Ht, (len_zero_false _ Hn). reflexivity.
Qed.

Lemma sendTransactions_outcome (s : sender) (tr : transport.Transport)
    (stats : TracerStats) (txs : list Transaction) :
  outcome (sendTransactions s tr stats txs)
  = negb (len txs =? 0)
    && match transport.SendTransactions tr txs with
       | None => true
       | Some _ => false
       end.
Proof.
  destruct (sendTransactions_cases s tr stats txs)
    as [[Hn Hr]|[(Hn & Ht & Ho & _)|(Hn & Ho & _ & _ & pre & err & Ht & _)]].
  - rewrite Hr, Hn. reflexivity.
  - rewrite Ho, Ht, (len_zero_false _ Hn). reflexivity.
  - rewrite Ho, Ht, (len_zero_false _ Hn). reflexivity.
Qed.

Lemma sendPhaseFailed_spec (w : World) (b : bool) (f0 : Frame) :
  sendPhaseFailed w b f0
  = (negb (len (sendPhaseErrors w f0) =? 0)
     && match transport.SendErrors (w_Transport w) (sendPhaseErrors w f0) with
        | None => false
        | Some _ => true
        end)
    || (b && negb (len (transactions (fr_loop f0)) =? 0)
        && match transport.SendTransactions (w_Transport w)
                   (transactions (fr_loop f0)) with
           | None => false
           | Some _ => true
           end).
Proof.
  unfold sendPhaseFailed, sendFailed, sendPhaseErrorsResult,
    sendPhaseTransactionsResult.
  rewrite sendErrors_outcome, sendTransactions_outcome.
  destruct (len (sendPhaseErrors w f0) =? 0),
    (transport.SendErrors (w_Transport w) (sendPhaseErrors w f0)),
    b, (len (transactions (fr_loop f0)) =? 0),
    (transport.SendTransactions (w_Transport w) (transactions (fr_loop f0)));
    reflexivity.
Qed.

Lemma closed_form_reading {B : Type} (g : Effect -> list B) (w : World)
    (b : bool) (f0 : Frame) :
  (forall ef, isSenderCall ef = true -> g ef = []) ->
  (forall ef, isRecycle ef = true -> g ef = []) ->
  flat_map g (fr_trace (sendPhaseClosedForm w b f0))
  = flat_map g (fr_trace f0) ++ flat_map g (sendPhaseEnding w b f0).
Proof.
  intros Hs Hr. unfold sendPhaseClosedForm. simpl.
  rewrite !flat_map_app.
  assert (HcE : flat_map g (calls (sendPhaseErrorsResult w f0)) = [])
    by (apply (flat_map_sender_calls g _ Hs), sendErrors_calls).
  assert (HcT : flat_map g (calls (sendPhaseTransactionsResult w f0)) = [])
    by (apply (flat_map_sender_calls g _ Hs), sendTransactions_calls).
  rewrite HcE.
  assert (HE : flat_map g
                 (if outcome (sendPhaseErrorsResult w f0)
                  then recycleErrors (sendPhaseErrors w f0) else []) = []).
  { destruct (outcome _); [|reflexivity].
    apply (flat_map_recycle g _ Hr), recycleErrors_recycle. }
  rewrite HE. simpl. f_equal.
  destruct b; [|reflexivity].
  rewrite flat_map_app, HcT.
  destruct (outcome (sendPhaseTransactionsResult w f0)); [|reflexivity].
  simpl. rewrite (flat_map_recycle g _ Hr (recycleTransactions_recycle _)).
  reflexivity.
Qed.

Lemma select_Continue_trace (ev : Event) (l l1 : Loop) (stats : TracerStats)
    (tr : list Effect) :
  select ev l = Some (Continue l1 stats tr) ->
  signals tr = [] /\ filter isTransportCall tr = []
  /\ flushed l1 = flushed l /\ forceFlush l1 = forceFlush l
  /\ errors l1 = errors l.
Proof.
  destruct ev; simpl; intro H; try discriminate;
    try (inversion H; subst; simpl; repeat split; reflexivity).
  - destruct ((n <=? 0) || _) in H; inversion H; subst; simpl;
      repeat split; reflexivity.
  - destruct ((n <=? 0) || _) in H; inversion H; subst; simpl;
      repeat split; reflexivity.
  - destruct (errorsC l); discriminate.
  - pose proof (receivedTransaction_eviction (maxTransactionQueueSize l)
                  (transactions l) tx zeroStats) as He.
    destruct (receivedTransaction (maxTransactionQueueSize l)
                (transactions l) tx zeroStats) as [[q1 s1] t1].
    simpl in He. destruct He as [He _]. simpl in H.
    assert (Hs : signals t1 = []).
    { apply flat_map_recycle; [apply signals_recycle|].
      apply eviction_recycle, He. }
    pose proof (eviction_not_transport t1 He) as Ht.
    destruct ((len q1 =? len (transactions l)) && flushC l).
    + inversion H; subst; simpl. repeat split; assumption.
    + destruct ((maxTransactionQueueSize l <=? 0)
                || (len q1 <? maxTransactionQueueSize l)); [|discriminate].
      unfold startTimer in H. simpl in H.
      destruct (flushC l); inversion H; subst; simpl;
        unfold signals in *; rewrite ?flat_map_app, ?filter_app, ?Hs, ?Ht;
        repeat split; reflexivity.
  - destruct (flushC l); discriminate.
  - destruct (forceFlush l); [|discriminate].
    destruct (drainTransactions _ _ _ _) as [[q1 s1] t1]. discriminate.
Qed.

(** The select statement touches [flushed] and [forceFlush] only when it
    accepts a Flush request. *)
Lemma select_SendPhase_flush (ev : Event) (l l1 : Loop) (stats : TracerStats)
    (b : bool) (tr : list Effect) :
  select ev l = Some (SendPhase l1 stats b tr) ->
  (flushed l1 = flushed l /\ forceFlush l1 = forceFlush l)
  \/ (exists ch buffered,
        ev = RecvForceFlush ch buffered /\ forceFlush l = true
        /\ flushed l1 = Some ch /\ forceFlush l1 = false /\ b = true).
Proof.
  destruct ev; simpl; intro H; try discriminate.
  - destruct ((n <=? 0) || _) in H; inversion H; subst. left. split; reflexivity.
  - destruct ((n <=? 0) || _) in H; discriminate.
  - destruct (errorsC l); inversion H; subst. left. split; reflexivity.
  - destruct (receivedTransaction _ _ _ _) as [[q1 s1] t1]. simpl in H.
    destruct ((len q1 =? len (transactions l)) && flushC l); [discriminate|].
    destruct ((maxTransactionQueueSize l <=? 0) || _).
    + unfold startTimer in H. simpl in H. destruct (flushC l); discriminate.
    + inversion H; subst. left. split; reflexivity.
  - destruct (flushC l); inversion H; subst. left. split; reflexivity.
  - destruct (forceFlush l) eqn:Ef; [|discriminate].
    destruct (drainTransactions _ _ _ _) as [[q1 s1] t1].
    inversion H; subst. right. exists ch, buffered. repeat split.
Qed.

(** An iteration that enters the send phase ends in the closed form. *)
Lemma iteration_SendPhase (w : World) (ev : Event) (l l1 : Loop)
    (stats : TracerStats) (b : bool) (tr : list Effect) :
  select ev l = Some (SendPhase l1 stats b tr) ->
  iteration w ev l
  = Some (Some (sendPhaseClosedForm w b (mkFrame l1 stats tr))).
Proof.
  intro H. unfold iteration. rewrite H.
  rewrite sendPhase_closed_form; [reflexivity|].
  simpl. apply (select_SendPhase ev l l1 stats b tr H).
Qed.

(** ** Forced flush *)

Lemma closed_form_signals (w : World) (b : bool) (f0 : Frame) :
  signals (fr_trace (sendPhaseClosedForm w b f0))
  = signals (fr_trace f0)
    ++ (if negb (sendPhaseFailed w b f0) && b
        then optionList (flushed (fr_loop f0)) else []).
Proof.
  unfold signals.
  rewrite (closed_form_reading _ w b f0 signals_sender signals_recycle).
  f_equal. unfold sendPhaseEnding.
  destruct (sendPhaseFailed w b f0); simpl;
    [destruct (flushC (fr_loop f0)); reflexivity|].
  destruct b; [|reflexivity]. destruct (flushed (fr_loop f0)); reflexivity.
Qed.

Lemma closed_form_timerResets (w : World) (b : bool) (f0 : Frame) :
  timerResets (fr_trace (sendPhaseClosedForm w b f0))
  = timerResets (fr_trace f0)
    ++ (if sendPhaseFailed w b f0 && negb (flushC (fr_loop f0))
        then [flushInterval (fr_loop f0)] else []).
Proof.
  unfold timerResets.
  rewrite (closed_form_reading _ w b f0 timerResets_sender timerResets_recycle).
  f_equal. unfold sendPhaseEnding.
  destruct (sendPhaseFailed w b f0); simpl;
    [destruct (flushC (fr_loop f0)); reflexivity|].
  destruct b; [|reflexivity]. destruct (flushed (fr_loop f0)); reflexivity.
Qed.

Lemma eviction_signals (tr : list Effect) :
  Forall (fun ef => isEviction ef = true) tr -> signals tr = [].
Proof.
  intro H. apply flat_map_recycle; [apply signals_recycle|].
  apply eviction_recycle, H.
Qed.

Lemma eviction_timerResets (tr : list Effect) :
  Forall (fun ef => isEviction ef = true) tr -> timerResets tr = [].
Proof.
  intro H. apply flat_map_recycle; [apply timerResets_recycle|].
  apply eviction_recycle, H.
Qed.

(** The gate is kept by every iteration. *)
Lemma flushGate_step (w : World) (ev : Event) (l : Loop) (f : Frame) :
  flushGate l -> iteration w ev l = Some (Some f) -> flushGate (fr_loop f).
Proof.
  intros Hg Hit. unfold iteration in Hit.
  destruct (select ev l) as [[|l1 st tr|l1 st b tr]|] eqn:Hsel;
    try discriminate.
  - inversion Hit; subst. simpl.
    destruct (select_Continue_trace ev l l1 st tr Hsel)
      as (_ & _ & H1 & H2 & _).
    unfold flushGate in *. rewrite H1, H2. exact Hg.
  - rewrite sendPhase_closed_form in Hit
      by (simpl; apply (select_SendPhase ev l l1 st b tr Hsel)).
    inversion Hit; subst. clear Hit.
    assert (Hg1 : flushGate l1).
    { destruct (select_SendPhase_flush ev l l1 st b tr Hsel)
        as [[H1 H2]|(ch & buf & _ & _ & H1 & H2 & _)];
        unfold flushGate in *; rewrite H1, H2; [exact Hg|reflexivity]. }
    unfold flushGate in *. unfold sendPhaseClosedForm. simpl.
    destruct (negb (sendPhaseFailed w b (mkFrame l1 st tr)) && b);
      [|exact Hg1].
    destruct (flushed l1); [reflexivity|exact Hg1].
Qed.

Lemma reachable_flushGate (l : Loop) : reachable l -> flushGate l.
Proof.
  induction 1 as [|w ev l f _ IH _ _ Hit]; [reflexivity|].
  exact (flushGate_step w ev l f IH Hit).
Qed.

(** ** Runs *)

Lemma run_reachable (sched : list (World * Event)) :
  forall (l l' : Loop) (tr : list Effect),
    reachable l -> wf_schedule sched -> run sched l = Some (l', tr) ->
    reachable l'.
Proof.
  induction sched as [|[w ev] rest IH]; intros l l' tr Hr Hwf Hrun;
    simpl in Hrun.
  - inversion Hrun; subst. exact Hr.
  - inversion Hwf as [|x xs [Hw He] Hrest]; subst. simpl in Hw, He.
    destruct (iteration w ev l) as [[f|]|] eqn:Hit; try discriminate.
    + destruct (run rest (fr_loop f)) as [[l2 tr2]|] eqn:Hrest'; [|discriminate].
      inversion Hrun; subst.
      apply (IH (fr_loop f) l' tr2); [|exact Hrest|exact Hrest'].
      exact (reachable_step w ev l f Hr Hw He Hit).
    + inversion Hrun; subst. exact Hr.
Qed.

Lemma wf_world_failing : wf_world failingWorld.
Proof. unfold wf_world. vm_compute. discriminate. Qed.

Lemma wf_world_discard : wf_world discardWorld.
Proof. unfold wf_world. vm_compute. discriminate. Qed.

Lemma int_ok_small (n : Z) : 0 <= n <= tenSeconds -> int_ok n.
Proof. unfold int_ok, int_min, int_max, tenSeconds. lia. Qed.

(** ** The cap on the errors queue *)


Lemma errView_inv (l l' : Loop) :
  errView l' = errView l ->
  maxErrorQueueSize l' = maxErrorQueueSize l
  /\ errors l' = errors l /\ errorsC l' = errorsC l.
Proof. unfold errView. intro H. inversion H. repeat split; assumption. Qed.

Lemma capRespected_errView (l l' : Loop) :
  errView l' = errView l -> capRespected l -> capRespected l'.
Proof.
  intros H Hc. apply errView_inv in H. destruct H as (H1 & H2 & _).
  unfold capRespected in *. rewrite H1, H2. exact Hc.
Qed.

Lemma errorsGate_errView (l l' : Loop) :
  errView l' = errView l -> errorsGate l -> errorsGate l'.
Proof.
  intros H Hg. apply errView_inv in H. destruct H as (H1 & H2 & H3).
  unfold errorsGate in *. rewrite H1, H2, H3. exact Hg.
Qed.

Lemma select_errView (ev : Event) (l : Loop) :
  match select ev l with
  | Some (Continue l1 _ _) =>
      match ev with
      | RecvMaxErrorQueueSize n =>
          errView l1
          = (n, errors l,
             if (n <=? 0) || (len (errors l) <? n) then true else errorsC l)
      | _ => errView l1 = errView l
      end
  | Some (SendPhase l1 _ _ _) =>
      match ev with
      | RecvError e =>
          errorsC l = true
          /\ errView l1 = (maxErrorQueueSize l, errors l ++ [e], true)
      | _ => errView l1 = errView l
      end
  | _ => True
  end.
Proof.
  destruct ev; simpl; try reflexivity.
  - destruct ((n <=? 0) || _); reflexivity.
  - destruct ((n <=? 0) || _); reflexivity.
  - destruct (errorsC l) eqn:E; [|exact I]. split; [reflexivity|].
    unfold errView. simpl. rewrite E. reflexivity.
  - destruct (receivedTransaction _ _ _ _) as [[q1 s1] t1]. simpl.
    destruct ((len q1 =? len (transactions l)) && flushC l); [reflexivity|].
    destruct ((maxTransactionQueueSize l <=? 0) || _); [|reflexivity].
    unfold startTimer. simpl. destruct (flushC l); reflexivity.
  - destruct (flushC l); [reflexivity|exact I].
  - destruct (forceFlush l); [|exact I].
    destruct (drainTransactions _ _ _ _) as [[q1 s1] t1]. reflexivity.
Qed.

Lemma stageSendTransactions_errView (w : World) (b : bool) (f : Frame) :
  errView (fr_loop (stageSendTransactions w b f)) = errView (fr_loop f).
Proof.
  destruct b; [|reflexivity]. rewrite stageSendTransactions_eq. reflexivity.
Qed.

Lemma stageFinish_errView (b : bool) (f : Frame) :
  errView (fr_loop (stageFinish b f)) = errView (fr_loop f).
Proof.
  unfold stageFinish, signalFlushed, startTimer.
  destruct (isZero (fr_statsUpdates f)); simpl.
  - destruct (flushed (fr_loop f)); [destruct b|]; reflexivity.
  - destruct (negb _ || negb _); simpl.
    + destruct (flushC (fr_loop f)); reflexivity.
    + destruct (flushed (fr_loop f)); [destruct b|]; reflexivity.
Qed.

(** The drain stops at the cap. *)
Lemma drainErrors_bound (max : Z) (queue buffered : list Error) :
  int_ok max -> 0 < max -> len queue <= max ->
  len (drainErrors max queue buffered) <= max.
Proof.
  intros Hok Hpos Hlen. rewrite drainErrors_spec, len_app.
  pose proof (len_nonneg queue) as Hq.
  unfold int_sub. rewrite (int_wrap_small (max - len queue))
    by (unfold int_ok, int_min, int_max in *; lia).
  unfold len at 2. rewrite length_firstn. unfold len in *. lia.
Qed.

(** From a state within the cap at the start of the send phase, every
    point of the phase is within the cap and the gate holds at its end. *)
Lemma send_phase_within_cap (w : World) (b : bool) (f0 : Frame) :
  int_ok (maxErrorQueueSize (fr_loop f0)) ->
  capRespected (fr_loop f0) ->
  let f1 := stageDrainErrors w f0 in
  let f2 := stageSendErrors w f1 in
  let f3 := stageSendTransactions w b f2 in
  let f4 := stageFinish b f3 in
  Forall capRespected (map fr_loop [f0; f1; f2; f3; f4])
  /\ errorsGate (fr_loop f4).
Proof.
  intros Hok Hc f1 f2 f3 f4.
  assert (Hc1 : capRespected (fr_loop f1)).
  { unfold capRespected in *. subst f1. simpl. intro Hpos.
    apply drainErrors_bound; [exact Hok|exact Hpos|exact (Hc Hpos)]. }
  assert (Hg2 : errorsGate (fr_loop f2)).
  { subst f2. rewrite stageSendErrors_eq. cbv zeta.
    unfold errorsGate, capRespected in *. subst f1. simpl in *.
    split; [exact Hok|]. intro Hpos. specialize (Hc1 Hpos).
    destruct (outcome _).
    - unfold len. simpl. split; [lia|intros _; lia].
    - split; [exact Hc1|].
      destruct (len _ =? maxErrorQueueSize (fr_loop f0)) eqn:E;
        [discriminate|]. apply Z.eqb_neq in E. intros _. lia. }
  assert (Hg3 : errorsGate (fr_loop f3))
    by (apply (errorsGate_errView (fr_loop f2));
        [apply stageSendTransactions_errView|exact Hg2]).
  assert (Hg4 : errorsGate (fr_loop f4))
    by (apply (errorsGate_errView (fr_loop f3));
        [apply stageFinish_errView|exact Hg3]).
  assert (Hweak : forall l, errorsGate l -> capRespected l).
  { intros l [_ H] Hpos. exact (proj1 (H Hpos)). }
  split; [|exact Hg4].
  simpl. repeat constructor; auto.
Qed.

(** One iteration keeps the gate and stays within the cap at each of its
    points. *)
Lemma errorsGate_step (w : World) (ev : Event) (l : Loop) :
  errorsGate l -> wf_event ev -> capKept ev l ->
  Forall capRespected (programPoints w ev l)
  /\ (forall f, iteration w ev l = Some (Some f) -> errorsGate (fr_loop f)).
Proof.
  intros Hg Hwf Hk.
  pose proof (select_errView ev l) as Hv.
  unfold programPoints, iteration.
  destruct (select ev l) as [[|l1 st tr|l1 st b tr]|] eqn:Hsel.
  - split; [constructor|discriminate].
  - assert (Hg1 : errorsGate l1).
    { destruct ev; try (apply (errorsGate_errView l); assumption).
      unfold errView in Hv. injection Hv as H1 H2 H3.
      unfold errorsGate. rewrite H1, H2, H3. simpl in Hwf, Hk.
      split; [exact Hwf|]. intro Hpos. specialize (Hk Hpos).
      destruct Hk as [Hk|[Hk Hc]].
      - split; [lia|intros _; exact Hk].
      - split; [lia|].
        assert (E1 : (n <=? 0) = false) by (apply Z.leb_gt; lia).
        assert (E2 : (len (errors l) <? n) = false) by (apply Z.ltb_ge; lia).
        rewrite E1, E2, Hc. simpl. discriminate. }
    split.
    + repeat constructor. intro Hpos. exact (proj1 (proj2 Hg1 Hpos)).
    + intros f Hf. inversion Hf; subst. exact Hg1.
  - assert (H1 : int_ok (maxErrorQueueSize l1) /\ capRespected l1).
    { destruct ev;
        try (apply errView_inv in Hv; destruct Hv as (H1 & H2 & _);
             unfold capRespected; rewrite H1, H2;
             split; [exact (proj1 Hg)|];
             intro Hpos; exact (proj1 (proj2 Hg Hpos))).
      destruct Hv as [Hc Hv]. unfold errView in Hv.
      injection Hv as H1 H2 _. unfold capRespected. rewrite H1, H2.
      split; [exact (proj1 Hg)|]. intro Hpos.
      destruct (proj2 Hg Hpos) as [_ Hlt]. specialize (Hlt Hc).
      rewrite len_app. unfold len at 2. simpl. lia. }
    destruct H1 as [Hok Hc1].
    destruct (send_phase_within_cap w b (mkFrame l1 st tr) Hok Hc1)
      as [Hall Hg4].
    split; [exact Hall|].
    intros f Hf. inversion Hf; subst. exact Hg4.
  - split; [constructor|discriminate].
Qed.

Lemma reachableKeepingCap_errorsGate (l : Loop) :
  reachableKeepingCap l -> errorsGate l.
Proof.
  induction 1 as [|w ev l f _ IH _ Hwf Hk Hit].
  - unfold errorsGate, loop_init, int_ok, int_min, int_max. simpl.
    split; lia.
  - exact (proj2 (errorsGate_step w ev l IH Hwf Hk) f Hit).
Qed.

(** Past the lowered cap the queue even grows: the errors case stays
    enabled, and the send phase disables it only at equality. *)
Lemma error_queue_grows_past_cap :
  exists (l : Loop) (tr : list Effect),
    run pastCapSchedule loop_init = Some (l, tr)
    /\ maxErrorQueueSize l = 2 /\ len (errors l) = 4 /\ errorsC l = true.
Proof.
  eexists. eexists. split; [vm_compute; reflexivity|].
  repeat split.
Qed.

(** ** An unlimited cap of zero *)

(** C7, on the code: on a new tracer, after [SetMaxErrorQueueSize(0)] a
    Flush with nothing queued signals completion and leaves [errorsC] nil, since
    [sendErrors] returns false on the empty batch and
    [len(errors) == maxErrorQueueSize] holds as 0 == 0.  From then on the
    errors case of the select statement cannot fire. *)
Theorem zero_cap_suspends_error_ingress :
  exists (l : Loop),
    run unlimitedCapSchedule loop_init = Some (l, [SignalFlushed 7])
    /\ wf_schedule unlimitedCapSchedule
    /\ reachable l
    /\ maxErrorQueueSize l = 0
    /\ errors l = []
    /\ errorsC l = false
    /\ forall (w : World) (e : Error), iteration w (RecvError e) l = None.
Proof.
  assert (Hwf : wf_schedule unlimitedCapSchedule).
  { unfold wf_schedule, unlimitedCapSchedule, newTracer. simpl.
    repeat constructor; simpl; try apply wf_world_discard;
      try (apply int_ok_small; unfold tenSeconds; lia);
      try (unfold len, transactionsChannelCap; simpl; lia). }
  eexists. split; [vm_compute; reflexivity|].
  split; [exact Hwf|]. split.
  - eapply (run_reachable unlimitedCapSchedule loop_init);
      [apply reachable_init|exact Hwf|vm_compute; reflexivity].
  - repeat split.
Qed.

(** With a negative cap the equality can never hold: an iteration that
    does not change the cap leaves the errors case enabled. *)
Lemma negative_cap_keeps_error_ingress (w : World) (ev : Event) (l : Loop)
    (f : Frame) :
  maxErrorQueueSize l < 0 -> errorsC l = true ->
  (forall n, ev <> RecvMaxErrorQueueSize n) ->
  iteration w ev l = Some (Some f) ->
  maxErrorQueueSize (fr_loop f) < 0 /\ errorsC (fr_loop f) = true.
Proof.
  intros Hneg Hc Hev Hit. unfold iteration in Hit.
  pose proof (select_errView ev l) as Hv.
  destruct (select ev l) as [[|l1 st tr|l1 st b tr]|] eqn:Hsel;
    try discriminate.
  - inversion Hit; subst. simpl.
    destruct ev; try (apply errView_inv in Hv; destruct Hv as (H1 & _ & H3);
                      rewrite H1, H3; split; assumption).
    exfalso. apply (Hev n). reflexivity.
  - assert (H1 : maxErrorQueueSize l1 = maxErrorQueueSize l
                 /\ errorsC l1 = true).
    { destruct ev;
        try (apply errView_inv in Hv; destruct Hv as (H1 & _ & H3);
             rewrite H1, H3; split; [reflexivity|assumption]).
      destruct Hv as [_ Hv]. unfold errView in Hv. injection Hv as H1 _ H3.
      split; assumption. }
    destruct H1 as [Hm He]. inversion Hit; subst f. clear Hit.
    unfold sendPhase.
    destruct (errView_inv _ _ (stageFinish_errView b
               (stageSendTransactions w b
                  (stageSendErrors w (stageDrainErrors w (mkFrame l1 st tr))))))
      as (F1 & _ & F3).
    destruct (errView_inv _ _ (stageSendTransactions_errView w b
               (stageSendErrors w (stageDrainErrors w (mkFrame l1 st tr)))))
      as (G1 & _ & G3).
    rewrite F1, F3, G1, G3. rewrite stageSendErrors_eq. cbv zeta. simpl.
    rewrite Hm, He. split; [exact Hneg|].
    destruct (outcome _); [reflexivity|].
    match goal with
    | |- (if ?c then _ else _) = _ => destruct c eqn:E
    end; [|reflexivity].
    apply Z.eqb_eq in E.
    match type of E with
    | len ?q = _ => pose proof (len_nonneg q)
    end. lia.
Qed.

(** ** Pool returns *)

(** C6, as stated, fails: on a new tracer with two transactions queued,
    the cap then set to one and a third arrival, the two oldest records are reset and returned to the
    pool although no Transport call ever carried them. *)
Lemma evicted_transactions_pooled_unsent :
  exists (l : Loop) (tr : list Effect),
    run evictionSchedule loop_init = Some (l, tr)
    /\ wf_schedule evictionSchedule
    /\ pooledTransactions tr = [sampleTx 1; sampleTx 2; sampleTx 3]
    /\ sentTransactions tr = [sampleTx 3]
    /\ In (sampleTx 1) (pooledTransactions tr)
    /\ ~ In (sampleTx 1) (sentTransactions tr).
Proof.
  assert (Hwf : wf_schedule evictionSchedule).
  { unfold wf_schedule, evictionSchedule, newTracer. simpl.
    repeat constructor; simpl; try apply wf_world_discard;
      try (apply int_ok_small; unfold tenSeconds; lia). }
  eexists. eexists. split; [vm_compute; reflexivity|].
  split; [exact Hwf|]. split; [reflexivity|]. split; [reflexivity|].
  split; [left; reflexivity|].
  simpl. intros [H|[]]. discriminate.
Qed.

Lemma reading_preparation {B : Type} (g : Effect -> list B) (l : list Effect) :
  (forall ef, isPreparation ef = true -> g ef = []) ->
  Forall (fun ef => isPreparation ef = true) l -> flat_map g l = [].
Proof.
  intros Hg H. apply flat_map_none. eapply Forall_impl; [|exact H]. exact Hg.
Qed.

Lemma reading_eviction {B : Type} (g : Effect -> list B) (l : list Effect) :
  (forall ef, isEviction ef = true -> g ef = []) ->
  Forall (fun ef => isEviction ef = true) l -> flat_map g l = [].
Proof.
  intros Hg H. apply flat_map_none. eapply Forall_impl; [|exact H]. exact Hg.
Qed.

Ltac by_effect := let ef := fresh "ef" in
  intros ef; destruct ef; simpl; try reflexivity; discriminate.

Lemma logDebugf_reading {B : Type} (g : Effect -> list B)
    (l : option Logger) (fmt : string) (err : error) :
  (forall ef, isPreparation ef = true -> g ef = []) ->
  flat_map g (logDebugf l fmt err) = [].
Proof.
  intro Hg. apply (reading_preparation g _ Hg), logDebugf_preparation.
Qed.

(** What the four readings see of a send of errors. *)
Lemma sendErrors_readings (s : sender) (tr : transport.Transport)
    (stats : TracerStats) (errs : list Error) :
  let r := sendErrors s tr stats errs in
  pooledErrors (calls r) = []
  /\ resetErrors (calls r) = []
  /\ deliveredErrors (calls r) = (if outcome r then errs else [])
  /\ pooledTransactions (calls r) = []
  /\ resetTransactions (calls r) = []
  /\ deliveredTransactions (calls r) = [].
Proof.
  intro r. subst r.
  destruct (sendErrors_cases s tr stats errs)
    as [[_ Hr]|[(_ & _ & Ho & _ & _ & pre & Hpre & Hc)
               |(_ & Ho & _ & _ & pre & err & _ & Hpre & Hc)]].
  - rewrite Hr. repeat split.
  - rewrite Hc, Ho.
    unfold pooledErrors, resetErrors, deliveredErrors, pooledTransactions,
      resetTransactions, deliveredTransactions.
    rewrite !flat_map_app. simpl.
    rewrite !(reading_preparation _ pre) by (try by_effect; exact Hpre).
    rewrite ?app_nil_r. repeat split.
  - rewrite Hc, Ho.
    unfold pooledErrors, resetErrors, deliveredErrors, pooledTransactions,
      resetTransactions, deliveredTransactions.
    rewrite !flat_map_app. simpl.
    rewrite !(reading_preparation _ pre) by (try by_effect; exact Hpre).
    rewrite !logDebugf_reading by by_effect.
    repeat split.
Qed.

(** What the four readings see of a send of transactions. *)
Lemma sendTransactions_readings (s : sender) (tr : transport.Transport)
    (stats : TracerStats) (txs : list Transaction) :
  let r := sendTransactions s tr stats txs in
  pooledErrors (calls r) = []
  /\ resetErrors (calls r) = []
  /\ deliveredErrors (calls r) = []
  /\ pooledTransactions (calls r) = []
  /\ resetTransactions (calls r) = []
  /\ deliveredTransactions (calls r) = (if outcome r then txs else []).
Proof.
  intro r. subst r.
  destruct (sendTransactions_cases s tr stats txs)
    as [[_ Hr]|[(_ & _ & Ho & _ & _ & pre & Hpre & Hc)
               |(_ & Ho & _ & _ & pre & err & _ & Hpre & Hc)]].
  - rewrite Hr. repeat split.
  - rewrite Hc, Ho.
    unfold pooledErrors, resetErrors, deliveredErrors, pooledTransactions,
      resetTransactions, deliveredTransactions.
    rewrite !flat_map_app. simpl.
    rewrite !(reading_preparation _ pre) by (try by_effect; exact Hpre).
    rewrite ?app_nil_r. repeat split.
  - rewrite Hc, Ho.
    unfold pooledErrors, resetErrors, deliveredErrors, pooledTransactions,
      resetTransactions, deliveredTransactions.
    rewrite !flat_map_app. simpl.
    rewrite !(reading_preparation _ pre) by (try by_effect; exact Hpre).
    rewrite !logDebugf_reading by by_effect.
    repeat split.
Qed.

Lemma recycleErrors_readings (errs : list Error) :
  pooledErrors (recycleErrors errs) = errs
  /\ resetErrors (recycleErrors errs) = errs
  /\ deliveredErrors (recycleErrors errs) = []
  /\ pooledTransactions (recycleErrors errs) = []
  /\ resetTransactions (recycleErrors errs) = []
  /\ deliveredTransactions (recycleErrors errs) = [].
Proof.
  unfold recycleErrors. induction errs as [|e errs IH]; simpl;
    [repeat split|].
  destruct IH as (H1 & H2 & H3 & H4 & H5 & H6).
  repeat split; try assumption; simpl; f_equal; assumption.
Qed.

Lemma recycleTransactions_readings (txs : list Transaction) :
  pooledErrors (recycleTransactions txs) = []
  /\ resetErrors (recycleTransactions txs) = []
  /\ deliveredErrors (recycleTransactions txs) = []
  /\ pooledTransactions (recycleTransactions txs) = txs
  /\ resetTransactions (recycleTransactions txs) = txs
  /\ deliveredTransactions (recycleTransactions txs) = [].
Proof.
  unfold recycleTransactions. induction txs as [|t txs IH]; simpl;
    [repeat split|].
  destruct IH as (H1 & H2 & H3 & H4 & H5 & H6).
  repeat split; try assumption; simpl; f_equal; assumption.
Qed.

Lemma sendPhaseEnding_readings (w : World) (b : bool) (f0 : Frame) :
  pooledErrors (sendPhaseEnding w b f0) = []
  /\ resetErrors (sendPhaseEnding w b f0) = []
  /\ deliveredErrors (sendPhaseEnding w b f0) = []
  /\ pooledTransactions (sendPhaseEnding w b f0) = []
  /\ resetTransactions (sendPhaseEnding w b f0) = []
  /\ deliveredTransactions (sendPhaseEnding w b f0) = [].
Proof.
  unfold sendPhaseEnding.
  destruct (sendPhaseFailed w b f0), (flushC (fr_loop f0)), b,
    (flushed (fr_loop f0)); repeat split.
Qed.

(** An evicted record is reset and then pooled; evictions concern
    transactions only. *)
Lemma eviction_readings (tr : list Effect) :
  Forall (fun ef => isEviction ef = true) tr ->
  pooledErrors tr = [] /\ resetErrors tr = [] /\ deliveredErrors tr = []
  /\ deliveredTransactions tr = [].
Proof.
  intro H. repeat split; apply (reading_eviction _ tr); try exact H; by_effect.
Qed.

Lemma receivedTransaction_trace (max : Z) (queue : list Transaction)
    (tx : Transaction) (stats : TracerStats) :
  let tr := snd (receivedTransaction max queue tx stats) in
  tr = recycleTransactions (pooledTransactions tr).
Proof.
  unfold receivedTransaction.
  destruct ((0 <? max) && (max <=? len queue)); simpl; [|reflexivity].
  fold (recycleTransactions
          (firstn (Z.to_nat (uint64 (len queue - max + 1))) queue)).
  rewrite (proj1 (proj2 (proj2 (proj2 (recycleTransactions_readings _))))).
  reflexivity.
Qed.

Lemma recycleTransactions_app (l1 l2 : list Transaction) :
  recycleTransactions (l1 ++ l2)
  = recycleTransactions l1 ++ recycleTransactions l2.
Proof. unfold recycleTransactions. apply flat_map_app. Qed.

Lemma drainTransactions_trace (max : Z) (buffered : list Transaction) :
  forall (queue : list Transaction) (stats : TracerStats),
    let tr := snd (drainTransactions max queue stats buffered) in
    tr = recycleTransactions (pooledTransactions tr).
Proof.
  induction buffered as [|tx rest IH]; intros queue stats; simpl;
    [reflexivity|].
  pose proof (receivedTransaction_trace max queue tx stats) as H.
  destruct (receivedTransaction max queue tx stats) as [[q1 s1] t1].
  specialize (IH q1 s1).
  destruct (drainTransactions max q1 s1 rest) as [[q2 s2] t2].
  simpl in *. unfold pooledTransactions in *. rewrite flat_map_app.
  rewrite recycleTransactions_app, <- H, <- IH. reflexivity.
Qed.

(** The calls of the select statement: the evictions of the case that fired,
    and a timer reset when it arms the timer. *)
Lemma select_trace (ev : Event) (l : Loop) :
  match select ev l with
  | Some (Continue _ _ tr) =>
      exists timer,
        tr = recycleTransactions (evictedBySelect ev l) ++ timer
        /\ (timer = [] \/ timer = [TimerReset (flushInterval l)])
  | Some (SendPhase _ _ _ tr) =>
      tr = recycleTransactions (evictedBySelect ev l)
  | _ => True
  end.
Proof.
  destruct ev; simpl; try exact I;
    try (exists []; split; [reflexivity|left; reflexivity]).
  - destruct ((n <=? 0) || _);
      [exists []; split; [reflexivity|left; reflexivity]|reflexivity].
  - destruct ((n <=? 0) || _);
      exists []; split; try reflexivity; left; reflexivity.
  - destruct (errorsC l); [reflexivity|exact I].
  - pose proof (receivedTransaction_trace (maxTransactionQueueSize l)
                  (transactions l) tx zeroStats) as H.
    destruct (receivedTransaction _ _ _ _) as [[q1 s1] t1]. simpl in *.
    destruct ((len q1 =? len (transactions l)) && flushC l).
    + exists []. split; [rewrite app_nil_r; exact H|left; reflexivity].
    + destruct ((maxTransactionQueueSize l <=? 0) || _); [|exact H].
      unfold startTimer. simpl. destruct (flushC l); simpl.
      * exists []. split; [rewrite !app_nil_r; exact H|left; reflexivity].
      * exists [TimerReset (flushInterval l)].
        split; [rewrite <- H; reflexivity|right; reflexivity].
  - destruct (flushC l); [reflexivity|exact I].
  - destruct (forceFlush l); [|exact I].
    pose proof (drainTransactions_trace (maxTransactionQueueSize l) buffered
                  (transactions l) zeroStats) as H.
    destruct (drainTransactions _ _ _ _) as [[q1 s1] t1]. exact H.
Qed.

(** What the four readings see of the send phase. *)
Lemma closed_form_pool_readings (w : World) (b : bool) (f0 : Frame) :
  let tr := fr_trace (sendPhaseClosedForm w b f0) in
  let okE := outcome (sendPhaseErrorsResult w f0) in
  let okT := b && outcome (sendPhaseTransactionsResult w f0) in
  pooledErrors tr
  = pooledErrors (fr_trace f0) ++ (if okE then sendPhaseErrors w f0 else [])
  /\ resetErrors tr
     = resetErrors (fr_trace f0) ++ (if okE then sendPhaseErrors w f0 else [])
  /\ deliveredErrors tr
     = deliveredErrors (fr_trace f0)
       ++ (if okE then sendPhaseErrors w f0 else [])
  /\ pooledTransactions tr
     = pooledTransactions (fr_trace f0)
       ++ (if okT then transactions (fr_loop f0) else [])
  /\ resetTransactions tr
     = resetTransactions (fr_trace f0)
       ++ (if okT then transactions (fr_loop f0) else [])
  /\ deliveredTransactions tr
     = deliveredTransactions (fr_trace f0)
       ++ (if okT then transactions (fr_loop f0) else []).
Proof.
  intros tr okE okT. subst tr okE okT.
  pose proof (sendErrors_readings (loop_sender (fr_loop f0)) (w_Transport w)
                (fr_statsUpdates f0) (sendPhaseErrors w f0)) as HB.
  pose proof (sendTransactions_readings (loop_sender (fr_loop f0))
                (w_Transport w) (statsAfter (sendPhaseErrorsResult w f0))
                (transactions (fr_loop f0))) as HD.
  cbv zeta in HB, HD.
  fold (sendPhaseErrorsResult w f0) in HB.
  fold (sendPhaseTransactionsResult w f0) in HD.
  destruct HB as (B1 & B2 & B3 & B4 & B5 & B6).
  destruct HD as (D1 & D2 & D3 & D4 & D5 & D6).
  destruct (recycleErrors_readings (sendPhaseErrors w f0))
    as (C1 & C2 & C3 & C4 & C5 & C6).
  destruct (recycleTransactions_readings (transactions (fr_loop f0)))
    as (E1 & E2 & E3 & E4 & E5 & E6).
  destruct (sendPhaseEnding_readings w b f0)
    as (F1 & F2 & F3 & F4 & F5 & F6).
  unfold sendPhaseClosedForm. cbn [fr_trace].
  unfold pooledErrors, resetErrors, deliveredErrors, pooledTransactions,
    resetTransactions, deliveredTransactions in *.
  rewrite !flat_map_app.
  rewrite B1, B2, B3, B4, B5, B6, F1, F2, F3, F4, F5, F6.
  destruct (outcome (sendPhaseErrorsResult w f0));
    rewrite ?C1, ?C2, ?C3, ?C4, ?C5, ?C6; simpl;
    (destruct b; simpl;
     [rewrite !flat_map_app, D1, D2, D3, D4, D5, D6;
      destruct (outcome (sendPhaseTransactionsResult w f0));
      rewrite ?E1, ?E2, ?E3, ?E4, ?E5, ?E6; simpl|]);
    rewrite ?app_nil_r; repeat split.
Qed.

(** What an iteration returns to the pools: the errors of an accepted
    batch, and the transactions the select statement evicted followed by
    those of an accepted batch. *)
Lemma iteration_pool_readings (w : World) (ev : Event)
    (l : Loop) (f : Frame) :
  iteration w ev l = Some (Some f) ->
  pooledErrors (fr_trace f) = deliveredErrors (fr_trace f)
  /\ resetErrors (fr_trace f) = pooledErrors (fr_trace f)
  /\ pooledTransactions (fr_trace f)
     = evictedBySelect ev l ++ deliveredTransactions (fr_trace f)
  /\ resetTransactions (fr_trace f) = pooledTransactions (fr_trace f).
Proof.
  intro Hit. unfold iteration in Hit.
  pose proof (select_trace ev l) as Htr.
  destruct (recycleTransactions_readings (evictedBySelect ev l))
    as (A1 & A2 & A3 & A4 & A5 & A6).
  destruct (select ev l) as [[|l1 st tr|l1 st b tr]|] eqn:Hsel;
    try discriminate.
  - inversion Hit; subst. simpl.
    destruct Htr as (timer & -> & Ht).
    unfold pooledErrors, resetErrors, deliveredErrors, pooledTransactions,
      resetTransactions, deliveredTransactions in *.
    rewrite !flat_map_app, A1, A2, A3, A4, A5, A6.
    destruct Ht as [->| ->]; simpl; rewrite ?app_nil_r; repeat split.
  - destruct (select_SendPhase _ _ _ _ _ _ Hsel) as [Hz _].
    rewrite sendPhase_closed_form in Hit by exact Hz.
    inversion Hit; subst f. clear Hit. subst tr.
    destruct (closed_form_pool_readings w b
                (mkFrame l1 st (recycleTransactions (evictedBySelect ev l))))
      as (G1 & G2 & G3 & G4 & G5 & G6).
    rewrite G1, G2, G3, G4, G5, G6. cbn [fr_trace fr_loop].
    rewrite A1, A2, A3, A4, A5, A6. repeat split.
Qed.

(** ** Processors *)

Lemma filter_flat_map {A B : Type} (f : B -> bool) (g : A -> list B)
    (l : list A) :
  filter f (flat_map g l) = flat_map (fun x => filter f (g x)) l.
Proof.
  induction l as [|a l IH]; simpl; [reflexivity|].
  rewrite filter_app, IH. reflexivity.
Qed.

Lemma setContextLoop_Forall {A : Type} (P : Effect -> Prop)
    (set : A -> option error) (call : A -> Effect) (records : list A) :
  (forall r, P (call r)) -> Forall P (snd (setContextLoop set call records)).
Proof.
  intro Hc. induction records as [|r rest IH]; simpl; [constructor|].
  destruct (set r); simpl; [repeat constructor; apply Hc|].
  destruct (setContextLoop set call rest) as [err calls0]. simpl in *.
  constructor; [apply Hc | exact IH].
Qed.

Lemma logDebugf_no_processor (l : option Logger) (fmt : string) (err : error) :
  filter isProcessorCall (logDebugf l fmt err) = [].
Proof. destruct l; reflexivity. Qed.

Lemma enrichTransactions_no_processor (s : sender) (stats : TracerStats)
    (txs : list Transaction) :
  filter isProcessorCall (snd (enrichTransactions s stats txs)) = [].
Proof.
  unfold enrichTransactions. destruct (contextSetter s); [|reflexivity].
  match goal with
  | |- context [setContextLoop ?f ?c ?l] =>
      pose proof (setContextLoop_Forall
                    (fun ef => isProcessorCall ef = false) f c l
                    (fun _ => eq_refl)) as H;
      destruct (setContextLoop f c l) as [[err|] calls0]
  end; simpl in *; rewrite ?filter_app, ?logDebugf_no_processor,
                     (filter_none _ _ H); reflexivity.
Qed.

Lemma enrichErrors_no_processor (s : sender) (stats : TracerStats)
    (errs : list Error) :
  filter isProcessorCall (snd (enrichErrors s stats errs)) = [].
Proof.
  unfold enrichErrors. destruct (contextSetter s); [|reflexivity].
  match goal with
  | |- context [setContextLoop ?f ?c ?l] =>
      pose proof (setContextLoop_Forall
                    (fun ef => isProcessorCall ef = false) f c l
                    (fun _ => eq_refl)) as H;
      destruct (setContextLoop f c l) as [[err|] calls0]
  end; simpl in *; rewrite ?filter_app, ?logDebugf_no_processor,
                     (filter_none _ _ H); reflexivity.
Qed.

Lemma ProcessTransaction_all_calls (p : Processor) (tx : Transaction) :
  filter isProcessorCall (ProcessTransaction p tx) = ProcessTransaction p tx.
Proof.
  induction p as [id|ps IH] using Processor_nested_ind; simpl;
    [reflexivity|].
  rewrite filter_flat_map. induction IH as [|q qs Hq _ IHqs]; simpl;
    [reflexivity|]. rewrite Hq, IHqs. reflexivity.
Qed.

Lemma ProcessError_all_calls (p : Processor) (e : Error) :
  filter isProcessorCall (ProcessError p e) = ProcessError p e.
Proof.
  induction p as [id|ps IH] using Processor_nested_ind; simpl;
    [reflexivity|].
  rewrite filter_flat_map. induction IH as [|q qs Hq _ IHqs]; simpl;
    [reflexivity|]. rewrite Hq, IHqs. reflexivity.
Qed.

(** The processor calls of a send: for each record of the batch, in
    order, the calls of the configured processor. *)
Lemma sendTransactions_processor_calls (s : sender) (tr : transport.Transport)
    (stats : TracerStats) (txs : list Transaction) :
  filter isProcessorCall (calls (sendTransactions s tr stats txs))
  = match processor s with
    | Some p => flat_map (ProcessTransaction p) txs
    | None => []
    end.
Proof.
  destruct txs as [|t txs]; [destruct (processor s); reflexivity|].
  assert (Hne : t :: txs <> []) by discriminate.
  destruct (sendTransactions_shape s tr stats (t :: txs) Hne)
    as (pre & _ & Hpre & Heq).
  rewrite Heq. subst pre. unfold calls.
  assert (Hp : filter isProcessorCall
                 (flat_map (prepareTransaction s) (t :: txs))
               = match processor s with
                 | Some p => flat_map (ProcessTransaction p) (t :: txs)
                 | None => []
                 end).
  { rewrite filter_flat_map. unfold prepareTransaction.
    destruct (processor s) as [p|].
    - apply flat_map_ext. intro tx. rewrite !filter_app.
      rewrite ProcessTransaction_all_calls.
      destruct (tx_Sampled tx); reflexivity.
    - apply flat_map_none, Forall_forall. intros tx _.
      destruct (tx_Sampled tx); reflexivity. }
  clear Hne. remember (t :: txs) as batch.
  destruct (transport.SendTransactions tr batch); cbn [snd];
    rewrite !filter_app, enrichTransactions_no_processor, Hp;
    cbn [filter isProcessorCall app];
    rewrite ?logDebugf_no_processor, ?app_nil_r; reflexivity.
Qed.

Lemma sendErrors_processor_calls (s : sender) (tr : transport.Transport)
    (stats : TracerStats) (errs : list Error) :
  filter isProcessorCall (calls (sendErrors s tr stats errs))
  = match processor s with
    | Some p => flat_map (ProcessError p) errs
    | None => []
    end.
Proof.
  destruct errs as [|e errs]; [destruct (processor s); reflexivity|].
  assert (Hne : e :: errs <> []) by discriminate.
  destruct (sendErrors_shape s tr stats (e :: errs) Hne)
    as (pre & _ & Hpre & Heq).
  rewrite Heq. subst pre. unfold calls.
  assert (Hp : filter isProcessorCall (flat_map (prepareError s) (e :: errs))
               = match processor s with
                 | Some p => flat_map (ProcessError p) (e :: errs)
                 | None => []
                 end).
  { rewrite filter_flat_map. unfold prepareError.
    destruct (processor s) as [p|].
    - apply flat_map_ext. intro x. rewrite !filter_app.
      rewrite ProcessError_all_calls.
      destruct (e_Transaction x); reflexivity.
    - apply flat_map_none, Forall_forall. intros x _.
      destruct (e_Transaction x); reflexivity. }
  clear Hne. remember (e :: errs) as batch.
  destruct (transport.SendErrors tr batch); cbn [snd];
    rewrite !filter_app, enrichErrors_no_processor, Hp;
    cbn [filter isProcessorCall app];
    rewrite ?logDebugf_no_processor, ?app_nil_r; reflexivity.
Qed.

Lemma recycle_no_processor (l : list Effect) :
  Forall (fun ef => isRecycle ef = true) l -> filter isProcessorCall l = [].
Proof.
  intro H. apply filter_none. eapply Forall_impl; [|exact H].
  intro ef. destruct ef; simpl; congruence.
Qed.

Lemma sendPhaseEnding_no_processor (w : World) (b : bool) (f0 : Frame) :
  filter isProcessorCall (sendPhaseEnding w b f0) = [].
Proof.
  unfold sendPhaseEnding.
  destruct (sendPhaseFailed w b f0), (flushC (fr_loop f0)), b,
    (flushed (fr_loop f0)); reflexivity.
Qed.

(** The processor calls of the send phase: the configured processor on
    each error sent, then on each transaction sent. *)
Lemma closed_form_processor_calls (w : World) (b : bool) (f0 : Frame) :
  filter isProcessorCall (fr_trace (sendPhaseClosedForm w b f0))
  = filter isProcessorCall (fr_trace f0)
    ++ match processor (loop_sender (fr_loop f0)) with
       | Some p => flat_map (ProcessError p) (sendPhaseErrors w f0)
       | None => []
       end
    ++ (if b then
          match processor (loop_sender (fr_loop f0)) with
          | Some p => flat_map (ProcessTransaction p) (transactions (fr_loop f0))
          | None => []
          end
        else []).
Proof.
  unfold sendPhaseClosedForm. cbn [fr_trace].
  rewrite !filter_app, sendPhaseEnding_no_processor, app_nil_r.
  unfold sendPhaseErrorsResult at 1. rewrite sendErrors_processor_calls.
  f_equal. f_equal.
  assert (HE : filter isProcessorCall
                 (if outcome (sendPhaseErrorsResult w f0)
                  then recycleErrors (sendPhaseErrors w f0) else []) = []).
  { destruct (outcome _); [|reflexivity].
    apply recycle_no_processor, recycleErrors_recycle. }
  rewrite HE. simpl. destruct b; [|reflexivity].
  rewrite filter_app.
  unfold sendPhaseTransactionsResult at 1.
  rewrite sendTransactions_processor_calls.
  destruct (outcome (sendPhaseTransactionsResult w f0)); simpl;
    rewrite ?app_nil_r; [|reflexivity].
  rewrite (recycle_no_processor _ (recycleTransactions_recycle _)).
  apply app_nil_r.
Qed.

Lemma select_processor (ev : Event) (l : Loop) :
  isRecvProcessor ev = false ->
  match select ev l with
  | Some (Continue l1 _ _) | Some (SendPhase l1 _ _ _) =>
      processor (loop_sender l1) = processor (loop_sender l)
  | _ => True
  end.
Proof.
  destruct ev; simpl; intro H; try reflexivity; try discriminate.
  - destruct ((n <=? 0) || _); reflexivity.
  - destruct ((n <=? 0) || _); reflexivity.
  - destruct (errorsC l); [reflexivity|exact I].
  - destruct (receivedTransaction _ _ _ _) as [[q1 s1] t1]. simpl.
    destruct ((len q1 =? len (transactions l)) && flushC l); [reflexivity|].
    destruct ((maxTransactionQueueSize l <=? 0) || _); [|reflexivity].
    unfold startTimer. simpl. destruct (flushC l); reflexivity.
  - destruct (flushC l); [reflexivity|exact I].
  - destruct (forceFlush l); [|exact I].
    destruct (drainTransactions _ _ _ _) as [[q1 s1] t1]. reflexivity.
Qed.

(** With no processor configured an iteration calls none. *)
Lemma iteration_without_processor (w : World) (ev : Event) (l : Loop)
    (f : Frame) :
  processor (loop_sender l) = None ->
  iteration w ev l = Some (Some f) ->
  filter isProcessorCall (fr_trace f) = []
  /\ (isRecvProcessor ev = false -> processor (loop_sender (fr_loop f)) = None).
Proof.
  intros Hp Hit. unfold iteration in Hit.
  pose proof (select_trace ev l) as Htr.
  pose proof (select_processor ev l) as Hs.
  assert (Hrec : filter isProcessorCall
                   (recycleTransactions (evictedBySelect ev l)) = [])
    by apply recycle_no_processor, recycleTransactions_recycle.
  destruct (select ev l) as [[|l1 st tr|l1 st b tr]|] eqn:Hsel;
    try discriminate.
  - inversion Hit; subst. simpl. split.
    + destruct Htr as (timer & -> & [->| ->]); rewrite filter_app, Hrec;
        reflexivity.
    + intro H. rewrite (Hs H). exact Hp.
  - destruct (select_SendPhase _ _ _ _ _ _ Hsel) as [Hz _].
    rewrite sendPhase_closed_form in Hit by exact Hz.
    inversion Hit; subst f. clear Hit. split.
    + rewrite closed_form_processor_calls. cbn [fr_trace fr_loop].
      subst tr. rewrite Hrec.
      destruct (isRecvProcessor ev) eqn:E.
      * destruct ev; try discriminate E. simpl in Hsel. discriminate.
      * rewrite (Hs eq_refl), Hp. destruct b; reflexivity.
    + intro H. unfold sendPhaseClosedForm. simpl. rewrite (Hs H). exact Hp.
Qed.

Lemma run_without_processor (sched : list (World * Event)) :
  forall (l l' : Loop) (tr : list Effect),
    processor (loop_sender l) = None ->
    keepsProcessor sched = true ->
    run sched l = Some (l', tr) ->
    filter isProcessorCall tr = [] /\ processor (loop_sender l') = None.
Proof.
  induction sched as [|[w ev] rest IH]; intros l l' tr Hp Hk Hrun;
    simpl in Hrun.
  - inversion Hrun; subst. split; [reflexivity|exact Hp].
  - simpl in Hk. apply andb_prop in Hk. destruct Hk as [Hev Hk].
    apply negb_true_iff in Hev.
    destruct (iteration w ev l) as [[f|]|] eqn:Hit; try discriminate.
    + destruct (iteration_without_processor w ev l f Hp Hit) as [H1 H2].
      destruct (run rest (fr_loop f)) as [[l2 tr2]|] eqn:Hrest;
        [|discriminate].
      inversion Hrun; subst.
      destruct (IH (fr_loop f) l' tr2 (H2 Hev) Hk Hrest) as [H3 H4].
      split; [|exact H4]. rewrite filter_app, H1, H3. reflexivity.
    + inversion Hrun; subst. split; [reflexivity|exact Hp].
Qed.

Lemma user_processors_calls_tx (ids : list nat) (tx : Transaction) :
  flat_map (fun p => ProcessTransaction p tx) (map UserProcessor ids)
  = map (fun id => CallProcessTransaction id tx) ids.
Proof. induction ids as [|i ids IH]; simpl; [reflexivity|]. rewrite IH. reflexivity. Qed.

Lemma user_processors_calls_err (ids : list nat) (e : Error) :
  flat_map (fun p => ProcessError p e) (map UserProcessor ids)
  = map (fun id => CallProcessError id e) ids.
Proof. induction ids as [|i ids IH]; simpl; [reflexivity|]. rewrite IH. reflexivity. Qed.

Lemma SetProcessor_some (ps : list Processor) :
  ps <> [] -> SetProcessor ps = Some (Processors ps).
Proof.
  intro H. unfold SetProcessor.
  assert (E : (0 <? len ps) = true).
  { apply Z.ltb_lt. pose proof (len_nonneg ps).
    assert (len ps <> 0) by (intro E; apply H, len_nil_iff, E). lia. }
  rewrite E. reflexivity.
Qed.

(** * Further properties of the tracer *)

(** ** newTracer *)

(** X1. Whatever the flush interval and the transactions cap, the five
    values [newTracer] sends are all accepted by select cases that
    [continue]: the loop ends up with the given interval and cap, an error
    cap of 1000, three lines of context on each side, empty queues, no
    timer, both gated cases enabled and zero stats, and no call is made. *)
Theorem newTracer_configures_loop (w : World)
    (flushInterval maxTransactionQueueSize : Z) :
  run (newTracer w flushInterval maxTransactionQueueSize) loop_init
  = Some (newTracerLoop flushInterval maxTransactionQueueSize, []).
Proof.
  unfold newTracer, newTracerLoop. simpl. unfold iteration. simpl.
  assert (E : (maxTransactionQueueSize <=? 0)
              || (len (@nil Transaction) <? maxTransactionQueueSize) = true).
  { destruct (maxTransactionQueueSize <=? 0) eqn:E1; [reflexivity|].
    apply Z.leb_gt in E1. simpl. apply Z.ltb_lt. unfold len. simpl. lia. }
  rewrite E. reflexivity.
Qed.

(** ** Counters after a send *)

Lemma sendErrors_counters (s : sender) (tr : transport.Transport)
    (stats : TracerStats) (errs : list Error) :
  let r := sendErrors s tr stats errs in
  TransactionsSent (statsAfter r) = TransactionsSent stats
  /\ TransactionsDropped (statsAfter r) = TransactionsDropped stats
  /\ ErrorsDropped (statsAfter r) = ErrorsDropped stats
  /\ ErrorsSent (statsAfter r)
     = (if outcome r then uint64 (ErrorsSent stats + len errs)
        else ErrorsSent stats).
Proof.
  intro r. subst r. destruct errs as [|e errs]; [repeat split|].
  assert (Hne : e :: errs <> []) by discriminate.
  destruct (sendErrors_shape s tr stats (e :: errs) Hne)
    as (pre & _ & _ & Heq).
  pose proof (enrichErrors_stats s stats (e :: errs)) as Hst. cbv zeta in Hst.
  destruct Hst as (H1 & H2 & H3 & H4 & _).
  rewrite Heq. unfold outcome, statsAfter.
  destruct (transport.SendErrors tr (e :: errs)); simpl;
    repeat split; try assumption.
  rewrite uint64_add_uint64_r, H2. reflexivity.
Qed.

Lemma sendTransactions_counters (s : sender) (tr : transport.Transport)
    (stats : TracerStats) (txs : list Transaction) :
  let r := sendTransactions s tr stats txs in
  ErrorsSent (statsAfter r) = ErrorsSent stats
  /\ TransactionsDropped (statsAfter r) = TransactionsDropped stats
  /\ ErrorsDropped (statsAfter r) = ErrorsDropped stats
  /\ TransactionsSent (statsAfter r)
     = (if outcome r then uint64 (TransactionsSent stats + len txs)
        else TransactionsSent stats).
Proof.
  intro r. subst r. destruct txs as [|t txs]; [repeat split|].
  assert (Hne : t :: txs <> []) by discriminate.
  destruct (sendTransactions_shape s tr stats (t :: txs) Hne)
    as (pre & _ & _ & Heq).
  pose proof (enrichTransactions_stats s stats (t :: txs)) as Hst.
  cbv zeta in Hst. destruct Hst as (H1 & H2 & H3 & H4 & _).
  rewrite Heq. unfold outcome, statsAfter.
  destruct (transport.SendTransactions tr (t :: txs)); simpl;
    repeat split; try assumption.
  rewrite uint64_add_uint64_r, H1. reflexivity.
Qed.

(** ** Configuration updates *)

(** X2. A configuration update other than the transactions cap (flush
    interval, error cap, context lines, context setter, logger, processor)
    is always accepted, makes no call, records nothing in the stats, leaves
    both queues, the transactions cap, the timer and a pending flush as
    they are, and never disables the errors case. *)
Theorem configuration_update_is_silent (w : World) (ev : Event) (l : Loop) :
  isSilentConfig ev = true ->
  exists l',
    iteration w ev l = Some (Some (mkFrame l' zeroStats []))
    /\ transactions l' = transactions l
    /\ errors l' = errors l
    /\ t_stats l' = t_stats l
    /\ maxTransactionQueueSize l' = maxTransactionQueueSize l
    /\ flushC l' = flushC l
    /\ flushed l' = flushed l
    /\ forceFlush l' = forceFlush l
    /\ (errorsC l = true -> errorsC l' = true).
Proof.
  intro H. destruct ev; try discriminate H; unfold iteration; simpl;
    try (eexists; split; [reflexivity|]; simpl; repeat split; auto; fail).
  destruct ((n <=? 0) || (len (errors l) <? n));
    eexists; (split; [reflexivity|]); simpl; repeat split; auto.
Qed.

(** The statement at a change of the flush interval while a timer is
    pending. *)
Lemma configuration_update_is_silent_witness :
  exists l',
    iteration failingWorld (RecvFlushInterval 5)
      (set_flushC true (set_transactions [sampleTx 1] (configuredLoop 2 10)))
    = Some (Some (mkFrame l' zeroStats []))
    /\ transactions l' = [sampleTx 1].
Proof.
  destruct (configuration_update_is_silent failingWorld (RecvFlushInterval 5)
              (set_flushC true
                 (set_transactions [sampleTx 1] (configuredLoop 2 10)))
              eq_refl) as (l' & H1 & H2 & _).
  exists l'. split; [exact H1|exact H2].
Defined.

(** X3. [SetMaxTransactionQueueSize(n)] never trims or sends the
    transactions queue.  With [n] positive and at most the queue length
    the iteration enters the send phase without the transactions: it
    sends the errors queue only, evicts nothing, charges no drop, and the
    queue stays as it was, possibly longer than the new cap.  Otherwise
    the iteration only stores the cap. *)
Theorem lowered_transaction_cap_does_not_trim (w : World) (l : Loop) (n : Z) :
  (0 < n -> n <= len (transactions l) ->
   exists f,
     iteration w (RecvMaxTransactionQueueSize n) l = Some (Some f)
     /\ maxTransactionQueueSize (fr_loop f) = n
     /\ transactions (fr_loop f) = transactions l
     /\ pooledTransactions (fr_trace f) = []
     /\ deliveredTransactions (fr_trace f) = []
     /\ TransactionsDropped (fr_statsUpdates f) = 0
     /\ TransactionsSent (fr_statsUpdates f) = 0
     /\ filter isTransportCall (fr_trace f)
        = let queue := drainErrors (maxErrorQueueSize l) (errors l)
                         (w_errors w) in
          match queue with
          | [] => []
          | _ => [TransportSendErrors queue
                    (transport.SendErrors (w_Transport w) queue)]
          end)
  /\ (n <= 0 \/ len (transactions l) < n ->
      iteration w (RecvMaxTransactionQueueSize n) l
      = Some (Some (mkFrame (set_maxTransactionQueueSize n l) zeroStats []))).
Proof.
  split.
  - intros Hpos Hle.
    assert (Hsel : select (RecvMaxTransactionQueueSize n) l
                   = Some (SendPhase (set_maxTransactionQueueSize n l)
                             zeroStats false [])).
    { simpl. assert (E : (n <=? 0) || (len (transactions l) <? n) = false).
      { apply orb_false_iff. split; [apply Z.leb_gt|apply Z.ltb_ge]; lia. }
      rewrite E. reflexivity. }
    eexists. split; [exact (iteration_SendPhase w _ _ _ _ _ _ Hsel)|].
    set (f0 := mkFrame (set_maxTransactionQueueSize n l) zeroStats []).
    destruct (closed_form_pool_readings w false f0)
      as (_ & _ & _ & G4 & _ & G6).
    pose proof (sendErrors_counters (loop_sender (fr_loop f0)) (w_Transport w)
                  (fr_statsUpdates f0) (sendPhaseErrors w f0)) as Hc.
    cbv zeta in Hc. destruct Hc as (C1 & C2 & _).
    split; [reflexivity|]. split; [reflexivity|].
    split; [rewrite G4; reflexivity|]. split; [rewrite G6; reflexivity|].
    split; [exact C2|]. split; [exact C1|].
    rewrite <- (sendPhase_closed_form w false f0 eq_refl).
    rewrite sendPhase_transport_calls. subst f0. cbv zeta. simpl.
    rewrite app_nil_r. reflexivity.
  - intro H. unfold iteration. simpl.
    assert (E : (n <=? 0) || (len (transactions l) <? n) = true).
    { apply orb_true_iff. destruct H; [left; apply Z.leb_le|right; apply Z.ltb_lt];
        lia. }
    rewrite E. reflexivity.
Qed.

(** The statement at a queue of two and a new cap of one. *)
Lemma lowered_transaction_cap_does_not_trim_witness :
  exists f,
    iteration discardWorld (RecvMaxTransactionQueueSize 1)
      (set_transactions [sampleTx 1; sampleTx 2] (configuredLoop 0 1000))
    = Some (Some f)
    /\ transactions (fr_loop f) = [sampleTx 1; sampleTx 2].
Proof.
  assert (H1 : 0 < 1) by lia.
  assert (H2 : 1 <= len (transactions
                           (set_transactions [sampleTx 1; sampleTx 2]
                              (configuredLoop 0 1000))))
    by (vm_compute; discriminate).
  destruct (proj1 (lowered_transaction_cap_does_not_trim discardWorld
              (set_transactions [sampleTx 1; sampleTx 2]
                 (configuredLoop 0 1000)) 1) H1 H2)
    as (f & Hit & _ & Htx & _).
  exists f. split; [exact Hit|exact Htx].
Defined.

(** ** Nothing is lost: the queues are first in, first out *)

Lemma receivedTransaction_conserves (max : Z) (queue : list Transaction)
    (tx : Transaction) (stats : TracerStats) :
  let r := receivedTransaction max queue tx stats in
  pooledTransactions (snd r) ++ fst (fst r) = queue ++ [tx].
Proof.
  unfold receivedTransaction.
  destruct ((0 <? max) && (max <=? len queue)); simpl; [|reflexivity].
  rewrite pooledTransactions_evicted, app_assoc, firstn_skipn. reflexivity.
Qed.

Lemma drainTransactions_conserves (max : Z) (buffered : list Transaction) :
  forall (queue : list Transaction) (stats : TracerStats),
    let r := drainTransactions max queue stats buffered in
    pooledTransactions (snd r) ++ fst (fst r) = queue ++ buffered.
Proof.
  induction buffered as [|tx rest IH]; intros queue stats; simpl.
  - rewrite app_nil_r. reflexivity.
  - pose proof (receivedTransaction_conserves max queue tx stats) as H.
    destruct (receivedTransaction max queue tx stats) as [[q1 s1] t1].
    specialize (IH q1 s1).
    destruct (drainTransactions max q1 s1 rest) as [[q2 s2] t2].
    simpl in *. unfold pooledTransactions in *.
    rewrite flat_map_app, <- app_assoc, IH, app_assoc, H, <- app_assoc.
    reflexivity.
Qed.

Lemma select_conserves (ev : Event) (l : Loop) :
  match select ev l with
  | Some (Continue l1 _ _) | Some (SendPhase l1 _ _ _) =>
      evictedBySelect ev l ++ transactions l1
      = transactions l ++ transactionsTaken ev
  | _ => True
  end.
Proof.
  destruct ev; simpl; try exact I; try (rewrite app_nil_r; reflexivity).
  - destruct ((n <=? 0) || _); simpl; rewrite app_nil_r; reflexivity.
  - destruct ((n <=? 0) || _); simpl; rewrite app_nil_r; reflexivity.
  - destruct (errorsC l); [simpl; rewrite app_nil_r; reflexivity|exact I].
  - pose proof (receivedTransaction_conserves (maxTransactionQueueSize l)
                  (transactions l) tx zeroStats) as H.
    destruct (receivedTransaction _ _ _ _) as [[q1 s1] t1]. simpl in *.
    destruct ((len q1 =? len (transactions l)) && flushC l); [exact H|].
    destruct ((maxTransactionQueueSize l <=? 0) || _); [|exact H].
    unfold startTimer. simpl. destruct (flushC l); exact H.
  - destruct (flushC l); [simpl; rewrite app_nil_r; reflexivity|exact I].
  - destruct (forceFlush l); [|exact I].
    pose proof (drainTransactions_conserves (maxTransactionQueueSize l)
                  buffered (transactions l) zeroStats) as H.
    destruct (drainTransactions _ _ _ _) as [[q1 s1] t1]. exact H.
Qed.

Lemma iteration_conserves_transactions (w : World) (ev : Event) (l : Loop)
    (f : Frame) :
  iteration w ev l = Some (Some f) ->
  pooledTransactions (fr_trace f) ++ transactions (fr_loop f)
  = transactions l ++ transactionsTaken ev.
Proof.
  intro Hit. unfold iteration in Hit.
  pose proof (select_trace ev l) as Htr.
  pose proof (select_conserves ev l) as Hc.
  destruct (recycleTransactions_readings (evictedBySelect ev l))
    as (_ & _ & _ & A4 & _).
  destruct (select ev l) as [[|l1 st tr|l1 st b tr]|] eqn:Hsel;
    try discriminate.
  - inversion Hit; subst. simpl. destruct Htr as (timer & -> & Ht).
    unfold pooledTransactions in *. rewrite flat_map_app, A4.
    destruct Ht as [->| ->]; simpl; rewrite app_nil_r; exact Hc.
  - destruct (select_SendPhase _ _ _ _ _ _ Hsel) as [Hz _].
    rewrite sendPhase_closed_form in Hit by exact Hz.
    inversion Hit; subst f. clear Hit. subst tr.
    destruct (closed_form_pool_readings w b
                (mkFrame l1 st (recycleTransactions (evictedBySelect ev l))))
      as (_ & _ & _ & G4 & _).
    rewrite G4. cbn [fr_trace fr_loop]. rewrite A4.
    unfold sendPhaseClosedForm. simpl.
    destruct (b && outcome _); rewrite <- app_assoc, ?app_nil_r; exact Hc.
Qed.

Lemma pooledTransactions_app (a b : list Effect) :
  pooledTransactions (a ++ b) = pooledTransactions a ++ pooledTransactions b.
Proof. apply flat_map_app. Qed.

Lemma pooledErrors_app (a b : list Effect) :
  pooledErrors (a ++ b) = pooledErrors a ++ pooledErrors b.
Proof. apply flat_map_app. Qed.

(** X4. The transactions queue loses nothing and keeps arrival order: over
    any run, the records returned to the pool (evicted or sent) followed
    by the records still queued are exactly the records queued at the
    start followed by those the loop received, in the order received. *)
Theorem transactions_conserved_in_order (sched : list (World * Event)) :
  forall (l l' : Loop) (tr : list Effect),
    run sched l = Some (l', tr) ->
    pooledTransactions tr ++ transactions l'
    = transactions l ++ transactionsReceived sched l.
Proof.
  induction sched as [|[w ev] rest IH]; intros l l' tr Hrun; simpl in *.
  - inversion Hrun; subst. simpl. rewrite app_nil_r. reflexivity.
  - destruct (iteration w ev l) as [[f|]|] eqn:Hit; try discriminate.
    + destruct (run rest (fr_loop f)) as [[l2 tr2]|] eqn:Hrest;
        [|discriminate].
      inversion Hrun; subst.
      rewrite pooledTransactions_app, <- app_assoc.
      rewrite (IH _ _ _ Hrest), app_assoc.
      rewrite (iteration_conserves_transactions w ev l f Hit).
      rewrite <- app_assoc. reflexivity.
    + inversion Hrun; subst. simpl. rewrite app_nil_r. reflexivity.
Qed.

(** The statement on the schedule that evicts two records and sends the
    third. *)
Lemma transactions_conserved_in_order_witness :
  exists l' tr,
    run evictionSchedule loop_init = Some (l', tr)
    /\ pooledTransactions tr ++ transactions l'
       = transactions loop_init
         ++ transactionsReceived evictionSchedule loop_init.
Proof.
  assert (H : exists l' tr, run evictionSchedule loop_init = Some (l', tr))
    by (eexists; eexists; vm_compute; reflexivity).
  destruct H as (l' & tr & H). exists l', tr. split; [exact H|].
  exact (transactions_conserved_in_order evictionSchedule loop_init l' tr H).
Defined.

Lemma iteration_conserves_errors (w : World) (ev : Event) (l : Loop)
    (f : Frame) :
  iteration w ev l = Some (Some f) ->
  pooledErrors (fr_trace f) ++ errors (fr_loop f)
  = errors l ++ errorsTaken w ev l.
Proof.
  intro Hit. unfold iteration in Hit. unfold errorsTaken.
  pose proof (select_trace ev l) as Htr.
  pose proof (select_errView ev l) as Hv.
  destruct (recycleTransactions_readings (evictedBySelect ev l))
    as (A1 & _).
  destruct (select ev l) as [[|l1 st tr|l1 st b tr]|] eqn:Hsel;
    try discriminate.
  - inversion Hit; subst. simpl. destruct Htr as (timer & -> & Ht).
    unfold pooledErrors in *. rewrite flat_map_app, A1.
    assert (He : errors l1 = errors l).
    { destruct (select_Continue_trace ev l l1 st _ Hsel)
        as (_ & _ & _ & _ & He). exact He. }
    rewrite He, app_nil_r.
    destruct Ht as [->| ->]; reflexivity.
  - destruct (select_SendPhase _ _ _ _ _ _ Hsel) as [Hz _].
    rewrite sendPhase_closed_form in Hit by exact Hz.
    inversion Hit; subst f. clear Hit. subst tr.
    destruct (closed_form_pool_readings w b
                (mkFrame l1 st (recycleTransactions (evictedBySelect ev l))))
      as (G1 & _).
    rewrite G1. cbn [fr_trace fr_loop]. rewrite A1.
    unfold sendPhaseClosedForm. simpl.
    assert (Hq : sendPhaseErrors w
                   (mkFrame l1 st
                      (recycleTransactions (evictedBySelect ev l)))
                 = errors l
                   ++ match ev with RecvError e => [e] | _ => [] end
                   ++ firstn
                        (Z.to_nat
                           (Z.min (len (w_errors w))
                              (int_sub (maxErrorQueueSize l1)
                                 (len (errors l1)))))
                        (w_errors w)).
    { unfold sendPhaseErrors. simpl. rewrite drainErrors_spec.
      rewrite app_assoc. f_equal.
      destruct ev;
        try (apply errView_inv in Hv; destruct Hv as (_ & H2 & _);
             rewrite H2, app_nil_r; reflexivity).
      destruct Hv as [_ Hv]. unfold errView in Hv. injection Hv as _ H2 _.
      exact H2. }
    destruct (outcome _); rewrite ?app_nil_r; exact Hq.
Qed.

(** X5. The errors queue loses nothing and keeps arrival order: over any
    run, the errors returned to the pool (they were sent) followed by the
    errors still queued are exactly the errors queued at the start
    followed by those the loop took from the channel, in the order taken;
    what a drain takes is a prefix of what the channel holds. *)
Theorem errors_conserved_in_order (sched : list (World * Event)) :
  forall (l l' : Loop) (tr : list Effect),
    run sched l = Some (l', tr) ->
    pooledErrors tr ++ errors l' = errors l ++ errorsReceived sched l.
Proof.
  induction sched as [|[w ev] rest IH]; intros l l' tr Hrun; simpl in *.
  - inversion Hrun; subst. simpl. rewrite app_nil_r. reflexivity.
  - destruct (iteration w ev l) as [[f|]|] eqn:Hit; try discriminate.
    + destruct (run rest (fr_loop f)) as [[l2 tr2]|] eqn:Hrest;
        [|discriminate].
      inversion Hrun; subst.
      rewrite pooledErrors_app, <- app_assoc.
      rewrite (IH _ _ _ Hrest), app_assoc.
      rewrite (iteration_conserves_errors w ev l f Hit).
      rewrite <- app_assoc. reflexivity.
    + inversion Hrun; subst. simpl. rewrite app_nil_r. reflexivity.
Qed.

(** The statement on the schedule that queues three errors under a
    failing Transport. *)
Lemma errors_conserved_in_order_witness :
  exists l' tr,
    run loweredCapSchedule loop_init = Some (l', tr)
    /\ pooledErrors tr ++ errors l'
       = errors loop_init ++ errorsReceived loweredCapSchedule loop_init.
Proof.
  assert (H : exists l' tr, run loweredCapSchedule loop_init = Some (l', tr))
    by (eexists; eexists; vm_compute; reflexivity).
  destruct H as (l' & tr & H). exists l', tr. split; [exact H|].
  exact (errors_conserved_in_order loweredCapSchedule loop_init l' tr H).
Defined.

(** ** The Transport's answer decides what stays queued *)

(** X6. At the end of a send phase the errors queue is empty if the
    Transport accepted it and is the whole drained queue, in order, if the
    Transport rejected it; the same holds for the transactions queue when
    the iteration sends transactions, and it is untouched otherwise.  A
    rejected batch leaves the timer pending; without a rejection the timer
    is as the select statement left it. *)
Theorem send_outcome_decides_queues (w : World) (ev : Event) (l l1 : Loop)
    (st : TracerStats) (b : bool) (tr : list Effect) :
  select ev l = Some (SendPhase l1 st b tr) ->
  let queue := drainErrors (maxErrorQueueSize l1) (errors l1) (w_errors w) in
  let rejectedE :=
    match queue, transport.SendErrors (w_Transport w) queue with
    | _ :: _, Some _ => true
    | _, _ => false
    end in
  let rejectedT :=
    match transactions l1,
          transport.SendTransactions (w_Transport w) (transactions l1) with
    | _ :: _, Some _ => b
    | _, _ => false
    end in
  exists f,
    iteration w ev l = Some (Some f)
    /\ errors (fr_loop f) = (if rejectedE then queue else [])
    /\ transactions (fr_loop f)
       = (if b then if rejectedT then transactions l1 else []
          else transactions l1)
    /\ flushC (fr_loop f) = (if rejectedE || rejectedT then true else flushC l1)
    /\ (b = true -> rejectedE || rejectedT = false ->
        errors (fr_loop f) = [] /\ transactions (fr_loop f) = []).
Proof.
  intros Hsel queue rejectedE rejectedT.
  eexists. split; [exact (iteration_SendPhase w _ _ _ _ _ _ Hsel)|].
  unfold sendPhaseClosedForm. simpl.
  rewrite sendPhaseFailed_spec.
  unfold sendPhaseErrorsResult, sendPhaseTransactionsResult, sendPhaseErrors.
  simpl. fold queue.
  rewrite sendErrors_outcome, sendTransactions_outcome.
  subst rejectedE rejectedT.
  destruct queue as [|e q] eqn:Eq;
    destruct (transport.SendErrors (w_Transport w) _);
    destruct (transactions l1) as [|t txs] eqn:Et;
    destruct (transport.SendTransactions (w_Transport w) _);
    destruct b; simpl; repeat split; try reflexivity;
    try (intros; discriminate); try (intros _ H; discriminate H).
Qed.

(** The statement at a flush-timer expiry with one transaction queued and
    a failing Transport. *)
Lemma send_outcome_decides_queues_witness :
  exists f,
    iteration failingWorld FlushTimer
      (set_flushC true (set_transactions [sampleTx 1] (configuredLoop 5 10)))
    = Some (Some f)
    /\ transactions (fr_loop f) = [sampleTx 1]
    /\ flushC (fr_loop f) = true.
Proof.
  destruct (send_outcome_decides_queues failingWorld FlushTimer
              (set_flushC true
                 (set_transactions [sampleTx 1] (configuredLoop 5 10)))
              (set_transactions [sampleTx 1] (configuredLoop 5 10))
              zeroStats true [] eq_refl)
    as (f & Hit & _ & Htx & Hc & _).
  exists f. split; [exact Hit|]. split; [exact Htx|exact Hc].
Defined.

(** ** Queued records always have a timer *)

Lemma select_timer (ev : Event) (l : Loop) :
  match select ev l with
  | Some (Continue l1 _ _) =>
      (transactions l1 <> [] -> transactions l = [] -> flushC l1 = true)
      /\ (flushC l = true -> flushC l1 = true)
      /\ errors l1 = errors l
  | Some (SendPhase l1 _ b _) =>
      b = true
      \/ (transactions l1 = transactions l /\ flushC l1 = flushC l)
  | _ => True
  end.
Proof.
  destruct ev; simpl; try exact I;
    try (repeat split; auto; intros; congruence).
  - destruct ((n <=? 0) || _); [|right; split; reflexivity].
    simpl. repeat split; auto; try (intros; congruence).
  - destruct ((n <=? 0) || _); simpl; repeat split; auto;
      try (intros; congruence).
  - destruct (errorsC l); [right; split; reflexivity|exact I].
  - destruct (receivedTransaction _ _ _ _) as [[q1 s1] t1]. simpl.
    destruct ((len q1 =? len (transactions l)) && flushC l) eqn:E.
    + apply andb_prop in E. destruct E as [_ E]. simpl.
      repeat split; auto.
    + destruct ((maxTransactionQueueSize l <=? 0) || _); [|left; reflexivity].
      unfold startTimer. simpl. destruct (flushC l) eqn:Ef; simpl;
        repeat split; auto.
  - destruct (flushC l); [left; reflexivity|exact I].
  - destruct (forceFlush l); [|exact I].
    destruct (drainTransactions _ _ _ _) as [[q1 s1] t1]. left. reflexivity.
Qed.

(** The queues and the timer at the end of the send phase. *)
Lemma closed_form_queues (w : World) (b : bool) (f0 : Frame) :
  let f := sendPhaseClosedForm w b f0 in
  (sendPhaseFailed w b f0 = true -> flushC (fr_loop f) = true)
  /\ (sendPhaseFailed w b f0 = false ->
      flushC (fr_loop f) = flushC (fr_loop f0)
      /\ errors (fr_loop f) = []
      /\ (b = true -> transactions (fr_loop f) = [])
      /\ (b = false -> transactions (fr_loop f) = transactions (fr_loop f0))).
Proof.
  unfold sendPhaseClosedForm. simpl. split.
  - intros ->. reflexivity.
  - intros Hf. rewrite Hf. unfold sendPhaseFailed in Hf.
    apply orb_false_iff in Hf. destruct Hf as [HE HT].
    unfold sendFailed in HE, HT. split; [reflexivity|]. split; [|split].
    + destruct (outcome (sendPhaseErrorsResult w f0)); [reflexivity|].
      simpl in HE. apply negb_false_iff, Z.eqb_eq, len_nil_iff in HE.
      exact HE.
    + intros ->. simpl in *.
      destruct (outcome (sendPhaseTransactionsResult w f0)); [reflexivity|].
      simpl in HT. apply negb_false_iff, Z.eqb_eq, len_nil_iff in HT.
      exact HT.
    + intros ->. reflexivity.
Qed.

Lemma timer_covers_queues_step (w : World) (ev : Event) (l : Loop)
    (f : Frame) :
  (transactions l <> [] \/ errors l <> [] -> flushC l = true) ->
  iteration w ev l = Some (Some f) ->
  (transactions (fr_loop f) <> [] \/ errors (fr_loop f) <> [] ->
   flushC (fr_loop f) = true).
Proof.
  intros Hinv Hit. pose proof (select_timer ev l) as Hs.
  unfold iteration in Hit.
  destruct (select ev l) as [[|l1 st tr|l1 st b tr]|] eqn:Hsel;
    try discriminate.
  - inversion Hit; subst. simpl. destruct Hs as (H1 & H2 & H3).
    intros [Ht|He].
    + destruct (transactions l) eqn:Et; [exact (H1 Ht eq_refl)|].
      apply H2, Hinv. left. discriminate.
    + apply H2, Hinv. right. rewrite <- H3. exact He.
  - destruct (select_SendPhase _ _ _ _ _ _ Hsel) as [Hz _].
    rewrite sendPhase_closed_form in Hit by exact Hz.
    inversion Hit; subst f. clear Hit.
    destruct (closed_form_queues w b (mkFrame l1 st tr)) as [Hfail Hok].
    cbv zeta in Hfail, Hok.
    destruct (sendPhaseFailed w b (mkFrame l1 st tr)) eqn:Hf.
    + intros _. exact (Hfail eq_refl).
    + destruct (Hok eq_refl) as (Hc & He & Ht1 & Ht0).
      rewrite Hc, He. cbn [fr_loop]. destruct b.
      * rewrite (Ht1 eq_refl). intros [H|H]; contradiction H; reflexivity.
      * rewrite (Ht0 eq_refl).
        destruct Hs as [Hs|[Hs1 Hs2]]; [discriminate|].
        intros [H|H]; [|contradiction H; reflexivity].
        rewrite Hs2. apply Hinv. left. rewrite <- Hs1. exact H.
Qed.

(** X7. Queued records always have a timer: between iterations, whenever
    the transactions queue or the errors queue is not empty, the
    flush/retry timer is pending, so a later send attempt is scheduled. *)
Theorem queued_records_have_a_timer (l : Loop) :
  reachable l ->
  transactions l <> [] \/ errors l <> [] -> flushC l = true.
Proof.
  induction 1 as [|w ev l f _ IH _ _ Hit].
  - simpl. intros [H|H]; contradiction H; reflexivity.
  - exact (timer_covers_queues_step w ev l f IH Hit).
Qed.

Lemma wf_newTracer_discard (n : Z) :
  0 <= n <= tenSeconds -> wf_schedule (newTracer discardWorld tenSeconds n).
Proof.
  intro H. unfold wf_schedule, newTracer. simpl.
  repeat constructor; simpl; try apply wf_world_discard;
    apply int_ok_small; unfold tenSeconds in *; lia.
Qed.

Lemma wf_newTracer_failing (n : Z) :
  0 <= n <= tenSeconds -> wf_schedule (newTracer failingWorld tenSeconds n).
Proof.
  intro H. unfold wf_schedule, newTracer. simpl.
  repeat constructor; simpl; try apply wf_world_failing;
    apply int_ok_small; unfold tenSeconds in *; lia.
Qed.

(** The statement after a new tracer received one transaction. *)
Lemma queued_records_have_a_timer_witness :
  exists l tr,
    run oneTransactionSchedule loop_init = Some (l, tr)
    /\ transactions l <> [] /\ flushC l = true.
Proof.
  assert (H : exists l tr,
             run oneTransactionSchedule loop_init = Some (l, tr)
             /\ transactions l <> [])
    by (eexists; eexists; split; [vm_compute; reflexivity|discriminate]).
  destruct H as (l & tr & Hrun & Hne). exists l, tr.
  split; [exact Hrun|]. split; [exact Hne|].
  apply queued_records_have_a_timer; [|left; exact Hne].
  apply (run_reachable oneTransactionSchedule loop_init l tr);
    [apply reachable_init| |exact Hrun].
  unfold oneTransactionSchedule. apply Forall_app. split.
  - apply wf_newTracer_discard. unfold tenSeconds. lia.
  - repeat constructor. apply wf_world_discard.
Defined.

(** ** Error ingress is suspended only at the cap *)






(** ** The stats account for what happened *)

Lemma uint64_uint64_add (a b : Z) : uint64 (uint64 a + b) = uint64 (a + b).
Proof. unfold uint64. apply Zplus_mod_idemp_l. Qed.

Lemma uint64_range (z : Z) : 0 <= uint64 z < uint64_mod.
Proof. unfold uint64. apply Z.mod_pos_bound. reflexivity. Qed.

Lemma uint64_le (z : Z) : 0 <= z -> uint64 z <= z.
Proof. intro H. unfold uint64. apply Z.mod_le; [exact H|reflexivity]. Qed.

(** The drop-oldest append touches [TransactionsDropped] only, by the
    number of records it evicts. *)
Lemma receivedTransaction_counters (max : Z) (queue : list Transaction)
    (tx : Transaction) (stats : TracerStats) :
  let r := receivedTransaction max queue tx stats in
  TransactionsSent (snd (fst r)) = TransactionsSent stats
  /\ ErrorsSent (snd (fst r)) = ErrorsSent stats
  /\ ErrorsDropped (snd (fst r)) = ErrorsDropped stats
  /\ (len queue <= int_max ->
      0 <= TransactionsDropped stats < uint64_mod ->
      TransactionsDropped (snd (fst r))
      = uint64 (TransactionsDropped stats + len (pooledTransactions (snd r)))
      /\ len (fst (fst r)) <= len queue + 1).
Proof.
  unfold receivedTransaction.
  pose proof (len_nonneg queue) as Hq.
  pose proof int_max_lt_uint64_mod as Hm.
  destruct ((0 <? max) && (max <=? len queue)) eqn:E; simpl.
  - apply andb_prop in E. destruct E as [E1 E2].
    apply Z.ltb_lt in E1. apply Z.leb_le in E2.
    repeat split; try reflexivity.
    + rewrite pooledTransactions_evicted.
      rewrite (uint64_small (len queue - max + 1)) by lia.
      assert (Hf : len (firstn (Z.to_nat (len queue - max + 1)) queue)
                   = len queue - max + 1).
      { unfold len. rewrite length_firstn. unfold len in *. lia. }
      rewrite Hf. reflexivity.
    + rewrite (uint64_small (len queue - max + 1)) by lia.
      rewrite len_app. unfold len. rewrite length_skipn. simpl.
      unfold len in *. lia.
  - repeat split; try reflexivity.
    + change (len (pooledTransactions [])) with 0. rewrite Z.add_0_r.
      symmetry. apply uint64_small. assumption.
    + rewrite len_app. unfold len at 2. simpl. lia.
Qed.

Lemma drainTransactions_counters (max : Z) (buffered : list Transaction) :
  forall (queue : list Transaction) (stats : TracerStats),
    let r := drainTransactions max queue stats buffered in
    TransactionsSent (snd (fst r)) = TransactionsSent stats
    /\ ErrorsSent (snd (fst r)) = ErrorsSent stats
    /\ ErrorsDropped (snd (fst r)) = ErrorsDropped stats
    /\ (len queue + len buffered <= int_max ->
        0 <= TransactionsDropped stats < uint64_mod ->
        TransactionsDropped (snd (fst r))
        = uint64 (TransactionsDropped stats
                  + len (pooledTransactions (snd r)))).
Proof.
  induction buffered as [|tx rest IH]; intros queue stats; simpl.
  - repeat split; try reflexivity. intros _ H.
    change (len (pooledTransactions [])) with 0. rewrite Z.add_0_r.
    symmetry. apply uint64_small, H.
  - pose proof (receivedTransaction_counters max queue tx stats) as H.
    destruct (receivedTransaction max queue tx stats) as [[q1 s1] t1].
    specialize (IH q1 s1).
    destruct (drainTransactions max q1 s1 rest) as [[q2 s2] t2].
    simpl in *. destruct H as (H1 & H2 & H3 & H4).
    destruct IH as (I1 & I2 & I3 & I4).
    repeat split; try congruence.
    intros Hlen Hr.
    pose proof (len_nonneg queue). pose proof (len_nonneg rest).
    assert (Hcons : len (tx :: rest) = len rest + 1)
      by (unfold len; simpl; lia).
    destruct H4 as [H4 H5]; [lia|exact Hr|].
    rewrite I4; [|lia|rewrite H4; apply uint64_range].
    rewrite H4, uint64_uint64_add, pooledTransactions_app, len_app.
    f_equal. lia.
Qed.

(** The stats the select statement leaves: the iteration's delta holds
    only the drops of the case that fired, and [t.stats] is committed on
    the path that continues after a drop. *)
Lemma select_stats (ev : Event) (l : Loop) :
  match select ev l with
  | Some (Continue l1 delta _) =>
      TransactionsSent delta = 0 /\ ErrorsSent delta = 0
      /\ ErrorsDropped delta = 0
      /\ (len (transactions l) + len (transactionsTaken ev) <= int_max ->
          TransactionsDropped delta = uint64 (len (evictedBySelect ev l)))
      /\ t_stats l1
         = (if isZero delta then t_stats l else accumulate (t_stats l) delta)
  | Some (SendPhase l1 delta _ _) =>
      TransactionsSent delta = 0 /\ ErrorsSent delta = 0
      /\ ErrorsDropped delta = 0
      /\ (len (transactions l) + len (transactionsTaken ev) <= int_max ->
          TransactionsDropped delta = uint64 (len (evictedBySelect ev l)))
      /\ t_stats l1 = t_stats l
  | _ => True
  end.
Proof.
  destruct ev; simpl; try exact I; try (repeat split; reflexivity).
  - destruct ((n <=? 0) || _); repeat split; reflexivity.
  - destruct ((n <=? 0) || _); repeat split; reflexivity.
  - destruct (errorsC l); [repeat split; reflexivity|exact I].
  - pose proof (receivedTransaction_counters (maxTransactionQueueSize l)
                  (transactions l) tx zeroStats) as H.
    pose proof (receivedTransaction_eviction (maxTransactionQueueSize l)
                  (transactions l) tx zeroStats) as He.
    unfold receivedTransaction in *.
    pose proof (len_nonneg (transactions l)) as Hq.
    assert (Hone : len [tx] = 1) by reflexivity.
    destruct ((0 <? maxTransactionQueueSize l)
              && (maxTransactionQueueSize l <=? len (transactions l))) eqn:E;
      simpl in *.
    + apply andb_prop in E. destruct E as [E1 E2].
      apply Z.ltb_lt in E1. apply Z.leb_le in E2.
      destruct H as (H1 & H2 & H3 & H4).
      set (n := uint64 (len (transactions l) - maxTransactionQueueSize l + 1))
        in *.
      assert (Hn : 0 <= n <= len (transactions l)
                            - maxTransactionQueueSize l + 1).
      { split; [apply uint64_range|apply uint64_le; lia]. }
      assert (Hlen : len (skipn (Z.to_nat n) (transactions l) ++ [tx])
                     = len (transactions l) - n + 1).
      { rewrite len_app, Hone. unfold len. rewrite length_skipn.
        unfold len in *. lia. }
      assert (Hd : uint64_add 0 n = n).
      { unfold uint64_add. simpl. apply uint64_small, uint64_range. }
      destruct ((len (skipn (Z.to_nat n) (transactions l) ++ [tx])
                 =? len (transactions l)) && flushC l) eqn:Ec.
      * apply andb_prop in Ec. destruct Ec as [Ec _].
        apply Z.eqb_eq in Ec. rewrite Hlen in Ec.
        assert (Hz : isZero (add_TransactionsDropped n zeroStats) = false).
        { unfold isZero. simpl. rewrite Hd.
          assert (E0 : (n =? 0) = false) by (apply Z.eqb_neq; lia).
          rewrite E0. reflexivity. }
        simpl. rewrite Hz. repeat split; try reflexivity.
        intro Hb. destruct H4 as [H4 _]; [lia|unfold uint64_mod; simpl; lia|].
        exact H4.
      * assert (Ef : (maxTransactionQueueSize l <=? 0)
                     || (len (skipn (Z.to_nat n) (transactions l) ++ [tx])
                         <? maxTransactionQueueSize l) = false).
        { apply orb_false_iff. split; [apply Z.leb_gt; lia|].
          apply Z.ltb_ge. rewrite Hlen. lia. }
        rewrite Ef. repeat split; try reflexivity.
        intro Hb. destruct H4 as [H4 _]; [lia|unfold uint64_mod; simpl; lia|].
        exact H4.
    + assert (Ec : (len (transactions l ++ [tx]) =? len (transactions l))
                   = false).
      { apply Z.eqb_neq. rewrite len_app, Hone. lia. }
      rewrite Ec. simpl.
      destruct ((maxTransactionQueueSize l <=? 0) || _).
      * unfold startTimer. simpl. destruct (flushC l); simpl;
          repeat split; reflexivity.
      * repeat split; reflexivity.
  - destruct (flushC l); [repeat split; reflexivity|exact I].
  - destruct (forceFlush l); [|exact I].
    pose proof (drainTransactions_counters (maxTransactionQueueSize l)
                  buffered (transactions l) zeroStats) as H.
    destruct (drainTransactions _ _ _ _) as [[q1 s1] t1]. simpl in *.
    destruct H as (H1 & H2 & H3 & H4).
    repeat split; try assumption.
    intro Hb. apply H4; [exact Hb|unfold uint64_mod; simpl; lia].
Qed.

(** X9. The iteration's stats delta counts what the iteration did:
    [TransactionsSent] and [ErrorsSent] are the numbers of records in the
    batches the Transport accepted, [TransactionsDropped] is the number of
    records the drop-oldest append evicted (for slices whose length fits an
    [int]), and the loop never charges [ErrorsDropped]; all as [uint64]. *)
Theorem stats_delta_counts_records (w : World) (ev : Event) (l : Loop)
    (f : Frame) :
  iteration w ev l = Some (Some f) ->
  TransactionsSent (fr_statsUpdates f)
  = uint64 (len (deliveredTransactions (fr_trace f)))
  /\ ErrorsSent (fr_statsUpdates f)
     = uint64 (len (deliveredErrors (fr_trace f)))
  /\ ErrorsDropped (fr_statsUpdates f) = 0
  /\ (len (transactions l) + len (transactionsTaken ev) <= int_max ->
      TransactionsDropped (fr_statsUpdates f)
      = uint64 (len (evictedBySelect ev l))).
Proof.
  intro Hit. unfold iteration in Hit.
  pose proof (select_trace ev l) as Htr.
  pose proof (select_stats ev l) as Hst.
  destruct (recycleTransactions_readings (evictedBySelect ev l))
    as (_ & _ & A3 & _ & _ & A6).
  destruct (select ev l) as [[|l1 st tr|l1 st b tr]|] eqn:Hsel;
    try discriminate.
  - inversion Hit; subst. simpl. destruct Htr as (timer & -> & Ht).
    destruct Hst as (S1 & S2 & S3 & S4 & _).
    unfold deliveredTransactions, deliveredErrors in *.
    rewrite !flat_map_app, A3, A6.
    destruct Ht as [->| ->]; simpl; repeat split; assumption.
  - destruct (select_SendPhase _ _ _ _ _ _ Hsel) as [Hz _].
    rewrite sendPhase_closed_form in Hit by exact Hz.
    inversion Hit; subst f. clear Hit. subst tr.
    destruct Hst as (S1 & S2 & S3 & S4 & _).
    set (f0 := mkFrame l1 st (recycleTransactions (evictedBySelect ev l))).
    destruct (closed_form_pool_readings w b f0)
      as (_ & _ & G3 & _ & _ & G6).
    rewrite G3, G6. subst f0. cbn [fr_trace fr_loop]. rewrite A3, A6.
    set (f0 := mkFrame l1 st (recycleTransactions (evictedBySelect ev l))).
    pose proof (sendErrors_counters (loop_sender l1) (w_Transport w) st
                  (sendPhaseErrors w f0)) as HE.
    pose proof (sendTransactions_counters (loop_sender l1) (w_Transport w)
                  (statsAfter (sendPhaseErrorsResult w f0))
                  (transactions l1)) as HT.
    cbv zeta in HE, HT.
    change (sendErrors (loop_sender l1) (w_Transport w) st
              (sendPhaseErrors w f0))
      with (sendPhaseErrorsResult w f0) in HE.
    change (sendTransactions (loop_sender l1) (w_Transport w)
              (statsAfter (sendPhaseErrorsResult w f0)) (transactions l1))
      with (sendPhaseTransactionsResult w f0) in HT.
    destruct HE as (E1 & E2 & E3 & E4).
    destruct HT as (T1 & T2 & T3 & T4).
    unfold sendPhaseClosedForm. cbn [fr_statsUpdates]. fold f0.
    destruct b; simpl.
    + rewrite T4, T1, T2, T3, E1, E2, E3, E4, S1, S2, S3.
      destruct (outcome (sendPhaseErrorsResult w f0)),
        (outcome (sendPhaseTransactionsResult w f0)); simpl;
        repeat split; try reflexivity; exact S4.
    + rewrite E1, E2, E3, E4, S1, S2, S3.
      destruct (outcome (sendPhaseErrorsResult w f0)); simpl;
        repeat split; try reflexivity; exact S4.
Qed.

(** The statement at the arrival that evicts two records and sends the
    third. *)
Lemma stats_delta_counts_records_witness :
  exists f,
    iteration discardWorld (RecvTransaction (sampleTx 3))
      (set_transactions [sampleTx 1; sampleTx 2] (configuredLoop 1 1000))
    = Some (Some f)
    /\ TransactionsSent (fr_statsUpdates f) = 1
    /\ TransactionsDropped (fr_statsUpdates f) = 2.
Proof.
  eexists. split; [reflexivity|].
  destruct (stats_delta_counts_records discardWorld
              (RecvTransaction (sampleTx 3))
              (set_transactions [sampleTx 1; sampleTx 2]
                 (configuredLoop 1 1000)) _ eq_refl)
    as (H1 & _ & _ & H4).
  split; [exact H1|].
  apply H4. vm_compute. discriminate.
Defined.

(** X10. Every iteration commits its delta: at the end of the iteration
    [t.stats] is [t.stats] of the start accumulated with the iteration's
    [statsUpdates] when that is not zero, and is unchanged when it is
    zero, on the paths that [continue] as on the path through the send
    phase. *)
Theorem stats_delta_is_committed (w : World) (ev : Event) (l : Loop)
    (f : Frame) :
  iteration w ev l = Some (Some f) ->
  t_stats (fr_loop f)
  = (if isZero (fr_statsUpdates f) then t_stats l
     else accumulate (t_stats l) (fr_statsUpdates f)).
Proof.
  intro Hit. unfold iteration in Hit.
  pose proof (select_stats ev l) as Hst.
  destruct (select ev l) as [[|l1 st tr|l1 st b tr]|] eqn:Hsel;
    try discriminate.
  - inversion Hit; subst. simpl. exact (proj2 (proj2 (proj2 (proj2 Hst)))).
  - destruct (select_SendPhase _ _ _ _ _ _ Hsel) as [Hz _].
    rewrite sendPhase_closed_form in Hit by exact Hz.
    inversion Hit; subst f. clear Hit.
    destruct Hst as (_ & _ & _ & _ & S5).
    unfold sendPhaseClosedForm. simpl. rewrite S5. reflexivity.
Qed.

(** The statement at a saturated arrival under a pending timer. *)
Lemma stats_delta_is_committed_witness :
  exists f,
    iteration failingWorld (RecvTransaction (sampleTx 2))
      (set_flushC true (set_transactions [sampleTx 1] (configuredLoop 1 1000)))
    = Some (Some f)
    /\ TransactionsDropped (t_stats (fr_loop f)) = 1.
Proof.
  eexists. split; [reflexivity|].
  rewrite (stats_delta_is_committed failingWorld
             (RecvTransaction (sampleTx 2))
             (set_flushC true
                (set_transactions [sampleTx 1] (configuredLoop 1 1000)))
             _ eq_refl).
  reflexivity.
Defined.

(** ** Transaction arrivals *)

(** X11. A transaction that arrives while the queue stays below the cap
    (or without a cap) is appended, arms the timer with the current
    interval if none is pending, and nothing else happens: no Transport
    call, no eviction, nothing in the stats.  A transaction that brings
    the queue exactly to a positive cap is sent at once with the whole
    queue, after the errors; the queue is then empty if the Transport
    accepted the batch and holds the batch if it did not. *)
Theorem transaction_arrival (w : World) (l : Loop) (tx : Transaction) :
  (maxTransactionQueueSize l <= 0
   \/ len (transactions l) + 1 < maxTransactionQueueSize l ->
   exists l',
     iteration w (RecvTransaction tx) l
     = Some (Some (mkFrame l' zeroStats
                     (if flushC l then []
                      else [TimerReset (flushInterval l)])))
     /\ transactions l' = transactions l ++ [tx]
     /\ flushC l' = true
     /\ errors l' = errors l /\ t_stats l' = t_stats l)
  /\ (0 < maxTransactionQueueSize l ->
      len (transactions l) + 1 = maxTransactionQueueSize l ->
      let batch := transactions l ++ [tx] in
      let queue := drainErrors (maxErrorQueueSize l) (errors l) (w_errors w) in
      exists f,
        iteration w (RecvTransaction tx) l = Some (Some f)
        /\ filter isTransportCall (fr_trace f)
           = match queue with
             | [] => []
             | _ => [TransportSendErrors queue
                       (transport.SendErrors (w_Transport w) queue)]
             end
             ++ [TransportSendTransactions batch
                   (transport.SendTransactions (w_Transport w) batch)]
        /\ pooledTransactions (fr_trace f)
           = match transport.SendTransactions (w_Transport w) batch with
             | None => batch
             | Some _ => []
             end
        /\ transactions (fr_loop f)
           = match transport.SendTransactions (w_Transport w) batch with
             | None => []
             | Some _ => batch
             end).
Proof.
  pose proof (len_nonneg (transactions l)) as Hq.
  assert (Hone : len [tx] = 1) by reflexivity.
  split.
  - intro H.
    assert (Hrt : receivedTransaction (maxTransactionQueueSize l)
                    (transactions l) tx zeroStats
                  = (transactions l ++ [tx], zeroStats, [])).
    { unfold receivedTransaction.
      assert (E : (0 <? maxTransactionQueueSize l)
                  && (maxTransactionQueueSize l <=? len (transactions l))
                  = false).
      { apply andb_false_iff.
        destruct H; [left; apply Z.ltb_ge|right; apply Z.leb_gt]; lia. }
      rewrite E. reflexivity. }
    unfold iteration, select. rewrite Hrt. cbv zeta. simpl.
    assert (E1 : (len (transactions l ++ [tx]) =? len (transactions l))
                 = false)
      by (apply Z.eqb_neq; rewrite len_app, Hone; lia).
    assert (E2 : (maxTransactionQueueSize l <=? 0)
                 || (len (transactions l ++ [tx])
                     <? maxTransactionQueueSize l) = true).
    { apply orb_true_iff. rewrite len_app, Hone.
      destruct H; [left; apply Z.leb_le|right; apply Z.ltb_lt]; lia. }
    rewrite E1, E2. simpl. unfold startTimer. simpl.
    destruct (flushC l) eqn:Ef; eexists; (split; [reflexivity|]); simpl;
      repeat split; try reflexivity; exact Ef.
  - intros Hpos Hfull batch queue.
    assert (Hrt : receivedTransaction (maxTransactionQueueSize l)
                    (transactions l) tx zeroStats
                  = (batch, zeroStats, [])).
    { unfold receivedTransaction.
      assert (E : (0 <? maxTransactionQueueSize l)
                  && (maxTransactionQueueSize l <=? len (transactions l))
                  = false)
        by (apply andb_false_iff; right; apply Z.leb_gt; lia).
      rewrite E. reflexivity. }
    assert (Hsel : select (RecvTransaction tx) l
                   = Some (SendPhase (set_transactions batch l) zeroStats
                             true [])).
    { unfold select. rewrite Hrt. cbv zeta. simpl.
      assert (E1 : (len batch =? len (transactions l)) = false)
        by (apply Z.eqb_neq; subst batch; rewrite len_app, Hone; lia).
      assert (E2 : (maxTransactionQueueSize l <=? 0)
                   || (len batch <? maxTransactionQueueSize l) = false).
      { apply orb_false_iff. subst batch. rewrite len_app, Hone.
        split; [apply Z.leb_gt|apply Z.ltb_ge]; lia. }
      rewrite E1, E2. reflexivity. }
    assert (Hne : batch <> [])
      by (subst batch; destruct (transactions l); discriminate).
    eexists. split; [exact (iteration_SendPhase w _ _ _ _ _ _ Hsel)|].
    set (f0 := mkFrame (set_transactions batch l) zeroStats []).
    destruct (closed_form_pool_readings w true f0)
      as (_ & _ & _ & G4 & _).
    split; [|split].
    + rewrite <- (sendPhase_closed_form w true f0 eq_refl).
      rewrite sendPhase_transport_calls. subst f0. cbv zeta. simpl.
      fold queue. f_equal. destruct batch; [contradiction|reflexivity].
    + rewrite G4. subst f0. cbn [fr_trace fr_loop]. simpl.
      unfold sendPhaseTransactionsResult. rewrite sendTransactions_outcome.
      simpl. rewrite (len_zero_false _ Hne). simpl.
      destruct (transport.SendTransactions (w_Transport w) batch);
        reflexivity.
    + unfold sendPhaseClosedForm. subst f0. simpl.
      unfold sendPhaseTransactionsResult. rewrite sendTransactions_outcome.
      simpl. rewrite (len_zero_false _ Hne). simpl.
      destruct (transport.SendTransactions (w_Transport w) batch);
        reflexivity.
Qed.

(** The statement at an arrival that fills a queue of cap two. *)
Lemma transaction_arrival_witness :
  exists f,
    iteration discardWorld (RecvTransaction (sampleTx 2))
      (set_transactions [sampleTx 1] (configuredLoop 2 1000))
    = Some (Some f)
    /\ transactions (fr_loop f) = [].
Proof.
  assert (H1 : 0 < maxTransactionQueueSize
                     (set_transactions [sampleTx 1] (configuredLoop 2 1000)))
    by (simpl; lia).
  destruct (proj2 (transaction_arrival discardWorld
                     (set_transactions [sampleTx 1] (configuredLoop 2 1000))
                     (sampleTx 2)) H1 eq_refl)
    as (f & Hit & _ & _ & Htx).
  exists f. split; [exact Hit|exact Htx].
Defined.

(** ** Timer discipline *)

Lemma select_timer_resets (ev : Event) (l : Loop) :
  match select ev l with
  | Some (Continue l1 _ tr) =>
      (timerResets tr = [] \/ timerResets tr = [flushInterval l])
      /\ (flushC l = true -> timerResets tr = [] /\ flushC l1 = true)
      /\ (timerResets tr <> [] -> flushC l1 = true)
  | Some (SendPhase l1 _ _ tr) =>
      timerResets tr = []
      /\ flushInterval l1 = flushInterval l
      /\ (disarmsTimer ev = false -> flushC l1 = flushC l)
  | _ => True
  end.
Proof.
  assert (Hsilent : forall l1 : Loop,
             flushC l1 = flushC l ->
             (timerResets [] = [] \/ timerResets [] = [flushInterval l])
             /\ (flushC l = true -> timerResets [] = [] /\ flushC l1 = true)
             /\ (timerResets [] <> [] -> flushC l1 = true)).
  { intros l1 H. split; [left; reflexivity|]. split.
    - intro Hc. split; [reflexivity|congruence].
    - intro Hn. contradiction Hn. reflexivity. }
  destruct ev; simpl; try exact I; try (apply Hsilent; reflexivity).
  - destruct ((n <=? 0) || _); [apply Hsilent; reflexivity|].
    repeat split; reflexivity.
  - destruct ((n <=? 0) || _); apply Hsilent; reflexivity.
  - destruct (errorsC l); [repeat split; reflexivity|exact I].
  - pose proof (receivedTransaction_eviction (maxTransactionQueueSize l)
                  (transactions l) tx zeroStats) as He.
    destruct (receivedTransaction _ _ _ _) as [[q1 s1] t1]. simpl in *.
    destruct He as [He _]. pose proof (eviction_timerResets t1 He) as Ht.
    destruct ((len q1 =? len (transactions l)) && flushC l) eqn:E.
    + simpl. rewrite Ht. apply Hsilent. reflexivity.
    + destruct ((maxTransactionQueueSize l <=? 0) || _).
      * unfold startTimer. simpl. destruct (flushC l) eqn:Ef; simpl;
          unfold timerResets in *; rewrite flat_map_app, Ht; simpl.
        -- split; [left; reflexivity|].
           split; intros; try split; try reflexivity; try assumption.
        -- split; [right; reflexivity|].
           split; intros; try discriminate; reflexivity.
      * repeat split; try reflexivity; exact Ht.
  - destruct (flushC l); [repeat split; try reflexivity; discriminate|exact I].
  - destruct (forceFlush l); [|exact I].
    pose proof (drainTransactions_eviction (maxTransactionQueueSize l)
                  buffered (transactions l) zeroStats) as He.
    destruct (drainTransactions _ _ _ _) as [[q1 s1] t1]. simpl in *.
    destruct He as [He _].
    repeat split; try reflexivity; try discriminate;
      exact (eviction_timerResets t1 He).
Qed.

(** X12. In one iteration the timer is reset at most once, to the flush
    interval in force, and the timer is pending afterwards.  A timer that
    is pending when the iteration starts is never reset, and stays
    pending, unless the iteration is its own expiry or a forced flush: an
    arrival never postpones a scheduled send. *)
Theorem pending_timer_is_never_reset (w : World) (ev : Event) (l : Loop)
    (f : Frame) :
  iteration w ev l = Some (Some f) ->
  (timerResets (fr_trace f) = []
   \/ timerResets (fr_trace f) = [flushInterval l])
  /\ (timerResets (fr_trace f) <> [] -> flushC (fr_loop f) = true)
  /\ (flushC l = true -> disarmsTimer ev = false ->
      timerResets (fr_trace f) = [] /\ flushC (fr_loop f) = true).
Proof.
  intro Hit. unfold iteration in Hit.
  pose proof (select_timer_resets ev l) as Hs.
  destruct (select ev l) as [[|l1 st tr|l1 st b tr]|] eqn:Hsel;
    try discriminate.
  - inversion Hit; subst. simpl. destruct Hs as (H1 & H2 & H3).
    split; [exact H1|]. split; [exact H3|]. intros Hc _. exact (H2 Hc).
  - destruct (select_SendPhase _ _ _ _ _ _ Hsel) as [Hz _].
    rewrite sendPhase_closed_form in Hit by exact Hz.
    inversion Hit; subst f. clear Hit.
    destruct Hs as (H1 & H2 & H3).
    rewrite closed_form_timerResets. cbn [fr_trace fr_loop].
    rewrite H1, H2. unfold sendPhaseClosedForm. simpl.
    destruct (sendPhaseFailed w b (mkFrame l1 st tr)) eqn:Hf; simpl.
    + destruct (flushC l1) eqn:Ec; simpl.
      * split; [left; reflexivity|]. split; [reflexivity|].
        intros _ _. split; reflexivity.
      * split; [right; reflexivity|]. split; [reflexivity|].
        intros Hc Hd. specialize (H3 Hd). rewrite Hc in H3. discriminate H3.
    + split; [left; reflexivity|].
      split; [intros H; contradiction H; reflexivity|].
      intros Hc Hd. split; [reflexivity|]. rewrite (H3 Hd). exact Hc.
Qed.

(** The statement at an error that cannot be sent while a timer is
    pending. *)
Lemma pending_timer_is_never_reset_witness :
  exists f,
    iteration failingWorld (RecvError (sampleErr 1))
      (set_flushC true (configuredLoop 5 10))
    = Some (Some f)
    /\ timerResets (fr_trace f) = [] /\ flushC (fr_loop f) = true.
Proof.
  eexists. split; [reflexivity|].
  exact (proj2 (proj2 (pending_timer_is_never_reset failingWorld
                         (RecvError (sampleErr 1))
                         (set_flushC true (configuredLoop 5 10)) _ eq_refl))
           eq_refl eq_refl).
Defined.

(** ** Options and NewTracer *)

(** X13. [options.init] fails only when told not to continue on error and
    a configuration reader failed; it then returns the error of the first
    failing reader, in the order flush interval, transactions cap, span
    cap, sampler, leaves the options untouched and logs nothing.
    Otherwise it returns nil, stores for each option the reader's value or,
    where the reader failed, the default (no sampler), and logs every
    failure in that order. *)
Theorem options_init_outcome (p : Package) (continueOnError : bool)
    (opts : options) :
  options_init p continueOnError opts
  = match readerErrors p with
    | first :: _ =>
        if continueOnError
        then (None, resolvedOptions p,
              map (fun err => ("[elasticapm]: " ++ err)%string)
                (readerErrors p))
        else (Some first, opts, [])
    | [] => (None, resolvedOptions p, [])
    end.
Proof.
  unfold options_init, readerErrors, resolvedOptions.
  destruct (initialFlushInterval p) as [v1 [e1|]];
    destruct (initialMaxTransactionQueueSize p) as [v2 [e2|]];
    destruct (initialMaxSpans p) as [v3 [e3|]];
    destruct (initialSampler p) as [v4 [e4|]];
    destruct continueOnError; reflexivity.
Qed.

(** X14. [NewTracer] never reports a missing service name: with an empty
    name it takes the service of the environment, whose address is never
    nil, and with a name it builds the service from name and version.  It
    fails exactly when a configuration reader fails, with the error of the
    first failing reader; otherwise the tracer carries the readers' span
    cap and sampler and its loop first receives the readers' flush
    interval and transactions cap and the default error cap and context
    lines.  [DefaultTracer] is always built, with defaults in place of
    what could not be read. *)
Theorem NewTracer_outcome (p : Package) (serviceName serviceVersion : string) :
  NewTracer p serviceName serviceVersion
  = match readerErrors p with
    | first :: _ => inr first
    | [] =>
        inl (newTracerHandle
               (Some (if String.eqb serviceName ""
                      then envService p
                      else newService p serviceName serviceVersion))
               (resolvedOptions p))
    end
  /\ (forall (w : World) (service : option Service) (opts : options),
        map (pair w) (tracer_setup (newTracerHandle service opts))
        = newTracer w (opt_flushInterval opts)
            (opt_maxTransactionQueueSize opts))
  /\ DefaultTracer p
     = newTracerHandle (Some (envService p)) (resolvedOptions p).
Proof.
  split; [|split].
  - unfold NewTracer, options_init, readerErrors, resolvedOptions.
    destruct (String.eqb serviceName ""); simpl;
      destruct (initialFlushInterval p) as [v1 [e1|]];
      destruct (initialMaxTransactionQueueSize p) as [v2 [e2|]];
      destruct (initialMaxSpans p) as [v3 [e3|]];
      destruct (initialSampler p) as [v4 [e4|]]; reflexivity.
  - intros. reflexivity.
  - unfold DefaultTracer, options_init, resolvedOptions.
    destruct (initialFlushInterval p) as [v1 [e1|]];
      destruct (initialMaxTransactionQueueSize p) as [v2 [e2|]];
      destruct (initialMaxSpans p) as [v3 [e3|]];
      destruct (initialSampler p) as [v4 [e4|]]; reflexivity.
Qed.

(** ** contrib/apmsql: statements *)

(** X15. [ExecContext] and [QueryContext] finish the span exactly when
    [StartSpan] returned one, once, as their last call, with the context
    [StartSpan] returned and the statement's span context; the error they
    pass is always nil, whatever the statement returns, because the
    deferred call's arguments are evaluated when it is deferred. *)
Theorem finishSpan_reports_no_error (o : apmsql.Outside) (s : apmsql.stmt)
    (ctx : apmsql.Context) (args : list apmsql.NamedValue) :
  (let started :=
     apmsql.StartSpan o ctx (apmsql.signature s)
       (apmsql.spanType (apmsql.stmt_conn s) "exec") in
   let cs := snd (apmsql.ExecContext o s ctx args) in
   apmsql.finished cs
   = match fst started with Some sp => [(sp, None)] | None => [] end
   /\ exists body,
        cs = body ++ apmsql.deferFinishSpan s (snd started) (fst started)
        /\ apmsql.finished body = []
        /\ hd_error cs
           = Some (apmsql.CallStartSpan ctx (apmsql.signature s)
                     (apmsql.spanType (apmsql.stmt_conn s) "exec")))
  /\ (let started :=
        apmsql.StartSpan o ctx (apmsql.signature s)
          (apmsql.spanType (apmsql.stmt_conn s) "query") in
      let cs := snd (apmsql.QueryContext o s ctx args) in
      apmsql.finished cs
      = match fst started with Some sp => [(sp, None)] | None => [] end
      /\ exists body,
           cs = body ++ apmsql.deferFinishSpan s (snd started) (fst started)
           /\ apmsql.finished body = []
           /\ hd_error cs
              = Some (apmsql.CallStartSpan ctx (apmsql.signature s)
                        (apmsql.spanType (apmsql.stmt_conn s) "query"))).
Proof.
  split.
  - unfold apmsql.ExecContext.
    destruct (apmsql.StartSpan o ctx (apmsql.signature s)
                (apmsql.spanType (apmsql.stmt_conn s) "exec"))
      as [span ctx'].
    cbv zeta. simpl fst. simpl snd.
    destruct (apmsql.stmtExecContext s) as [ec|];
      [|destruct (apmsql.namedValueToValue o args) as [dargs [err|]];
        [|destruct (apmsql.ctx_Err ctx') as [err|]]];
      simpl snd; (split; [destruct span; reflexivity|]).
    + exists [apmsql.CallStartSpan ctx (apmsql.signature s)
                (apmsql.spanType (apmsql.stmt_conn s) "exec");
              apmsql.CallExecContext ctx' args]. repeat split.
    + exists [apmsql.CallStartSpan ctx (apmsql.signature s)
                (apmsql.spanType (apmsql.stmt_conn s) "exec");
              apmsql.CallNamedValueToValue args]. repeat split.
    + exists [apmsql.CallStartSpan ctx (apmsql.signature s)
                (apmsql.spanType (apmsql.stmt_conn s) "exec");
              apmsql.CallNamedValueToValue args]. repeat split.
    + exists [apmsql.CallStartSpan ctx (apmsql.signature s)
                (apmsql.spanType (apmsql.stmt_conn s) "exec");
              apmsql.CallNamedValueToValue args; apmsql.CallExec dargs].
      repeat split.
  - unfold apmsql.QueryContext.
    destruct (apmsql.StartSpan o ctx (apmsql.signature s)
                (apmsql.spanType (apmsql.stmt_conn s) "query"))
      as [span ctx'].
    cbv zeta. simpl fst. simpl snd.
    destruct (apmsql.stmtQueryContext s) as [qc|];
      [|destruct (apmsql.namedValueToValue o args) as [dargs [err|]];
        [|destruct (apmsql.ctx_Err ctx') as [err|]]];
      simpl snd; (split; [destruct span; reflexivity|]).
    + exists [apmsql.CallStartSpan ctx (apmsql.signature s)
                (apmsql.spanType (apmsql.stmt_conn s) "query");
              apmsql.CallQueryContext ctx' args]. repeat split.
    + exists [apmsql.CallStartSpan ctx (apmsql.signature s)
                (apmsql.spanType (apmsql.stmt_conn s) "query");
              apmsql.CallNamedValueToValue args]. repeat split.
    + exists [apmsql.CallStartSpan ctx (apmsql.signature s)
                (apmsql.spanType (apmsql.stmt_conn s) "query");
              apmsql.CallNamedValueToValue args]. repeat split.
    + exists [apmsql.CallStartSpan ctx (apmsql.signature s)
                (apmsql.spanType (apmsql.stmt_conn s) "query");
              apmsql.CallNamedValueToValue args; apmsql.CallQuery dargs].
      repeat split.
Qed.

(** X16. Without the optional context interface, [ExecContext] converts
    the named arguments first and returns a conversion error without
    looking at the context; next it returns the context's error if the
    context is done; only otherwise does it call [Exec], once, with the
    converted arguments, and returns its results.  With the interface it
    only delegates, on the context [StartSpan] returned, whatever the
    arguments and the context.  The same for [QueryContext] and
    [Query]. *)
Theorem statement_context_fallback (o : apmsql.Outside) (s : apmsql.stmt)
    (ctx : apmsql.Context) (args : list apmsql.NamedValue) :
  (let ctx' :=
     snd (apmsql.StartSpan o ctx (apmsql.signature s)
            (apmsql.spanType (apmsql.stmt_conn s) "exec")) in
   let r := apmsql.ExecContext o s ctx args in
   (apmsql.stmtExecContext s = None ->
    fst r
    = match apmsql.namedValueToValue o args, apmsql.ctx_Err ctx' with
      | (_, Some err), _ => (None, Some err)
      | (_, None), Some err => (None, Some err)
      | (dargs, None), None => apmsql.ds_Exec (apmsql.Stmt s) dargs
      end
    /\ filter apmsql.isDriverCall (snd r)
       = match apmsql.namedValueToValue o args, apmsql.ctx_Err ctx' with
         | (dargs, None), None => [apmsql.CallExec dargs]
         | _, _ => []
         end)
   /\ (forall ec, apmsql.stmtExecContext s = Some ec ->
       fst r = ec ctx' args
       /\ filter apmsql.isDriverCall (snd r)
          = [apmsql.CallExecContext ctx' args]))
  /\ (let ctx' :=
        snd (apmsql.StartSpan o ctx (apmsql.signature s)
               (apmsql.spanType (apmsql.stmt_conn s) "query")) in
      let r := apmsql.QueryContext o s ctx args in
      (apmsql.stmtQueryContext s = None ->
       fst r
       = match apmsql.namedValueToValue o args, apmsql.ctx_Err ctx' with
         | (_, Some err), _ => (None, Some err)
         | (_, None), Some err => (None, Some err)
         | (dargs, None), None => apmsql.ds_Query (apmsql.Stmt s) dargs
         end
       /\ filter apmsql.isDriverCall (snd r)
          = match apmsql.namedValueToValue o args, apmsql.ctx_Err ctx' with
            | (dargs, None), None => [apmsql.CallQuery dargs]
            | _, _ => []
            end)
      /\ (forall qc, apmsql.stmtQueryContext s = Some qc ->
          fst r = qc ctx' args
          /\ filter apmsql.isDriverCall (snd r)
             = [apmsql.CallQueryContext ctx' args])).
Proof.
  split.
  - unfold apmsql.ExecContext.
    destruct (apmsql.StartSpan o ctx (apmsql.signature s)
                (apmsql.spanType (apmsql.stmt_conn s) "exec"))
      as [span ctx'].
    cbv zeta. cbn [fst snd]. split.
    + intros ->.
      destruct (apmsql.namedValueToValue o args) as [dargs [err|]];
        destruct (apmsql.ctx_Err ctx') as [err'|];
        simpl; destruct span; split; reflexivity.
    + intros ec ->. simpl. destruct span; split; reflexivity.
  - unfold apmsql.QueryContext.
    destruct (apmsql.StartSpan o ctx (apmsql.signature s)
                (apmsql.spanType (apmsql.stmt_conn s) "query"))
      as [span ctx'].
    cbv zeta. cbn [fst snd]. split.
    + intros ->.
      destruct (apmsql.namedValueToValue o args) as [dargs [err|]];
        destruct (apmsql.ctx_Err ctx') as [err'|];
        simpl; destruct span; split; reflexivity.
    + intros qc ->. simpl. destruct span; split; reflexivity.
Qed.

(** The statement at a statement without the context interface whose
    context is already done: [Exec] is not called. *)
Lemma statement_context_fallback_witness :
  fst (apmsql.ExecContext apmsql.sampleOutside
         (apmsql.newStmt apmsql.failingStmt apmsql.sampleConn "SELECT 1")
         (apmsql.mkContext 0 (Some "context canceled"%string)) [])
  = (None, Some "context canceled"%string)
  /\ filter apmsql.isDriverCall
       (snd (apmsql.ExecContext apmsql.sampleOutside
               (apmsql.newStmt apmsql.failingStmt apmsql.sampleConn
                  "SELECT 1")
               (apmsql.mkContext 0 (Some "context canceled"%string)) []))
     = [].
Proof.
  exact (proj1 (proj1 (statement_context_fallback apmsql.sampleOutside
                         (apmsql.newStmt apmsql.failingStmt apmsql.sampleConn
                            "SELECT 1")
                         (apmsql.mkContext 0 (Some "context canceled"%string))
                         [])) eq_refl).
Defined.

(** ** Payload sizes *)



(** ** Arrivals under a rejecting Transport *)

Lemma plain_preparation_readings (txs : list Transaction) :
  let tr :=
    flat_map
      (prepareTransaction
         (mkSender None None None defaultPreContext defaultPostContext)) txs in
  filter isTransportCall tr = []
  /\ pooledTransactions tr = []
  /\ timerResets tr = [].
Proof.
  induction txs as [|tx txs IH]; simpl; [repeat split|].
  destruct IH as (H1 & H2 & H3).
  unfold prepareTransaction. simpl.
  destruct (tx_Sampled tx); simpl; repeat split; assumption.
Qed.

Lemma arrival_below_cap (w : World) (d n : Z) (c : bool)
    (q : list Transaction) (st : TracerStats) (tx : Transaction) :
  len q + 1 < n ->
  iteration w (RecvTransaction tx) (arrivalsLoop d n c q st)
  = Some (Some (mkFrame (arrivalsLoop d n true (q ++ [tx]) st) zeroStats
                  (if c then [] else [TimerReset d]))).
Proof.
  intro H. pose proof (len_nonneg q) as Hq.
  unfold iteration, select, receivedTransaction, arrivalsLoop. simpl.
  replace (n <=? len q) with false by (symmetry; apply Z.leb_gt; lia).
  rewrite andb_false_r. simpl. rewrite len_app.
  change (len [tx]) with 1.
  replace (len q + 1 =? len q) with false by (symmetry; apply Z.eqb_neq; lia).
  simpl.
  replace (len q + 1 <? n) with true by (symmetry; apply Z.ltb_lt; lia).
  rewrite orb_true_r. unfold startTimer. simpl.
  destruct c; reflexivity.
Qed.

Lemma arrival_fills_queue (w : World) (d n : Z) (c : bool)
    (q : list Transaction) (tx : Transaction) (err : error) :
  len q + 1 = n ->
  w_errors w = [] ->
  transport.SendTransactions (w_Transport w) (q ++ [tx]) = Some err ->
  exists tr,
    iteration w (RecvTransaction tx) (arrivalsLoop d n c q zeroStats)
    = Some (Some (mkFrame (arrivalsLoop d n true (q ++ [tx])
                             (oneFailureStats 0))
                    (incr_SendTransactions zeroStats) tr))
    /\ filter isTransportCall tr
       = [TransportSendTransactions (q ++ [tx]) (Some err)]
    /\ pooledTransactions tr = []
    /\ timerResets tr = if c then [] else [d].
Proof.
  intros H Hw Hrej. pose proof (len_nonneg q) as Hq.
  unfold iteration, select, receivedTransaction, arrivalsLoop. simpl.
  replace (n <=? len q) with false by (symmetry; apply Z.leb_gt; lia).
  rewrite andb_false_r. simpl. rewrite len_app.
  change (len [tx]) with 1.
  replace (len q + 1 =? len q) with false by (symmetry; apply Z.eqb_neq; lia).
  simpl.
  replace (len q + 1 <? n) with false by (symmetry; apply Z.ltb_ge; lia).
  replace (n <=? 0) with false by (symmetry; apply Z.leb_gt; lia).
  simpl.
  unfold sendPhase, stageDrainErrors, stageSendErrors. simpl.
  rewrite Hw. simpl.
  unfold stageSendTransactions, sendTransactions. simpl.
  rewrite len_app. change (len [tx]) with 1.
  replace (len q + 1 =? 0) with false by (symmetry; apply Z.eqb_neq; lia).
  unfold enrichTransactions. simpl. rewrite Hrej. simpl.
  unfold stageFinish, startTimer. simpl.
  destruct (plain_preparation_readings q) as (H1 & H2 & H3).
  cbv zeta in H1, H2, H3.
  destruct c; simpl; eexists; (split; [reflexivity|]);
    unfold timerResets in *;
    rewrite ?flat_map_app, ?pooledTransactions_app, ?filter_app,
      ?flat_map_app, ?H1, ?H2, ?H3;
    simpl; destruct (tx_Sampled tx); simpl; repeat split.
Qed.

Lemma oneFailureStats_evicts (k : Z) :
  accumulate (oneFailureStats k) (add_TransactionsDropped 1 zeroStats)
  = oneFailureStats (k + 1).
Proof.
  unfold accumulate, oneFailureStats, add_TransactionsDropped. simpl.
  f_equal. change (uint64_add 0 1) with 1. apply uint64_uint64_add.
Qed.

Lemma arrival_at_full_queue (w : World) (d n : Z) (h : Transaction)
    (q : list Transaction) (k : Z) (tx : Transaction) :
  0 < n -> len (h :: q) = n ->
  iteration w (RecvTransaction tx)
    (arrivalsLoop d n true (h :: q) (oneFailureStats k))
  = Some (Some (mkFrame (arrivalsLoop d n true (q ++ [tx])
                           (oneFailureStats (k + 1)))
                  (add_TransactionsDropped 1 zeroStats)
                  [TxReset h; TransactionPoolPut h])).
Proof.
  intros Hn H. rewrite <- oneFailureStats_evicts.
  unfold iteration, select, receivedTransaction, arrivalsLoop.
  cbn [maxTransactionQueueSize transactions flushC].
  rewrite H.
  replace (0 <? n) with true by (symmetry; apply Z.ltb_lt; lia).
  rewrite Z.leb_refl. cbn [andb].
  replace (n - n + 1) with 1 by lia.
  change (uint64 1) with 1. change (Z.to_nat 1) with 1%nat.
  cbn [firstn skipn flat_map app].
  cbv zeta. cbn [set_transactions transactions flushC flushInterval flushed
    maxTransactionQueueSize maxErrorQueueSize errors errorsC forceFlush
    loop_sender t_stats].
  assert (E : len (q ++ [tx]) = n).
  { rewrite len_app. change (len [tx]) with 1. rewrite <- H.
    unfold len. simpl. lia. }
  rewrite E, Z.eqb_refl. reflexivity.
Qed.

Lemma timerResets_app (a b : list Effect) :
  timerResets (a ++ b) = timerResets a ++ timerResets b.
Proof. unfold timerResets. apply flat_map_app. Qed.

Lemma len_cons {A : Type} (x : A) (l : list A) : len (x :: l) = len l + 1.
Proof. unfold len. simpl. lia. Qed.

Lemma arrivals_at_full_queue (w : World) (d n : Z) (b : list Transaction) :
  0 < n ->
  forall (q : list Transaction) (k : Z),
    len q = n ->
    exists tr,
      run (arrivals w b) (arrivalsLoop d n true q (oneFailureStats k))
      = Some (arrivalsLoop d n true (skipn (List.length b) (q ++ b))
                (oneFailureStats (k + len b)), tr)
      /\ filter isTransportCall tr = []
      /\ pooledTransactions tr = firstn (List.length b) (q ++ b)
      /\ timerResets tr = [].
Proof.
  intro Hn. induction b as [|x b IH]; intros q k Hq.
  - exists []. simpl. rewrite app_nil_r. change (len []) with 0.
    rewrite Z.add_0_r. repeat split.
  - destruct q as [|h q]; [change (len []) with 0 in Hq; lia|].
    destruct (IH (q ++ [x]) (k + 1)) as (tr & Hrun & Ht & Hp & Hr).
    { rewrite len_app. rewrite len_cons in Hq. change (len [x]) with 1. lia. }
    unfold arrivals in *. simpl map. simpl run.
    rewrite (arrival_at_full_queue w d n h q k x Hn Hq).
    cbn [fr_loop fr_trace]. rewrite Hrun. eexists. split.
    + rewrite <- app_assoc. simpl. rewrite len_cons.
      replace (k + (len b + 1)) with (k + 1 + len b) by lia. reflexivity.
    + rewrite <- app_assoc in Hp. simpl. rewrite Ht, Hp, Hr.
      repeat split.
Qed.

Lemma arrivals_fill_then_evict (w : World) (d n : Z) (err : error)
    (x : Transaction) (b a : list Transaction) :
  w_errors w = [] ->
  forall (c : bool) (q : list Transaction),
    len q + len a + 1 = n ->
    transport.SendTransactions (w_Transport w) (q ++ a ++ [x]) = Some err ->
    exists tr,
      run (arrivals w (a ++ x :: b)) (arrivalsLoop d n c q zeroStats)
      = Some (arrivalsLoop d n true
                (skipn (List.length b) (q ++ a ++ x :: b))
                (oneFailureStats (len b)), tr)
      /\ filter isTransportCall tr
         = [TransportSendTransactions (q ++ a ++ [x]) (Some err)]
      /\ pooledTransactions tr = firstn (List.length b) (q ++ a ++ x :: b)
      /\ timerResets tr = if c then [] else [d].
Proof.
  intro Hw. induction a as [|y a IH]; intros c q Hq Hrej.
  - change (len []) with 0 in Hq. simpl app in *.
    destruct (arrival_fills_queue w d n c q x err ltac:(lia) Hw Hrej)
      as (tr1 & Hit & Ht1 & Hp1 & Hr1).
    destruct (arrivals_at_full_queue w d n b ltac:(pose proof (len_nonneg q); lia)
                (q ++ [x]) 0)
      as (tr2 & Hrun & Ht2 & Hp2 & Hr2).
    { rewrite len_app. change (len [x]) with 1. lia. }
    unfold arrivals in *. simpl map. simpl run. rewrite Hit.
    cbn [fr_loop fr_trace]. rewrite Hrun. eexists. split.
    + rewrite <- app_assoc. reflexivity.
    + rewrite filter_app, pooledTransactions_app, timerResets_app.
      rewrite Ht1, Ht2, Hp1, Hp2, Hr1, Hr2. rewrite <- app_assoc.
      rewrite !app_nil_r. repeat split.
  - rewrite len_cons in Hq.
    destruct (IH true (q ++ [y])) as (tr & Hrun & Ht & Hp & Hr).
    { rewrite len_app. change (len [y]) with 1. lia. }
    { rewrite <- app_assoc. exact Hrej. }
    unfold arrivals in *. simpl app. simpl map. simpl run.
    rewrite (arrival_below_cap w d n c q zeroStats y)
      by (pose proof (len_nonneg a); lia).
    cbn [fr_loop fr_trace]. rewrite Hrun. rewrite <- !app_assoc in *.
    simpl app in *. eexists. split; [reflexivity|].
    rewrite filter_app, pooledTransactions_app, timerResets_app.
    rewrite Ht, Hp, Hr. destruct c; simpl; rewrite ?app_nil_r; repeat split.
Qed.

(** X18. A run of arrivals under a rejecting Transport keeps the newest:
    when at least [maxTransactionQueueSize] transactions arrive at a new
    tracer whose Transport rejects the first full queue, the Transport
    is called once, with the oldest [maxTransactionQueueSize] records;
    afterwards the queue holds the newest [maxTransactionQueueSize]
    arrivals, every older one was returned to the pool in arrival order
    and counted in TransactionsDropped, and the flush timer was armed
    once. *)
Theorem rejected_arrivals_keep_newest (w : World) (d n : Z)
    (txs : list Transaction) (err : error) :
  0 < n -> n <= len txs ->
  w_errors w = [] ->
  transport.SendTransactions (w_Transport w) (firstn (Z.to_nat n) txs)
  = Some err ->
  exists l' tr,
    run (arrivals w txs) (newTracerLoop d n) = Some (l', tr)
    /\ transactions l' = skipn (Z.to_nat (len txs - n)) txs
    /\ flushC l' = true
    /\ t_stats l'
       = mkTracerStats (mkTracerStatsErrors 0 1 0) 0 0 0
           (uint64 (len txs - n))
    /\ filter isTransportCall tr
       = [TransportSendTransactions (firstn (Z.to_nat n) txs) (Some err)]
    /\ pooledTransactions tr = firstn (Z.to_nat (len txs - n)) txs
    /\ timerResets tr = [d].
Proof.
  intros Hn Hlen Hw Hrej.
  set (a := firstn (Z.to_nat (n - 1)) txs).
  assert (Hsplit : txs = a ++ skipn (Z.to_nat (n - 1)) txs)
    by (symmetry; apply firstn_skipn).
  assert (Ha : len a = n - 1).
  { unfold a, len. rewrite length_firstn. unfold len in Hlen. lia. }
  destruct (skipn (Z.to_nat (n - 1)) txs) as [|x b] eqn:Es.
  { exfalso. rewrite app_nil_r in Hsplit. rewrite <- Hsplit in Ha. lia. }
  assert (Hb : len txs - n = len b).
  { rewrite Hsplit at 1. rewrite len_app, len_cons. lia. }
  assert (Hfirst : firstn (Z.to_nat n) txs = a ++ [x]).
  { rewrite Hsplit at 1. rewrite firstn_app.
    replace (Z.to_nat n - List.length a)%nat with 1%nat
      by (unfold len in Ha; lia).
    rewrite firstn_all2 by (unfold len in Ha; lia). reflexivity. }
  rewrite Hfirst in *.
  destruct (arrivals_fill_then_evict w d n err x b a Hw false [])
    as (tr & Hrun & Ht & Hp & Hr).
  { change (len []) with 0. lia. }
  { exact Hrej. }
  simpl app in *. rewrite <- Hsplit in *.
  exists (arrivalsLoop d n true (skipn (List.length b) txs)
            (oneFailureStats (len b))), tr.
  rewrite Hb.
  replace (Z.to_nat (len b)) with (List.length b) by (unfold len; lia).
  repeat split; assumption.
Qed.

(** The statement for ten arrivals at a queue of five, as in
    TestTracerMaxQueueSize. *)
Lemma rejected_arrivals_keep_newest_witness :
  exists l' tr,
    run (arrivals failingWorld (map sampleTx (seq 1 10)))
      (newTracerLoop tenSeconds 5) = Some (l', tr)
    /\ transactions l' = map sampleTx (seq 6 5)
    /\ flushC l' = true
    /\ t_stats l' = mkTracerStats (mkTracerStatsErrors 0 1 0) 0 0 0 5
    /\ filter isTransportCall tr
       = [TransportSendTransactions (map sampleTx (seq 1 5))
            (Some "nope"%string)]
    /\ pooledTransactions tr = map sampleTx (seq 1 5)
    /\ timerResets tr = [tenSeconds].
Proof.
  refine (rejected_arrivals_keep_newest failingWorld tenSeconds 5
            (map sampleTx (seq 1 10)) "nope"%string _ _ _ _).
  - lia.
  - vm_compute. discriminate.
  - reflexivity.
  - reflexivity.
Defined.

(** * The queues in closed form *)

(** ** The drop-oldest append *)

Lemma app_split_at {A : Type} (a c l : list A) :
  a ++ c = l ->
  a = firstn (List.length a) l /\ c = skipn (List.length a) l.
Proof.
  intros <-. split.
  - rewrite firstn_app, Nat.sub_diag, firstn_all. simpl.
    rewrite app_nil_r. reflexivity.
  - rewrite skipn_app, Nat.sub_diag, skipn_all. reflexivity.
Qed.

Lemma receivedTransaction_length (max : Z) (queue : list Transaction)
    (tx : Transaction) (stats : TracerStats) :
  len queue <= int_max ->
  len (fst (fst (receivedTransaction max queue tx stats)))
  = len queue + 1 - drainEvictions max queue [tx].
Proof.
  intro Hq. pose proof (len_nonneg queue) as H0.
  pose proof int_max_lt_uint64_mod as Hm.
  unfold receivedTransaction, drainEvictions. change (len [tx]) with 1.
  simpl negb. rewrite andb_true_r.
  destruct (0 <? max) eqn:E1; simpl andb.
  - apply Z.ltb_lt in E1. destruct (max <=? len queue) eqn:E2.
    + apply Z.leb_le in E2. cbv zeta. simpl fst.
      rewrite uint64_small by lia. rewrite len_app. change (len [tx]) with 1.
      unfold len in *. rewrite length_skipn. lia.
    + apply Z.leb_gt in E2. simpl fst. rewrite len_app.
      change (len [tx]) with 1. lia.
  - simpl fst. rewrite len_app. change (len [tx]) with 1. lia.
Qed.

Lemma drainTransactions_length (max : Z) (buffered : list Transaction) :
  forall (queue : list Transaction) (stats : TracerStats),
    len queue + len buffered <= int_max ->
    len (fst (fst (drainTransactions max queue stats buffered)))
    = len queue + len buffered - drainEvictions max queue buffered.
Proof.
  induction buffered as [|tx rest IH]; intros queue stats Hb.
  - simpl. unfold drainEvictions. change (len []) with 0.
    rewrite andb_false_r. lia.
  - rewrite len_cons in Hb. pose proof (len_nonneg rest) as Hr.
    pose proof (len_nonneg queue) as H0.
    pose proof (receivedTransaction_length max queue tx stats ltac:(lia))
      as H1.
    simpl drainTransactions.
    destruct (receivedTransaction max queue tx stats) as [[q1 s1] t1].
    simpl fst in H1.
    assert (He : 0 <= drainEvictions max queue [tx]).
    { unfold drainEvictions. destruct (_ && _); lia. }
    specialize (IH q1 s1 ltac:(lia)).
    destruct (drainTransactions max q1 s1 rest) as [[q2 s2] t2].
    simpl fst in *. rewrite IH, H1.
    unfold drainEvictions. rewrite H1. unfold drainEvictions.
    rewrite !len_cons. change (len []) with 0. simpl Z.add.
    assert (E : (len rest + 1 =? 0) = false) by (apply Z.eqb_neq; lia).
    rewrite E. simpl negb. rewrite !andb_true_r.
    destruct (0 <? max) eqn:E1; simpl andb; [|cbv iota; lia].
    apply Z.ltb_lt in E1.
    destruct (len rest =? 0) eqn:E2; simpl negb; cbv iota.
    + apply Z.eqb_eq in E2. lia.
    + lia.
Qed.

Lemma tracerStats_eq (a b : TracerStats) :
  Errors a = Errors b -> ErrorsSent a = ErrorsSent b ->
  ErrorsDropped a = ErrorsDropped b ->
  TransactionsSent a = TransactionsSent b ->
  TransactionsDropped a = TransactionsDropped b -> a = b.
Proof. destruct a, b. simpl. intros. subst. reflexivity. Qed.

(** The drain of a forced flush: the oldest records beyond the cap are
    reset and pooled, oldest first, the rest is the queue, and the drops
    are counted. *)
Lemma drainTransactions_closed_form (max : Z)
    (queue buffered : list Transaction) :
  len queue + len buffered <= int_max ->
  let k := Z.to_nat (drainEvictions max queue buffered) in
  drainTransactions max queue zeroStats buffered
  = (skipn k (queue ++ buffered),
     add_TransactionsDropped (drainEvictions max queue buffered) zeroStats,
     recycleTransactions (firstn k (queue ++ buffered))).
Proof.
  intros Hb k.
  pose proof (drainTransactions_length max buffered queue zeroStats Hb) as Hl.
  pose proof (drainTransactions_conserves max buffered queue zeroStats) as Hc.
  pose proof (drainTransactions_trace max buffered queue zeroStats) as Ht.
  pose proof (drainTransactions_counters max buffered queue zeroStats) as Hn.
  pose proof (drainTransactions_eviction max buffered queue zeroStats) as He.
  cbv zeta in Hc, Ht, Hn, He.
  destruct (drainTransactions max queue zeroStats buffered) as [[q1 s1] t1].
  simpl fst in *. simpl snd in *.
  destruct He as [_ He]. destruct Hn as (N1 & N2 & N3 & N4).
  specialize (N4 Hb ltac:(unfold uint64_mod; simpl; lia)).
  assert (Hk : List.length (pooledTransactions t1) = k).
  { apply (f_equal (fun x => len x)) in Hc. rewrite !len_app in Hc.
    unfold k. unfold len in *. lia. }
  destruct (app_split_at _ _ _ Hc) as [Hp Hq]. rewrite Hk in Hp, Hq.
  f_equal; [f_equal|].
  - exact Hq.
  - apply tracerStats_eq; simpl; try assumption.
    rewrite N4. unfold uint64_add. f_equal. f_equal.
    unfold len. rewrite Hk. unfold k. rewrite Z2Nat.id; [reflexivity|].
    unfold drainEvictions. destruct (_ && _); lia.
  - rewrite Ht, Hp. reflexivity.
Qed.

(** ** The forced flush *)

(** C4. (1) Accepting a Flush request drains the buffered transactions
    into the queue through the drop-oldest append: with a positive cap the
    oldest records beyond the cap, of the queue followed by the buffered
    transactions, are reset and returned to the pool, oldest first, and
    counted in TransactionsDropped, and the queue is what follows them.
    It records the completion channel, disables the force-flush case, and
    then sends the errors queue and the transactions queue.  (2) A completion channel is signaled only
    at the end of an iteration that sends transactions and records neither
    a send-transactions nor a send-errors failure; both queues are then
    empty and the force-flush case is enabled again.  (3) Between
    iterations, while a signal is pending the force-flush case is disabled
    and a Flush request cannot be accepted.  (4) While a signal is
    pending, a send phase with a failed send leaves it pending with the
    timer armed; a send phase that sends transactions without a failure
    signals it. *)
Theorem forced_flush_completion (w : World) (l : Loop) :
  (forceFlush l = true ->
   forall (ch : nat) (buffered : list Transaction),
     let d := drainTransactions (maxTransactionQueueSize l) (transactions l)
                zeroStats buffered in
     let l1 := set_flushC false
                 (set_forceFlush false
                    (set_transactions (fst (fst d))
                       (set_flushed (Some ch) l))) in
     let f0 := mkFrame l1 (snd (fst d)) (snd d) in
     let f := sendPhaseClosedForm w true f0 in
     let queue := sendPhaseErrors w f0 in
     select (RecvForceFlush ch buffered) l
     = Some (SendPhase l1 (snd (fst d)) true (snd d))
     /\ (len (transactions l) + len buffered <= int_max ->
         let k := Z.to_nat (drainEvictions (maxTransactionQueueSize l)
                              (transactions l) buffered) in
         d = (skipn k (transactions l ++ buffered),
              add_TransactionsDropped
                (drainEvictions (maxTransactionQueueSize l) (transactions l)
                   buffered) zeroStats,
              recycleTransactions (firstn k (transactions l ++ buffered))))
     /\ iteration w (RecvForceFlush ch buffered) l = Some (Some f)
     /\ filter isTransportCall (fr_trace f)
        = match queue with
          | [] => []
          | _ => [TransportSendErrors queue
                    (transport.SendErrors (w_Transport w) queue)]
          end
          ++ match fst (fst d) with
             | [] => []
             | _ => [TransportSendTransactions (fst (fst d))
                       (transport.SendTransactions (w_Transport w)
                          (fst (fst d)))]
             end
     /\ (sendPhaseFailed w true f0 = true ->
         flushC (fr_loop f) = true
         /\ timerResets (fr_trace f) = [flushInterval l]
         /\ flushed (fr_loop f) = Some ch
         /\ forceFlush (fr_loop f) = false
         /\ signals (fr_trace f) = [])
     /\ (sendPhaseFailed w true f0 = false ->
         signals (fr_trace f) = [ch]
         /\ flushed (fr_loop f) = None
         /\ forceFlush (fr_loop f) = true))
  /\ (forall (ev : Event) (f : Frame) (ch : nat),
        iteration w ev l = Some (Some f) ->
        In ch (signals (fr_trace f)) ->
        exists l1 stats tr,
          select ev l = Some (SendPhase l1 stats true tr)
          /\ flushed l1 = Some ch
          /\ sendPhaseFailed w true (mkFrame l1 stats tr) = false
          /\ SendTransactions (Errors (fr_statsUpdates f)) = 0
          /\ SendErrors (Errors (fr_statsUpdates f)) = 0
          /\ transactions (fr_loop f) = []
          /\ errors (fr_loop f) = []
          /\ flushed (fr_loop f) = None
          /\ forceFlush (fr_loop f) = true)
  /\ (reachable l -> flushed l <> None ->
      forceFlush l = false
      /\ forall ch buffered, iteration w (RecvForceFlush ch buffered) l = None)
  /\ (forall (ev : Event) (l1 : Loop) (stats : TracerStats) (b : bool)
             (tr : list Effect) (ch : nat),
        select ev l = Some (SendPhase l1 stats b tr) ->
        flushed l1 = Some ch ->
        let f0 := mkFrame l1 stats tr in
        let f := sendPhaseClosedForm w b f0 in
        iteration w ev l = Some (Some f)
        /\ sendPhaseFailed w b f0
           = (negb (len (sendPhaseErrors w f0) =? 0)
              && match transport.SendErrors (w_Transport w)
                         (sendPhaseErrors w f0) with
                 | None => false
                 | Some _ => true
                 end)
             || (b && negb (len (transactions l1) =? 0)
                 && match transport.SendTransactions (w_Transport w)
                            (transactions l1) with
                    | None => false
                    | Some _ => true
                    end)
        /\ (sendPhaseFailed w b f0 = true ->
            flushed (fr_loop f) = Some ch /\ flushC (fr_loop f) = true
            /\ signals (fr_trace f) = [])
        /\ (b = false ->
            flushed (fr_loop f) = Some ch /\ signals (fr_trace f) = [])
        /\ (sendPhaseFailed w b f0 = false -> b = true ->
            signals (fr_trace f) = [ch]
            /\ flushed (fr_loop f) = None
            /\ forceFlush (fr_loop f) = true)).
Proof.
  split; [|split; [|split]].
  - intros Hff ch buffered d l1 f0 f queue.
    assert (Hsel : select (RecvForceFlush ch buffered) l
                   = Some (SendPhase l1 (snd (fst d)) true (snd d))).
    { simpl. rewrite Hff. subst l1 d.
      destruct (drainTransactions _ _ _ _) as [[q1 s1] t1]. reflexivity. }
    destruct (select_SendPhase _ _ _ _ _ _ Hsel) as [Hz Hev].
    split; [exact Hsel|].
    split; [intro Hb; exact (drainTransactions_closed_form _ _ _ Hb)|].
    split; [exact (iteration_SendPhase w _ _ _ _ _ _ Hsel)|].
    split.
    { subst f. rewrite <- (sendPhase_closed_form w true f0 Hz).
      rewrite sendPhase_transport_calls. cbv zeta.
      subst f0. simpl fr_trace. rewrite (eviction_not_transport _ Hev).
      reflexivity. }
    split.
    + intro Hf. subst f. rewrite closed_form_signals, closed_form_timerResets.
      unfold sendPhaseClosedForm. simpl. rewrite Hf. simpl.
      rewrite (eviction_signals _ Hev), (eviction_timerResets _ Hev).
      repeat split.
    + intro Hf. subst f. rewrite closed_form_signals.
      unfold sendPhaseClosedForm. simpl. rewrite Hf. simpl.
      rewrite (eviction_signals _ Hev). repeat split.
  - intros ev f ch Hit Hin. unfold iteration in Hit.
    destruct (select ev l) as [[|l1 st tr|l1 st b tr]|] eqn:Hsel;
      try discriminate.
    + inversion Hit; subst. simpl in Hin.
      destruct (select_Continue_trace ev l l1 st tr Hsel) as (Hs & _).
      rewrite Hs in Hin. contradiction.
    + destruct (select_SendPhase _ _ _ _ _ _ Hsel) as [Hz Hev].
      rewrite sendPhase_closed_form in Hit by exact Hz.
      inversion Hit; subst. clear Hit.
      rewrite closed_form_signals in Hin. simpl in Hin.
      rewrite (eviction_signals _ Hev) in Hin. simpl in Hin.
      destruct (sendPhaseFailed w b (mkFrame l1 st tr)) eqn:Hf;
        [contradiction|].
      destruct b; [|contradiction]. simpl in Hin.
      destruct (flushed l1) as [ch'|] eqn:Hfl; [|contradiction].
      destruct Hin as [->|[]].
      exists l1, st, tr.
      destruct (send_results_failure_counters w (mkFrame l1 st tr) Hz)
        as (HsE & _ & HsT & HsT').
      unfold sendPhaseFailed in Hf. apply orb_false_iff in Hf.
      destruct Hf as [HfE HfT]. simpl in HfT.
      rewrite HfE in HsE. simpl in HsT. rewrite HfT in HsT.
      unfold sendPhaseClosedForm. simpl.
      unfold sendPhaseFailed. simpl. rewrite HfE, HfT, Hfl. simpl.
      repeat split; try assumption; try congruence.
      * unfold sendFailed in HfT.
        destruct (outcome (sendPhaseTransactionsResult w (mkFrame l1 st tr)));
          [reflexivity|]. simpl in HfT. apply negb_false_iff in HfT.
        apply Z.eqb_eq, len_nil_iff in HfT. exact HfT.
      * unfold sendFailed in HfE.
        destruct (outcome (sendPhaseErrorsResult w (mkFrame l1 st tr)));
          [reflexivity|]. simpl in HfE. apply negb_false_iff in HfE.
        apply Z.eqb_eq, len_nil_iff in HfE. exact HfE.
  - intros Hr Hp. pose proof (reachable_flushGate l Hr) as Hg.
    unfold flushGate in Hg. destruct (flushed l); [|contradiction].
    split; [exact Hg|]. intros ch buffered. unfold iteration. simpl.
    rewrite Hg. reflexivity.
  - intros ev l1 stats b tr ch Hsel Hfl f0 f.
    destruct (select_SendPhase _ _ _ _ _ _ Hsel) as [Hz Hev].
    split; [exact (iteration_SendPhase w _ _ _ _ _ _ Hsel)|].
    split; [apply sendPhaseFailed_spec|].
    subst f. rewrite closed_form_signals. unfold sendPhaseClosedForm.
    subst f0. simpl. rewrite (eviction_signals _ Hev), Hfl. simpl.
    split; [|split].
    + intro Hf. rewrite Hf. simpl. repeat split.
    + intro Hb. subst b. rewrite andb_false_r. repeat split.
    + intros Hf Hb. subst b. rewrite Hf. simpl. repeat split.
Qed.

(** The statement at a Flush request that finds three transactions
    buffered while one is queued under a cap of two, with a Transport that
    accepts everything: the two oldest records are evicted, the two newest
    are sent, and the completion channel is signaled. *)
Lemma forced_flush_completion_witness :
  drainTransactions 2 [sampleTx 1] zeroStats
    [sampleTx 2; sampleTx 3; sampleTx 4]
  = ([sampleTx 3; sampleTx 4], add_TransactionsDropped 2 zeroStats,
     recycleTransactions [sampleTx 1; sampleTx 2])
  /\ iteration discardWorld
       (RecvForceFlush 7 [sampleTx 2; sampleTx 3; sampleTx 4])
       (set_transactions [sampleTx 1] (configuredLoop 2 1000))
     = Some (Some
               (sendPhaseClosedForm discardWorld true
                  (mkFrame
                     (set_flushC false
                        (set_forceFlush false
                           (set_transactions [sampleTx 3; sampleTx 4]
                              (set_flushed (Some 7%nat)
                                 (configuredLoop 2 1000)))))
                     (add_TransactionsDropped 2 zeroStats)
                     (recycleTransactions [sampleTx 1; sampleTx 2]))))
  /\ signals
       (fr_trace
          (sendPhaseClosedForm discardWorld true
             (mkFrame
                (set_flushC false
                   (set_forceFlush false
                      (set_transactions [sampleTx 3; sampleTx 4]
                         (set_flushed (Some 7%nat) (configuredLoop 2 1000)))))
                (add_TransactionsDropped 2 zeroStats)
                (recycleTransactions [sampleTx 1; sampleTx 2])))) = [7%nat].
Proof.
  destruct (proj1 (forced_flush_completion discardWorld
                     (set_transactions [sampleTx 1] (configuredLoop 2 1000)))
              eq_refl 7%nat [sampleTx 2; sampleTx 3; sampleTx 4])
    as (_ & Hd & Hit & _ & _ & Hok).
  split; [|split].
  - apply Hd. vm_compute. discriminate.
  - exact Hit.
  - exact (proj1 (Hok eq_refl)).
Defined.

(** ** Pool returns *)

Lemma evictedBySelect_closed_form (ev : Event) (l : Loop) :
  len (transactions l) + len (transactionsTaken ev) <= int_max ->
  evictedBySelect ev l
  = firstn (Z.to_nat (evictions ev l))
      (transactions l ++ transactionsTaken ev).
Proof.
  intro Hb.
  assert (Hnone : drainEvictions (maxTransactionQueueSize l)
                    (transactions l) [] = 0).
  { unfold drainEvictions. change (len []) with 0.
    rewrite andb_false_r. reflexivity. }
  destruct ev; simpl; rewrite ?Hnone; try reflexivity.
  - pose proof (drainTransactions_closed_form (maxTransactionQueueSize l)
                  (transactions l) [tx] Hb) as Hd.
    cbv zeta in Hd. simpl drainTransactions in Hd.
    destruct (receivedTransaction (maxTransactionQueueSize l)
                (transactions l) tx zeroStats) as [[q1 s1] t1].
    injection Hd as _ _ Ht. rewrite app_nil_r in Ht. simpl snd.
    rewrite Ht. apply pooledTransactions_evicted.
  - destruct (forceFlush l); [|reflexivity].
    rewrite (drainTransactions_closed_form _ _ _ Hb). simpl snd.
    apply pooledTransactions_evicted.
Qed.

Lemma sentTransactions_filter (tr : list Effect) :
  sentTransactions tr = sentTransactions (filter isTransportCall tr)
  /\ deliveredTransactions tr
     = deliveredTransactions (filter isTransportCall tr).
Proof.
  induction tr as [|ef tr [IH1 IH2]]; [split; reflexivity|].
  destruct ef; simpl; rewrite <- ?IH1, <- ?IH2; split; reflexivity.
Qed.

(** The transactions an iteration hands to the Transport are the queue
    as the select statement left it, or nothing; those the Transport
    accepted likewise. *)
Lemma iteration_sent_transactions (w : World) (ev : Event) (l : Loop)
    (f : Frame) :
  iteration w ev l = Some (Some f) ->
  exists rest,
    evictedBySelect ev l ++ rest = transactions l ++ transactionsTaken ev
    /\ (sentTransactions (fr_trace f) = []
        \/ sentTransactions (fr_trace f) = rest)
    /\ (deliveredTransactions (fr_trace f) = []
        \/ deliveredTransactions (fr_trace f) = rest).
Proof.
  intro Hit. unfold iteration in Hit.
  pose proof (select_conserves ev l) as Hc.
  destruct (sentTransactions_filter (fr_trace f)) as [Hs Hd].
  rewrite Hs, Hd. clear Hs Hd.
  destruct (select ev l) as [[|l1 st tr|l1 st b tr]|] eqn:Hsel;
    try discriminate.
  - inversion Hit; subst. exists (transactions l1). split; [exact Hc|].
    destruct (select_Continue_trace ev l l1 st tr Hsel) as (_ & Ht & _).
    simpl fr_trace. rewrite Ht. split; left; reflexivity.
  - inversion Hit; subst f. clear Hit.
    exists (transactions l1). split; [exact Hc|].
    rewrite sendPhase_transport_calls. cbv zeta. simpl fr_trace.
    simpl fr_loop.
    destruct (select_SendPhase _ _ _ _ _ _ Hsel) as [_ Hev].
    rewrite (eviction_not_transport tr Hev). simpl app.
    unfold sentTransactions, deliveredTransactions.
    rewrite !flat_map_app.
    destruct (drainErrors _ _ _) as [|e q]; simpl flat_map;
      rewrite ?app_nil_l;
      (destruct b; [|split; left; reflexivity]);
      (destruct (transactions l1) as [|tx txs];
       [split; left; reflexivity|]);
      simpl; rewrite ?app_nil_r;
      (destruct (transport.SendTransactions (w_Transport w) (tx :: txs));
       split; auto).
Qed.

(** C6, amended.  In every iteration, the errors reset and returned to
    the pool are exactly those of an errors batch the Transport accepted
    in that iteration.  The transactions reset and returned to the pool
    are exactly the oldest records the drop-oldest append of the select
    case evicts, followed by those of a transactions batch the Transport
    accepted in that iteration.  The evicted records are not handed to
    the Transport by the iteration that evicts them: what it sends, if
    anything, is the queue behind them, which is then either accepted and
    pooled or kept. *)
Theorem pool_return_after_delivery_or_eviction (w : World) (ev : Event)
    (l : Loop) (f : Frame) :
  iteration w ev l = Some (Some f) ->
  pooledErrors (fr_trace f) = deliveredErrors (fr_trace f)
  /\ resetErrors (fr_trace f) = pooledErrors (fr_trace f)
  /\ resetTransactions (fr_trace f) = pooledTransactions (fr_trace f)
  /\ (len (transactions l) + len (transactionsTaken ev) <= int_max ->
      let all := transactions l ++ transactionsTaken ev in
      let k := Z.to_nat (evictions ev l) in
      pooledTransactions (fr_trace f)
      = firstn k all ++ deliveredTransactions (fr_trace f)
      /\ (sentTransactions (fr_trace f) = []
          \/ sentTransactions (fr_trace f) = skipn k all)
      /\ (deliveredTransactions (fr_trace f) = []
          /\ transactions (fr_loop f) = skipn k all
          \/ deliveredTransactions (fr_trace f) = skipn k all
             /\ transactions (fr_loop f) = [])).
Proof.
  intro Hit.
  destruct (iteration_pool_readings w ev l f Hit) as (H1 & H2 & H3 & H4).
  split; [exact H1|]. split; [exact H2|]. split; [exact H4|].
  intros Hb all k.
  pose proof (evictedBySelect_closed_form ev l Hb) as He.
  fold all k in He.
  destruct (iteration_sent_transactions w ev l f Hit)
    as (rest & Hr & Hs & Hd).
  pose proof (iteration_conserves_transactions w ev l f Hit) as Hc.
  fold all in Hr, Hc. rewrite He in Hr, H3.
  assert (Hrest : rest = skipn k all).
  { rewrite <- (firstn_skipn k all) in Hr at 2.
    apply app_inv_head in Hr. exact Hr. }
  subst rest. rewrite H3 in Hc.
  rewrite <- (firstn_skipn k all) in Hc at 2.
  rewrite <- app_assoc in Hc. apply app_inv_head in Hc.
  split; [exact H3|]. split; [exact Hs|].
  destruct Hd as [Hd|Hd]; rewrite Hd in Hc.
  - left. split; [exact Hd|exact Hc].
  - right. split; [exact Hd|].
    rewrite <- (app_nil_r (skipn k all)) in Hc at 2.
    apply app_inv_head in Hc. exact Hc.
Qed.

(** The statement at the arrival that finds two records queued under a
    cap of one: both are evicted and pooled, and only the arrival is
    handed to the Transport, accepted and pooled. *)
Lemma pool_return_after_delivery_or_eviction_witness :
  let f :=
    sendPhase discardWorld true
      (mkFrame (set_transactions [sampleTx 3] (configuredLoop 1 1000))
         (add_TransactionsDropped 2 zeroStats)
         (recycleTransactions [sampleTx 1; sampleTx 2])) in
  pooledTransactions (fr_trace f)
  = [sampleTx 1; sampleTx 2] ++ deliveredTransactions (fr_trace f)
  /\ (sentTransactions (fr_trace f) = []
      \/ sentTransactions (fr_trace f) = [sampleTx 3])
  /\ (deliveredTransactions (fr_trace f) = []
      /\ transactions (fr_loop f) = [sampleTx 3]
      \/ deliveredTransactions (fr_trace f) = [sampleTx 3]
         /\ transactions (fr_loop f) = []).
Proof.
  refine (proj2 (proj2 (proj2
            (pool_return_after_delivery_or_eviction discardWorld
               (RecvTransaction (sampleTx 3))
               (set_transactions [sampleTx 1; sampleTx 2]
                  (configuredLoop 1 1000))
               _ eq_refl))) _).
  vm_compute. discriminate.
Defined.

(** ** The cap on the errors queue, without the gate *)





(** With the gate intact the errors case fires only below the cap: an
    execution that keeps the cap never receives an error at a full
    queue. *)
Lemma reachableKeepingCap_belowCap (l : Loop) :
  reachableKeepingCap l -> reachableBelowCap l.
Proof.
  induction 1 as [|w ev l f Hr IH Hw Hwf Hk Hit]; [constructor|].
  pose proof (reachableKeepingCap_errorsGate l Hr) as [_ Hg].
  apply (belowCap_step w ev l f IH Hw Hwf); [| |exact Hit].
  - destruct ev; try exact I. simpl in *. intro Hpos.
    destruct (Hk Hpos) as [H1|[H1 _]]; lia.
  - destruct ev; try exact I. simpl. intro Hpos.
    unfold iteration in Hit. simpl in Hit.
    destruct (errorsC l) eqn:Ec; [|discriminate].
    exact (proj2 (Hg Hpos) eq_refl).
Qed.



(** ** Processors, through the loop *)

Lemma processedBatches_app (onTx : Transaction -> list Effect)
    (onErr : Error -> list Effect) (a b : list Effect) :
  processedBatches onTx onErr (a ++ b)
  = processedBatches onTx onErr a ++ processedBatches onTx onErr b.
Proof. unfold processedBatches. apply flat_map_app. Qed.

Lemma processedBatches_filter (onTx : Transaction -> list Effect)
    (onErr : Error -> list Effect) (tr : list Effect) :
  processedBatches onTx onErr tr
  = processedBatches onTx onErr (filter isTransportCall tr).
Proof.
  induction tr as [|ef tr IH]; [reflexivity|].
  destruct ef; simpl; rewrite <- ?IH; reflexivity.
Qed.

Lemma processedBatches_ext (onTx onTx' : Transaction -> list Effect)
    (onErr onErr' : Error -> list Effect) (tr : list Effect) :
  (forall tx, onTx tx = onTx' tx) -> (forall e, onErr e = onErr' e) ->
  processedBatches onTx onErr tr = processedBatches onTx' onErr' tr.
Proof.
  intros Ht He. unfold processedBatches. apply flat_map_ext.
  intros [] ; try reflexivity; apply flat_map_ext; assumption.
Qed.

Lemma processTransactionWith_None (txs : list Transaction) :
  flat_map (processTransactionWith None) txs = [].
Proof. apply flat_map_none, Forall_forall. reflexivity. Qed.

Lemma processErrorWith_None (errs : list Error) :
  flat_map (processErrorWith None) errs = [].
Proof. apply flat_map_none, Forall_forall. reflexivity. Qed.

(** In an iteration that does not replace the processor, the processor
    calls are those of the sender's processor on every record of every
    batch handed to the Transport. *)
Lemma iteration_processor_calls (w : World) (ev : Event) (l : Loop)
    (f : Frame) :
  isRecvProcessor ev = false ->
  iteration w ev l = Some (Some f) ->
  let p := processor (loop_sender l) in
  filter isProcessorCall (fr_trace f)
  = processedBatches (processTransactionWith p) (processErrorWith p)
      (fr_trace f)
  /\ processor (loop_sender (fr_loop f)) = p.
Proof.
  intros Hev Hit p. unfold iteration in Hit.
  pose proof (select_trace ev l) as Htr.
  pose proof (select_processor ev l Hev) as Hs.
  assert (Hrec : filter isProcessorCall
                   (recycleTransactions (evictedBySelect ev l)) = [])
    by apply recycle_no_processor, recycleTransactions_recycle.
  destruct (select ev l) as [[|l1 st tr|l1 st b tr]|] eqn:Hsel;
    try discriminate.
  - inversion Hit; subst f. clear Hit. simpl fr_trace. simpl fr_loop.
    split; [|exact Hs].
    destruct (select_Continue_trace ev l l1 st tr Hsel) as (_ & Ht & _).
    rewrite processedBatches_filter, Ht.
    destruct Htr as (timer & -> & [->| ->]); rewrite filter_app, Hrec;
      reflexivity.
  - destruct (select_SendPhase _ _ _ _ _ _ Hsel) as [Hz Hevi].
    inversion Hit; subst f. clear Hit. split.
    + rewrite processedBatches_filter, sendPhase_transport_calls.
      rewrite sendPhase_closed_form by exact Hz.
      rewrite closed_form_processor_calls. cbv zeta.
      cbn [fr_trace fr_loop]. unfold sendPhaseErrors. cbn [fr_loop].
      rewrite (eviction_not_transport tr Hevi). subst tr. rewrite Hrec.
      rewrite Hs. fold p. rewrite !processedBatches_app. simpl app.
      f_equal.
      * destruct (drainErrors _ _ _) as [|e q]; destruct p; simpl;
          rewrite ?app_nil_r, ?processErrorWith_None; reflexivity.
      * destruct b; [|reflexivity].
        destruct (transactions l1) as [|tx txs]; destruct p; simpl;
          rewrite ?app_nil_r, ?processTransactionWith_None; reflexivity.
    + rewrite sendPhase_closed_form by exact Hz.
      unfold sendPhaseClosedForm. simpl. exact Hs.
Qed.

Lemma run_processor_calls (sched : list (World * Event)) :
  forall (l l' : Loop) (tr : list Effect),
    keepsProcessor sched = true ->
    run sched l = Some (l', tr) ->
    let p := processor (loop_sender l) in
    filter isProcessorCall tr
    = processedBatches (processTransactionWith p) (processErrorWith p) tr
    /\ processor (loop_sender l') = p.
Proof.
  induction sched as [|[w ev] rest IH]; intros l l' tr Hk Hrun p;
    simpl in Hrun.
  - inversion Hrun; subst. split; reflexivity.
  - simpl in Hk. apply andb_prop in Hk. destruct Hk as [Hev Hk].
    apply negb_true_iff in Hev.
    destruct (iteration w ev l) as [[f|]|] eqn:Hit; try discriminate.
    + destruct (iteration_processor_calls w ev l f Hev Hit) as [H1 H2].
      fold p in H1, H2.
      destruct (run rest (fr_loop f)) as [[l2 tr2]|] eqn:Hrest;
        [|discriminate].
      inversion Hrun; subst.
      destruct (IH (fr_loop f) l' tr2 Hk Hrest) as [H3 H4].
      rewrite H2 in H3, H4. split; [|exact H4].
      rewrite filter_app, processedBatches_app, H1, H3. reflexivity.
    + inversion Hrun; subst. split; reflexivity.
Qed.

(** After the loop has received a processor, and for as long as it
    receives no other, the processor calls of a run are those of that
    processor on every record of every batch handed to the Transport. *)
Lemma run_after_RecvProcessor (w : World) (q : option Processor)
    (sched : list (World * Event)) (l l' : Loop) (tr : list Effect) :
  keepsProcessor sched = true ->
  run ((w, RecvProcessor q) :: sched) l = Some (l', tr) ->
  filter isProcessorCall tr
  = processedBatches (processTransactionWith q) (processErrorWith q) tr
  /\ processor (loop_sender l') = q.
Proof.
  intros Hk Hrun. simpl in Hrun.
  destruct (run sched _) as [[l2 tr2]|] eqn:Hrest; [|discriminate].
  inversion Hrun; subst. simpl app.
  exact (run_processor_calls sched _ l' tr Hk Hrest).
Qed.

Lemma processedBatches_none (tr : list Effect) :
  processedBatches (processTransactionWith None) (processErrorWith None) tr
  = [].
Proof.
  unfold processedBatches. apply flat_map_none, Forall_forall.
  intros ef _. destruct ef; try reflexivity.
  - apply processTransactionWith_None.
  - apply processErrorWith_None.
Qed.

(** C10.  [SetProcessor()] sends the nil processor and
    [SetProcessor(p1, ..., pn)] the composite of its arguments; the loop
    stores what it receives, whatever the sender held before, without
    making a call.  After the loop has received [SetProcessor()], and for
    as long as it receives no other processor, no iteration calls a
    processor on any record.  After it has received
    [SetProcessor(p1, ..., pn)], the processor calls of the following
    iterations are, for every batch handed to the Transport, in order,
    and for every record of the batch, in order, one call of each of
    [p1, ..., pn], in order. *)
Theorem SetProcessor_nil_and_composite :
  SetProcessor [] = None
  /\ (forall (ps : list Processor),
        ps <> [] -> SetProcessor ps = Some (Processors ps))
  /\ (forall (w : World) (l : Loop) (ps : list Processor),
        exists l1,
          iteration w (RecvProcessor (SetProcessor ps)) l
          = Some (Some (mkFrame l1 zeroStats []))
          /\ processor (loop_sender l1) = SetProcessor ps)
  /\ (forall (w : World) (sched : list (World * Event)) (l l' : Loop)
             (tr : list Effect),
        keepsProcessor sched = true ->
        run ((w, RecvProcessor (SetProcessor [])) :: sched) l
        = Some (l', tr) ->
        filter isProcessorCall tr = []
        /\ processor (loop_sender l') = None)
  /\ (forall (w : World) (sched : list (World * Event)) (l l' : Loop)
             (tr : list Effect) (ps : list Processor),
        ps <> [] ->
        keepsProcessor sched = true ->
        run ((w, RecvProcessor (SetProcessor ps)) :: sched) l
        = Some (l', tr) ->
        filter isProcessorCall tr
        = processedBatches
            (fun tx => flat_map (fun p => ProcessTransaction p tx) ps)
            (fun e => flat_map (fun p => ProcessError p e) ps) tr
        /\ processor (loop_sender l') = Some (Processors ps))
  /\ (forall (w : World) (sched : list (World * Event)) (l l' : Loop)
             (tr : list Effect) (ids : list nat),
        ids <> [] ->
        keepsProcessor sched = true ->
        run ((w, RecvProcessor (SetProcessor (map UserProcessor ids)))
             :: sched) l
        = Some (l', tr) ->
        filter isProcessorCall tr
        = processedBatches
            (fun tx => map (fun id => CallProcessTransaction id tx) ids)
            (fun e => map (fun id => CallProcessError id e) ids) tr).
Proof.
  split; [reflexivity|]. split; [exact SetProcessor_some|].
  split; [|split; [|split]].
  - intros w l ps. eexists. split; reflexivity.
  - intros w sched l l' tr Hk Hrun.
    destruct (run_after_RecvProcessor w _ sched l l' tr Hk Hrun) as [H1 H2].
    split; [|exact H2]. rewrite H1. apply processedBatches_none.
  - intros w sched l l' tr ps Hne Hk Hrun.
    destruct (run_after_RecvProcessor w _ sched l l' tr Hk Hrun) as [H1 H2].
    rewrite (SetProcessor_some ps Hne) in H1, H2.
    split; [|exact H2]. rewrite H1. reflexivity.
  - intros w sched l l' tr ids Hne Hk Hrun.
    assert (Hne' : map UserProcessor ids <> [])
      by (destruct ids; [contradiction|discriminate]).
    destruct (run_after_RecvProcessor w _ sched l l' tr Hk Hrun) as [H1 _].
    rewrite (SetProcessor_some _ Hne') in H1. rewrite H1.
    apply processedBatches_ext.
    + intro tx. apply user_processors_calls_tx.
    + intro e. apply user_processors_calls_err.
Qed.

(** The statement on a new tracer that receives two processors, then an
    error, then a Flush request with two transactions buffered: two calls
    for the error, then two for each transaction. *)
Lemma SetProcessor_nil_and_composite_witness :
  exists (l' : Loop) (tr : list Effect),
    run processorsSchedule (newTracerLoop tenSeconds 500) = Some (l', tr)
    /\ filter isProcessorCall tr
       = processedBatches
           (fun tx => map (fun id => CallProcessTransaction id tx)
                        [1; 2]%nat)
           (fun e => map (fun id => CallProcessError id e) [1; 2]%nat) tr
    /\ filter isProcessorCall tr
       = [CallProcessError 1 (sampleErr 1);
          CallProcessError 2 (sampleErr 1);
          CallProcessTransaction 1 (sampleTx 1);
          CallProcessTransaction 2 (sampleTx 1);
          CallProcessTransaction 1 (sampleTx 2);
          CallProcessTransaction 2 (sampleTx 2)].
Proof.
  eexists. eexists. split; [vm_compute; reflexivity|].
  split; [|vm_compute; reflexivity].
  eapply (proj2 (proj2 (proj2 (proj2 (proj2
            SetProcessor_nil_and_composite))))
            discardWorld
            [(discardWorld, RecvError (sampleErr 1));
             (discardWorld, RecvForceFlush 7 [sampleTx 1; sampleTx 2])]
            (newTracerLoop tenSeconds 500)).
  - discriminate.
  - reflexivity.
  - vm_compute. reflexivity.
Defined.
